(** * gitnot: change detection, version counter and snapshot engine

    A shallow embedding of [main.go] of gitnot, a snapshot-and-changelog
    tool, and the properties of its checkpoint engine.

    Data.  Go strings are byte strings and are modelled by [string]; Go
    maps with string keys by [gmap string _]; [float64] by the binary64
    primitive floats; [int] by [Z] with the 64-bit wrap-around written
    out.  The working directory is a tree of files and directories; the
    state under [.gitnot/] is a record [Store].

    Effects.  Every operation of the program that writes to the disk or
    to the terminal is an [Effect].  A program ([Prog]) reads the store
    it is started in and returns a value together with the list of
    effects it performed, in order; the store after a run is the result
    of executing that list ([run]), and a run that is cut short has
    executed a prefix of it.  Operations can fail for reasons that the
    store does not show; a record [Faults] says which ones do.

    Limits of the model.  An operation that fails leaves no trace on the
    disk, except [os.RemoveAll]; a file either reads to its end or does
    not open; paths are separated by slashes; white space is ASCII white
    space; a conversion from [float64] to [int] that does not fit yields
    the least [int], as on amd64.  [path.Match] and the differ of
    [go-difflib] are parameters of the development. *)

From Stdlib Require Import ZArith Floats Uint63 Lia Ascii.
From stdpp Require Import gmap strings list fin_maps sorting.

Local Open Scope Z_scope.
#[local] Set Warnings "-inexact-float,-register-all".

(* ===================================================================== *)
(** * Part I.  Definitions                                               *)
(* ===================================================================== *)

(** ** Go's [strings], [strconv] and [path] helpers used by the program *)

Definition nl : string := String (Ascii.ascii_of_nat 10) "".

(** [strings.HasPrefix s pre]. *)
Definition HasPrefix (s pre : string) : bool := String.prefix pre s.

(** [s[n:]] on a string of at least [n] bytes. *)
Fixpoint dropBytes (n : nat) (s : string) : string :=
  match n, s with
  | O, _ => s
  | S n', String _ r => dropBytes n' r
  | S _, EmptyString => EmptyString
  end.

Definition revString (s : string) : string :=
  String.string_of_list_ascii (rev (String.list_ascii_of_string s)).

(** [strings.HasSuffix s suf]. *)
Definition HasSuffix (s suf : string) : bool :=
  String.prefix (revString suf) (revString s).

(** [strings.TrimPrefix s pre]. *)
Definition TrimPrefix (s pre : string) : string :=
  if HasPrefix s pre then dropBytes (String.length pre) s else s.

(** [strings.TrimSuffix s suf]. *)
Definition TrimSuffix (s suf : string) : string :=
  if HasSuffix s suf
  then revString (dropBytes (String.length suf) (revString s))
  else s.

(** [strings.Contains s sub]. *)
Fixpoint Contains (s sub : string) : bool :=
  String.prefix sub s ||
  match s with
  | EmptyString => false
  | String _ r => Contains r sub
  end.

(** [strings.ContainsAny s "*?"]. *)
Fixpoint ContainsGlobMeta (s : string) : bool :=
  match s with
  | EmptyString => false
  | String c r =>
      bool_decide (c = "*"%char) || bool_decide (c = "?"%char) || ContainsGlobMeta r
  end.

(** White space as [strings.TrimSpace] and [strings.Fields] see it on
    ASCII text: tab, line feed, vertical tab, form feed, carriage return
    and space. *)
Definition isSpace (c : ascii) : bool := Ascii.is_space c.

Fixpoint trimLeft (s : string) : string :=
  match s with
  | String c r => if isSpace c then trimLeft r else s
  | EmptyString => EmptyString
  end.

(** [strings.TrimSpace]. *)
Definition TrimSpace (s : string) : string :=
  revString (trimLeft (revString (trimLeft s))).

(** [strings.Split s sep] for a one-byte separator. *)
Fixpoint Split (s : string) (sep : ascii) : list string :=
  match s with
  | EmptyString => [EmptyString]
  | String c r =>
      if bool_decide (c = sep) then EmptyString :: Split r sep
      else match Split r sep with
           | h :: t => String c h :: t
           | [] => [String c EmptyString]
           end
  end.

(** [strings.Fields]: the maximal runs of non-space bytes.  [cur] is the
    field being read, reversed. *)
Fixpoint fieldsAux (s : string) (cur : list ascii) : list string :=
  let flush (k : list string) :=
    match cur with
    | [] => k
    | _ => String.string_of_list_ascii (rev cur) :: k
    end in
  match s with
  | EmptyString => flush []
  | String c r =>
      if isSpace c then flush (fieldsAux r []) else fieldsAux r (c :: cur)
  end.

Definition Fields (s : string) : list string := fieldsAux s [].

(** ASCII lower-casing, [strings.ToLower] on ASCII text. *)
Definition lowerAscii (c : ascii) : ascii :=
  let n := Ascii.nat_of_ascii c in
  if ((65 <=? n) && (n <=? 90))%nat then Ascii.ascii_of_nat (n + 32) else c.

Fixpoint ToLower (s : string) : string :=
  match s with
  | EmptyString => EmptyString
  | String c r => String (lowerAscii c) (ToLower r)
  end.

(** Go's [int] is 64 bits wide here. *)
Definition minInt : Z := - 2 ^ 63.
Definition maxInt : Z := 2 ^ 63 - 1.

Definition wrapInt (z : Z) : Z := (z + 2 ^ 63) mod 2 ^ 64 - 2 ^ 63.

(** [n++] on an [int]. *)
Definition incr (n : Z) : Z := wrapInt (n + 1).

Definition digitOf (c : ascii) : option Z :=
  let n := Ascii.nat_of_ascii c in
  if ((48 <=? n) && (n <=? 57))%nat then Some (Z.of_nat n - 48) else None.

Fixpoint digitsValue (s : string) (acc : Z) : option Z :=
  match s with
  | EmptyString => Some acc
  | String c r =>
      match digitOf c with
      | Some d => digitsValue r (10 * acc + d)
      | None => None
      end
  end.

(** [strconv.Atoi]: an optional sign, then one or more decimal digits;
    [None] stands for a non-nil error (bad syntax or out of range). *)
Definition Atoi (s : string) : option Z :=
  let unsigned (t : string) :=
    match t with
    | EmptyString => None
    | _ => digitsValue t 0
    end in
  let v :=
    match s with
    | String "-" r => Z.opp <$> unsigned r
    | String "+" r => unsigned r
    | _ => unsigned s
    end in
  match v with
  | Some z => if (minInt <=? z) && (z <=? maxInt) then Some z else None
  | None => None
  end.

Definition digitChar (d : Z) : ascii := Ascii.ascii_of_nat (Z.to_nat d + 48).

Fixpoint natDigits (fuel : nat) (n : Z) (acc : string) : string :=
  match fuel with
  | O => acc
  | S fuel' =>
      let acc' := String (digitChar (n mod 10)) acc in
      if n <? 10 then acc' else natDigits fuel' (n / 10) acc'
  end.

(** The verb [%d] of [fmt.Sprintf]. *)
Definition Itoa (z : Z) : string :=
  let a := Z.abs z in
  let ds := natDigits (S (Z.to_nat (Z.log2 a))) a "" in
  if z <? 0 then String "-" ds else ds.

(** [path.Base] and, on a slash-separated system, [filepath.Base]. *)
Fixpoint dropSlashes (s : string) : string :=
  match s with
  | String "/" r => dropSlashes r
  | _ => s
  end.

Fixpoint upToSlash (s : string) : string :=
  match s with
  | EmptyString => EmptyString
  | String "/" _ => EmptyString
  | String c r => String c (upToSlash r)
  end.

Definition Base (p : string) : string :=
  match p with
  | EmptyString => "."
  | _ =>
      match dropSlashes (revString p) with
      | EmptyString => "/"
      | r => revString (upToSlash r)
      end
  end.

(** ** The changelog renderer: [formatDiffAsMarkdown] *)

(** The loop variables [oldLn], [newLn], [added], [removed]. *)
Record Render := mkRender {
  oldLn : Z;
  newLn : Z;
  added : list string;
  removed : list string
}.

(** [fmt.Sprintf("L%d: %s", n, strings.TrimSpace(line[1:]))]. *)
Definition annotate (n : Z) (line : string) : string :=
  "L" +:+ Itoa n +:+ ": " +:+ TrimSpace (dropBytes 1 line).

(** The first component of [strings.Split(part, ",")] without its sign
    prefix, through [strconv.Atoi]. *)
Definition hunkStart (part : string) (sign : string) : option Z :=
  match Split part ","%char with
  | h :: _ => Atoi (TrimPrefix h sign)
  | [] => None
  end.

(** The body of [if strings.HasPrefix(line, "@@")]. *)
Definition hunkHeader (line : string) (r : Render) : Render :=
  match Fields line with
  | _ :: p1 :: p2 :: _ =>
      let o := match hunkStart p1 "-" with Some n => n | None => oldLn r end in
      let n := match hunkStart p2 "+" with Some n => n | None => newLn r end in
      mkRender o n (added r) (removed r)
  | _ => r
  end.

(** The look-ahead test for an identical [-]/[+] pair. *)
Definition churnPair (line next : string) : bool :=
  HasPrefix line "-" && HasPrefix next "+" &&
  bool_decide (TrimSpace (dropBytes 1 line) = TrimSpace (dropBytes 1 next)).

(** The final [if ... else if ... else] of the loop body. *)
Definition plainLine (line : string) (r : Render) : Render :=
  if HasPrefix line "-" && negb (HasPrefix line "---") then
    mkRender (incr (oldLn r)) (newLn r) (added r)
             (removed r ++ [annotate (oldLn r) line])
  else if HasPrefix line "+" && negb (HasPrefix line "+++") then
    mkRender (oldLn r) (incr (newLn r))
             (added r ++ [annotate (newLn r) line]) (removed r)
  else if negb (HasPrefix line "\") then
    mkRender (incr (oldLn r)) (incr (newLn r)) (added r) (removed r)
  else r.

(** [for i < len(lines)]: the list is [lines[i:]]. *)
Fixpoint renderLoop (lines : list string) (r : Render) : Render :=
  match lines with
  | [] => r
  | line :: rest =>
      if HasPrefix line "@@" then renderLoop rest (hunkHeader line r)
      else
        match rest with
        | next :: rest' =>
            if churnPair line next
            then renderLoop rest'
                   (mkRender (incr (oldLn r)) (incr (newLn r)) (added r) (removed r))
            else renderLoop rest (plainLine line r)
        | [] => renderLoop rest (plainLine line r)
        end
  end.

Definition section (title : string) (ls : list string) : string :=
  match ls with
  | [] => ""
  | _ => title +:+ nl +:+ foldr (λ l acc, l +:+ nl +:+ acc) "" ls +:+ nl
  end.

Definition noReadableDiff : string := "📄 File changed (no readable diff)" +:+ nl.

Definition formatDiffAsMarkdown (diffText : string) : string :=
  match diffText with
  | EmptyString => noReadableDiff
  | _ =>
      let r := renderLoop (Split diffText (Ascii.ascii_of_nat 10)) (mkRender 0 0 [] []) in
      section "### ➕ Added" (added r) +:+ section "### ➖ Removed" (removed r)
  end.

(** ** The version counter: [readVersion], [writeVersion], [bumpVersion] *)

(** [float64(n)] for an [int] [n]. *)
Definition intToFloat (z : Z) : float :=
  if z =? minInt then PrimFloat.opp (Z.ldexp PrimFloat.one 63)
  else if z <? 0 then PrimFloat.opp (of_uint63 (Uint63.of_Z (- z)))
  else of_uint63 (Uint63.of_Z z).

(** [int(f)] for a [float64] [f]: truncation towards zero.  Outside the
    range of [int], and for NaN and the infinities, the language leaves
    the result to the implementation; amd64 yields the least [int]. *)
Definition floatToInt (f : float) : Z :=
  match Prim2SF f with
  | S754_zero _ => 0
  | S754_finite s m e =>
      if 11 <=? e then minInt
      else
        let a := if 0 <=? e then Z.shiftl (Zpos m) e else Z.shiftr (Zpos m) (- e) in
        let z := if s then - a else a in
        if (minInt <=? z) && (z <=? maxInt) then z else minInt
  | _ => minInt
  end.

(** The float64 nearest to [n/10]: what [strconv.ParseFloat] returns on
    the decimal text of [n] tenths, for [|n| < 2^53]. *)
Definition tenth (n : Z) : float := (intToFloat n / 10)%float.

(** The integer nearest to [num / 2^k], ties to even. *)
Definition roundShift (num : Z) (k : Z) : Z :=
  let q := Z.shiftr num k in
  let r := num - Z.shiftl q k in
  let half := Z.shiftl 1 (k - 1) in
  if r <? half then q
  else if half <? r then q + 1
  else if Z.even q then q else q + 1.

(** The number of tenths that the verb [%.1f] prints for a finite [v],
    without its sign: [10 * |v|] rounded to the nearest integer. *)
Definition tenthsOf (v : float) : Z :=
  match Prim2SF v with
  | S754_finite _ m e =>
      if 0 <=? e then Z.shiftl (10 * Zpos m) e else roundShift (10 * Zpos m) (- e)
  | _ => 0
  end.

(** [fmt.Sprintf("%.1f", v)] for a finite [v]. *)
Definition fmt1 (v : float) : string :=
  let n := tenthsOf v in
  (if PrimFloat.get_sign v then "-" else "") +:+ Itoa (n / 10) +:+ "." +:+ Itoa (n mod 10).

(** What [readVersion] parses back from the text that [writeVersion v]
    leaves in [version.txt]: the float64 nearest to the printed decimal.
    From [2^53 / 10] on, floats are more than 0.1 apart and the printed
    decimal reads back as [v] itself, as do NaN and the infinities. *)
Definition reparse (v : float) : float :=
  match Prim2SF v with
  | S754_finite s _ _ =>
      if (PrimFloat.abs v <? 900719925474099.2)%float
      then (if s then PrimFloat.opp (tenth (tenthsOf v)) else tenth (tenthsOf v))
      else v
  | _ => v
  end.

(** The arithmetic of [bumpVersion]:
    [float64(int((v+0.1)*10+0.5)) / 10.0], every operation rounded on
    its own to the nearest float64. *)
Definition bumped (v : float) : float :=
  (intToFloat (floatToInt ((v + 0.1) * 10 + 0.5)) / 10)%float.


(** The content of [version.txt]. *)
Inductive VersionFile :=
  | VMissing                    (* the file does not exist *)
  | VJunk                       (* text that [ParseFloat] rejects *)
  | VNumber (v : float).        (* text that parses to [v] *)




(** ** SHA-1, as [crypto/sha1] computes it *)

Definition w32 (z : Z) : Z := z mod 2 ^ 32.

Definition rotl (n x : Z) : Z :=
  w32 (Z.lor (Z.shiftl x n) (Z.shiftr x (32 - n))).

Definition xor3 (a b c : Z) : Z := Z.lxor a (Z.lxor b c).

(** The message schedule: [win] holds the sixteen words before the next. *)
Fixpoint expand (k : nat) (win : list Z) : list Z :=
  match k with
  | O => []
  | S k' =>
      let w := rotl 1 (Z.lxor (xor3 (nth 13 win 0) (nth 8 win 0) (nth 2 win 0))
                              (nth 0 win 0)) in
      w :: expand k' (tail win ++ [w])
  end.

Definition Sha1State : Type := Z * Z * Z * Z * Z.

Definition sha1Round (st : Sha1State) (tw : Z * Z) : Sha1State :=
  let '(a, b, c, d, e) := st in
  let '(t, w) := tw in
  let '(f, k) :=
    if t <? 20 then (Z.lor (Z.land b c) (Z.land (Z.lxor b 4294967295) d), 1518500249)
    else if t <? 40 then (xor3 b c d, 1859775393)
    else if t <? 60 then
      (Z.lor (Z.lor (Z.land b c) (Z.land b d)) (Z.land c d), 2400959708)
    else (xor3 b c d, 3395469782) in
  (w32 (rotl 5 a + f + e + k + w), a, rotl 30 b, c, d).

Definition sha1Block (h : Sha1State) (block : list Z) : Sha1State :=
  let ws := block ++ expand 64 block in
  let '(a, b, c, d, e) := foldl sha1Round h (zip (Z.of_nat <$> seq 0 80) ws) in
  let '(h0, h1, h2, h3, h4) := h in
  (w32 (h0 + a), w32 (h1 + b), w32 (h2 + c), w32 (h3 + d), w32 (h4 + e)).

(** Big-endian bytes of a [k]-byte word. *)
Fixpoint beBytes (k : nat) (w : Z) : list Z :=
  match k with
  | O => []
  | S k' => (Z.shiftr w (8 * Z.of_nat k')) mod 256 :: beBytes k' w
  end.

Fixpoint beWords (bytes : list Z) : list Z :=
  match bytes with
  | b0 :: b1 :: b2 :: b3 :: rest =>
      (((b0 * 256 + b1) * 256 + b2) * 256 + b3) :: beWords rest
  | _ => []
  end.

Definition sha1Pad (msg : list Z) : list Z :=
  let len := Z.of_nat (length msg) in
  let zeros := Z.to_nat ((55 - len) mod 64) in
  msg ++ [128] ++ replicate zeros 0 ++ beBytes 8 (8 * len).

Fixpoint sha1Blocks (fuel : nat) (h : Sha1State) (ws : list Z) : Sha1State :=
  match fuel, ws with
  | S fuel', _ :: _ => sha1Blocks fuel' (sha1Block h (take 16 ws)) (drop 16 ws)
  | _, _ => h
  end.

Definition bytesOf (s : string) : list Z :=
  (λ c, Z.of_nat (Ascii.nat_of_ascii c)) <$> String.list_ascii_of_string s.

(** [h.Sum(nil)] after the bytes of [s] were written to a fresh [sha1.New()]:
    twenty bytes. *)
Definition sha1Sum (s : string) : list Z :=
  let ws := beWords (sha1Pad (bytesOf s)) in
  let '(h0, h1, h2, h3, h4) :=
    sha1Blocks (length ws) (1732584193, 4023233417, 2562383102, 271733878, 3285377520) ws in
  beBytes 4 h0 ++ beBytes 4 h1 ++ beBytes 4 h2 ++ beBytes 4 h3 ++ beBytes 4 h4.

Definition hexDigit (d : Z) : ascii :=
  if d <? 10 then Ascii.ascii_of_nat (Z.to_nat d + 48)
  else Ascii.ascii_of_nat (Z.to_nat d + 87).

(** The verb [%x] of [fmt.Sprintf] on a byte slice. *)
Fixpoint hexString (bytes : list Z) : string :=
  match bytes with
  | [] => ""
  | b :: rest => String (hexDigit (b / 16)) (String (hexDigit (b mod 16)) (hexString rest))
  end.

Definition isHexChar (c : ascii) : bool :=
  let n := Ascii.nat_of_ascii c in
  ((48 <=? n) && (n <=? 57) || (97 <=? n) && (n <=? 102))%nat.

Fixpoint allHex (s : string) : bool :=
  match s with
  | EmptyString => true
  | String c r => isHexChar c && allHex r
  end.

(** ** The working directory *)

(** A regular file either opens and reads to its end, or cannot be
    opened. *)
Inductive node :=
  | Readable (content : string)
  | Unreadable.

Inductive entry :=
  | File (name : string) (d : node)
  | Dir (name : string) (kids : list entry).

Definition entryName (e : entry) : string :=
  match e with
  | File name _ => name
  | Dir name _ => name
  end.

(** [filepath.Join(parent, name)] for a clean relative [parent] and a
    file name: joining onto ["."] leaves the name alone. *)
Definition joinPath (parent name : string) : string :=
  if bool_decide (parent = ".") then name else parent +:+ "/" +:+ name.

(** The file at the slash-separated path with components [segs]. *)
Fixpoint lookupPath (segs : list string) (es : list entry) : option node :=
  match segs with
  | [] => None
  | seg :: rest =>
      (fix go (l : list entry) : option node :=
         match l with
         | [] => None
         | File name d :: l' =>
             if bool_decide (name = seg)
             then (match rest with [] => Some d | _ => None end)
             else go l'
         | Dir name kids :: l' =>
             if bool_decide (name = seg)
             then (match rest with [] => None | _ => lookupPath rest kids end)
             else go l'
         end) es
  end.

(** [os.Open(p)] followed by reading to the end: the content, or [None]
    when the file is missing or cannot be opened. *)
Definition openFile (root : list entry) (p : string) : option string :=
  match lookupPath (Split p "/"%char) root with
  | Some (Readable c) => Some c
  | _ => None
  end.

(** ** Fingerprints: [hashFile] *)

Fixpoint takeBytes (n : nat) (s : string) : string :=
  match n, s with
  | S n', String c r => String c (takeBytes n' r)
  | _, _ => EmptyString
  end.

Definition bufSize : nat := Z.to_nat 8192.

(** The read loop of [hashFile] with a buffer of [buf] bytes: [rest] is
    what the file still holds, [h] the bytes written to the hash so far.
    An empty chunk is the [io.EOF] that ends the loop. *)
Fixpoint readLoop (buf fuel : nat) (rest h : string) : string :=
  match fuel with
  | O => h
  | S fuel' =>
      match takeBytes buf rest with
      | EmptyString => h
      | chunk => readLoop buf fuel' (dropBytes buf rest) (h +:+ chunk)
      end
  end.

Definition hashFile (root : list entry) (p : string) : string :=
  match openFile root p with
  | None => "unreadable-" +:+ Base p
  | Some c => hexString (sha1Sum (readLoop bufSize (S (String.length c)) c ""))
  end.

(** [current[f] = hashFile(f)] for every [f] of [files]. *)
Definition currentHashes (root : list entry) (files : list string) : gmap string string :=
  foldl (λ m f, <[f := hashFile root f]> m) ∅ files.

(** ** Change detection *)

Definition isNew (old : gmap string string) (kv : string * string) : bool :=
  bool_decide (old !! kv.1 = None).

Definition isChanged (old : gmap string string) (kv : string * string) : bool :=
  match old !! kv.1 with
  | Some oh => bool_decide (oh ≠ kv.2)
  | None => false
  end.

(** The three loops after [// detect changes].  Go ranges over a map in
    an unspecified order; the lists are given in the order of
    [map_to_list]. *)
Definition newFiles (old cur : gmap string string) : list string :=
  (filter (λ kv, isNew old kv) (map_to_list cur)).*1.

Definition changedFiles (old cur : gmap string string) : list string :=
  (filter (λ kv, isChanged old kv) (map_to_list cur)).*1.

Definition deletedFiles (old cur : gmap string string) : list string :=
  (filter (λ kv, isNew cur kv) (map_to_list old)).*1.

(** The fourth class the specification names; the program does not
    compute it: present before and now with the same fingerprint. *)
Definition unchangedFiles (old cur : gmap string string) : list string :=
  (filter (λ kv, bool_decide (old !! kv.1 = Some kv.2)) (map_to_list cur)).*1.

(** ** Configuration and the file walk *)

Record Config := mkConfig {
  Extensions : list string;
  IgnorePatterns : list string
}.

Definition defaultConfig : Config :=
  mkConfig
    [".txt"; ".md"; ".csv"; ".log"; ".py"; ".js"; ".sh"; ".html"; ".css"; ".c";
     ".java"; ".json"; ".yaml"; ".yml"; ".ini"; ".toml"; ".xml"; ".rtf"; ".go"]
    ["*.tmp"; "*.bak"].

(** The file [config.json]. *)
Inductive ConfigFile :=
  | CMissing
  | CCorrupt
  | CParsed (c : Config).

Definition loadConfig (f : ConfigFile) : Config :=
  match f with
  | CParsed c => match Extensions c with [] => defaultConfig | _ => c end
  | _ => defaultConfig
  end.

Definition hasAnySuffix (name : string) (exts : list string) : bool :=
  existsb (λ e, HasSuffix (ToLower name) (ToLower e)) exts.

Definition gitnotName : string := ".gitnot".

(** [filepath.ToSlash] is the identity where the separator is a slash. *)
Definition isUnderGitnot (p : string) : bool := HasPrefix p gitnotName.

(** ** Stand-ins for the two library functions, to run examples *)

(** A matcher for patterns made of literal bytes, [*] (any run of bytes
    other than a slash) and [?] (one byte other than a slash); on such
    patterns and ASCII names it is what [path.Match] computes. *)
Fixpoint globMatch (pat name : string) : bool :=
  match pat with
  | EmptyString => bool_decide (name = "")
  | String "*" pat' =>
      (fix star (n : string) : bool :=
         globMatch pat' n ||
         match n with
         | String c n' => negb (bool_decide (c = "/"%char)) && star n'
         | EmptyString => false
         end) name
  | String "?" pat' =>
      match name with
      | String c n' => negb (bool_decide (c = "/"%char)) && globMatch pat' n'
      | EmptyString => false
      end
  | String a pat' =>
      match name with
      | String c n' => bool_decide (a = c) && globMatch pat' n'
      | EmptyString => false
      end
  end.

(** The lines of a text, without their terminators. *)
Definition splitLines (s : string) : list string :=
  match reverse (Split s (Ascii.ascii_of_nat 10)) with
  | EmptyString :: rest => reverse rest
  | l => reverse l
  end.

(** The range of a hunk that covers a whole file of [n] lines. *)
Definition wholeRange (n : nat) : string :=
  match n with
  | O => "0,0"
  | S O => "1"
  | _ => "1," +:+ Itoa (Z.of_nat n)
  end.

(** A differ that rewrites the whole file in one hunk: every old line
    removed, every new line added, and no text at all for equal files.
    Its output is a unified diff of the two texts, though not the
    shortest one that [difflib] finds. *)
Definition wholeFileDiff (old new : string) : string :=
  if bool_decide (old = new) then ""
  else
    let a := splitLines old in
    let b := splitLines new in
    "--- before" +:+ nl +:+ "+++ after" +:+ nl +:+
    "@@ -" +:+ wholeRange (length a) +:+ " +" +:+ wholeRange (length b) +:+ " @@" +:+ nl +:+
    foldr (λ l acc, "-" +:+ l +:+ nl +:+ acc) "" a +:+
    foldr (λ l acc, "+" +:+ l +:+ nl +:+ acc) "" b.

(** The unified diff of the files [-- x / keep] and [keep]: the line
    [-- x] is removed. *)
Definition dashedDiff : string :=
  "--- before" +:+ nl +:+ "+++ after" +:+ nl +:+ "@@ -1,2 +1 @@" +:+ nl +:+
  "--- x" +:+ nl +:+ " keep" +:+ nl.

(** The same with the line [x] in place of [-- x]. *)
Definition plainDiff : string :=
  "--- before" +:+ nl +:+ "+++ after" +:+ nl +:+ "@@ -1,2 +1 @@" +:+ nl +:+
  "-x" +:+ nl +:+ " keep" +:+ nl.

Section Gitnot.

(** [path.Match pattern name], [false] also when the pattern is
    malformed: the program drops the error. *)
Variable pathMatch : string → string → bool.

(** [difflib.GetUnifiedDiffString] on the lines of the old and of the new
    content, with three lines of context and the file names [before] and
    [after]. *)
Variable unifiedDiffString : string → string → string.

Definition ignoredBy (p pat : string) : bool :=
  if HasSuffix pat "/*" then
    let d := TrimSuffix pat "/*" in
    (* the regular expression [/d(/|$)] on ["/" + p] *)
    Contains p ("/" +:+ d +:+ "/") || HasPrefix p (d +:+ "/") ||
    Contains ("/" +:+ p) ("/" +:+ d +:+ "/") || HasSuffix ("/" +:+ p) ("/" +:+ d)
  else if ContainsGlobMeta pat then
    pathMatch pat (Base p) || pathMatch pat p
  else bool_decide (Base p = pat).

Definition shouldIgnore (p : string) (patterns : list string) : bool :=
  existsb (ignoredBy p) patterns.

(** The callback of [filepath.WalkDir] at the path [p], and the descent
    into a directory that it does not skip. *)
Fixpoint walk (cfg : Config) (p : string) (e : entry) : list string :=
  match e with
  | File name _ =>
      if hasAnySuffix name (Extensions cfg) && negb (shouldIgnore p (IgnorePatterns cfg))
      then [p] else []
  | Dir _ kids =>
      if isUnderGitnot p then []   (* filepath.SkipDir *)
      else concat (map (λ k, walk cfg (joinPath p (entryName k)) k) kids)
  end.

(** [sort.Strings]. *)
Definition sortStrings (l : list string) : list string := merge_sort String.le l.

(** [getAllTextFiles(".")] on the directory whose entries are [root]. *)
Definition getAllTextFiles (cfg : Config) (root : list entry) : list string :=
  sortStrings (walk cfg "." (Dir "." root)).

(** ** The state on disk *)

(** The working directory and the state directory [.gitnot/].  The three
    stores are keyed by the tracked relative path: [snapshot !! rel] is
    the file [.gitnot/snapshot/rel], [changelogs !! rel] the file
    [.gitnot/changelogs/rel.log], [deleted !! rel] the file
    [.gitnot/deleted/rel].  [tempDir] is the directory that
    [ioutil.TempDir] made, while it exists. *)
Record Store := mkStore {
  gitnotDir : bool;
  configFile : ConfigFile;
  workDir : list entry;
  hashesFile : option (gmap string string);   (* [None]: missing or not JSON *)
  versionFile : VersionFile;
  changelogs : gmap string string;
  snapshot : option (gmap string string);     (* [None]: no such directory *)
  deleted : gmap string string;
  tempDir : option (gmap string string)
}.

Inductive StateDir := SnapshotDir | ChangelogDir | DeletedDir.

(** The lines the program prints. *)
Inductive Msg :=
  | MsgNoChanges                 (* No changes detected *)
  | MsgWarnTempDir               (* Warning: Could not create temp directory *)
  | MsgWarnRemoveOld             (* Warning: Could not remove old snapshot *)
  | MsgWarnMoveNew               (* Warning: Could not move new snapshot *)
  | MsgWarnSnapshot              (* Warning: Could not update snapshot *)
  | MsgSnapshotMissing           (* Snapshot folder missing. Please reinitialize *)
  | MsgBumped (v : string)       (* Version bumped -> v *)
  | MsgTracked (n : nat)         (* n files tracked *)
  | MsgInitialized               (* Initialized gitnot at version 0.0 *)
  | MsgTracking (n : nat).       (* Tracking n files *)

(** What a run does to the disk and the terminal.  An operation that
    fails leaves no effect, except [os.RemoveAll], which may have removed
    part of the tree before it failed. *)
Inductive Effect :=
  | Print (m : Msg)
  | WriteVersion (v : float)                 (* writeVersion(v) *)
  | AppendLog (rel text : string)            (* appendToFile(changelogs/rel.log, text) *)
  | PutDeleted (rel content : string)        (* copyFile(snapshot/rel, deleted/rel) *)
  | RemoveFromSnapshot (rel : string)        (* os.Remove(snapshot/rel) *)
  | MakeTemp                                 (* ioutil.TempDir *)
  | PutTemp (rel content : string)           (* copyFile(rel, temp/rel) *)
  | RemoveTemp                               (* os.RemoveAll(tempDir) *)
  | RemoveSnapshot (kept : option (gset string))
      (* os.RemoveAll(snapshotDir): all of it, or failing with the files [kept] left *)
  | RenameTemp                               (* os.Rename(tempDir, snapshotDir) *)
  | WriteHashes (m : gmap string string)     (* saveJSON(hashesFile, m) *)
  | MakeDir (d : StateDir)                   (* os.MkdirAll *)
  | WriteConfig (c : Config)                 (* saveJSON(configFile, c) *)
  | PutSnapshot (rel content : string).      (* copyFile(rel, snapshot/rel) *)

#[global] Instance Msg_eq_dec : EqDecision Msg.
Proof. solve_decision. Defined.

(** Whether the line [m] is among the effects [es]. *)
Definition printed (m : Msg) (es : list Effect) : bool :=
  existsb (λ e, match e with Print m' => bool_decide (m' = m) | _ => false end) es.

Definition setGitnotDir (s : Store) : Store :=
  mkStore true (configFile s) (workDir s) (hashesFile s) (versionFile s)
          (changelogs s) (snapshot s) (deleted s) (tempDir s).

Definition setVersion (v : VersionFile) (s : Store) : Store :=
  mkStore true (configFile s) (workDir s) (hashesFile s) v
          (changelogs s) (snapshot s) (deleted s) (tempDir s).

Definition setChangelogs (c : gmap string string) (s : Store) : Store :=
  mkStore true (configFile s) (workDir s) (hashesFile s) (versionFile s)
          c (snapshot s) (deleted s) (tempDir s).

Definition setDeleted (d : gmap string string) (s : Store) : Store :=
  mkStore true (configFile s) (workDir s) (hashesFile s) (versionFile s)
          (changelogs s) (snapshot s) d (tempDir s).

Definition setSnapshot (sn : option (gmap string string)) (s : Store) : Store :=
  mkStore (gitnotDir s) (configFile s) (workDir s) (hashesFile s) (versionFile s)
          (changelogs s) sn (deleted s) (tempDir s).

Definition setTemp (t : option (gmap string string)) (s : Store) : Store :=
  mkStore (gitnotDir s) (configFile s) (workDir s) (hashesFile s) (versionFile s)
          (changelogs s) (snapshot s) (deleted s) t.

Definition setHashes (m : gmap string string) (s : Store) : Store :=
  mkStore true (configFile s) (workDir s) (Some m) (versionFile s)
          (changelogs s) (snapshot s) (deleted s) (tempDir s).

Definition setConfig (c : Config) (s : Store) : Store :=
  mkStore true (CParsed c) (workDir s) (hashesFile s) (versionFile s)
          (changelogs s) (snapshot s) (deleted s) (tempDir s).

Definition exec (e : Effect) (s : Store) : Store :=
  match e with
  | Print _ => s
  | WriteVersion v => setVersion (VNumber (reparse v)) s
  | AppendLog rel text =>
      setChangelogs (<[rel := default "" (changelogs s !! rel) +:+ text]> (changelogs s)) s
  | PutDeleted rel c => setDeleted (<[rel := c]> (deleted s)) s
  | RemoveFromSnapshot rel => setSnapshot (delete rel <$> snapshot s) s
  | MakeTemp => setTemp (Some ∅) s
  | PutTemp rel c => setTemp (Some (<[rel := c]> (default ∅ (tempDir s)))) s
  | RemoveTemp => setTemp None s
  | RemoveSnapshot None => setSnapshot None s
  | RemoveSnapshot (Some kept) =>
      setSnapshot (filter (λ kv, kv.1 ∈ kept) <$> snapshot s) s
  | RenameTemp => setTemp None (setSnapshot (tempDir s) s)
  | WriteHashes m => setHashes m s
  | MakeDir SnapshotDir => setGitnotDir (setSnapshot (Some (default ∅ (snapshot s))) s)
  | MakeDir _ => setGitnotDir s
  | WriteConfig c => setConfig c s
  | PutSnapshot rel c =>
      setGitnotDir (setSnapshot (Some (<[rel := c]> (default ∅ (snapshot s)))) s)
  end.

(** The store after the effects [es], in order. *)
Definition run (es : list Effect) (s : Store) : Store :=
  foldl (λ st e, exec e st) s es.

(** The operations that can fail for a reason the store does not show
    (permissions, a full disk, a rename across devices). *)
Record Faults := mkFaults {
  failLoadHashes : bool;
  failReadVersion : bool;
  failWriteVersion : bool;
  failAppend : string → bool;
  failCopyDeleted : string → bool;
  failRemove : string → bool;
  failTempDir : bool;
  failTempMkdir : string → bool;
  failTempCopy : string → bool;
  failRemoveAll : option (gset string);
  failRename : bool;
  failSaveHashes : bool;
  failMkdirAll : StateDir → bool;
  failSaveConfig : bool;
  failSnapMkdir : string → bool;
  failSnapCopy : string → bool
}.

Definition noFaults : Faults :=
  mkFaults false false false (λ _, false) (λ _, false) (λ _, false) false
           (λ _, false) (λ _, false) None false false (λ _, false) false
           (λ _, false) (λ _, false).

Inductive Error :=
  | ErrNotInitialized
  | ErrReadVersion
  | ErrWriteVersion
  | ErrSaveHashes
  | ErrMkdirAll
  | ErrSaveConfig
  | ErrSnapMkdir.

(** A program reads the store it is started in and returns a value and
    the effects it performed; what it reads later is the store after its
    earlier effects. *)
Definition Prog (A : Type) : Type := Store → A * list Effect.

Definition ret {A} (a : A) : Prog A := λ _, (a, []).

Definition bind {A B} (m : Prog A) (k : A → Prog B) : Prog B :=
  λ s, let r := m s in
       let r' := k r.1 (run r.2 s) in
       (r'.1, r.2 ++ r'.2).

Definition perform (e : Effect) : Prog unit := λ _, (tt, [e]).

Definition look : Prog Store := λ s, (s, []).

Notation "x <- m ;; k" := (bind m (λ x, k))
  (at level 100, m at next level, right associativity, only parsing).
Notation "m ;; k" := (bind m (λ _, k))
  (at level 100, right associativity, only parsing).

Fixpoint forEach {A} (l : list A) (body : A → Prog unit) : Prog unit :=
  match l with
  | [] => ret tt
  | x :: rest => body x ;; forEach rest body
  end.

(** The effects and the value of a program started in [s]. *)
Definition effects {A} (p : Prog A) (s : Store) : list Effect := (p s).2.
Definition result {A} (p : Prog A) (s : Store) : A := (p s).1.

Definition writesHashes (e : Effect) : bool :=
  match e with WriteHashes _ => true | _ => false end.

Definition writesVersion (e : Effect) : bool :=
  match e with WriteVersion _ => true | _ => false end.

Definition writesConfig (e : Effect) : bool :=
  match e with WriteConfig _ => true | _ => false end.

Definition writesLog (rel : string) (e : Effect) : bool :=
  match e with AppendLog r _ => bool_decide (r = rel) | _ => false end.

Definition touchesSnapshot (e : Effect) : bool :=
  match e with
  | RemoveFromSnapshot _ | RemoveSnapshot _ | RenameTemp
  | MakeDir SnapshotDir | PutSnapshot _ _ => true
  | _ => false
  end.

(** ** The version file *)

Definition readVersion (ft : Faults) (s : Store) : Error + float :=
  match versionFile s with
  | VMissing => inr 0%float                       (* os.ErrNotExist *)
  | VJunk => if failReadVersion ft then inl ErrReadVersion else inr 0%float
  | VNumber v => if failReadVersion ft then inl ErrReadVersion else inr v
  end.

Definition writeVersion (ft : Faults) (v : float) : Prog (option Error) :=
  if failWriteVersion ft then ret (Some ErrWriteVersion)
  else perform (WriteVersion v) ;; ret None.

Definition bumpVersion (ft : Faults) : Prog (Error + float) :=
  s <- look ;;
  match readVersion ft s with
  | inl e => ret (inl e)
  | inr v =>
      let v' := bumped v in
      e <- writeVersion ft v' ;;
      match e with
      | Some e => ret (inl e)
      | None => ret (inr v')
      end
  end.

(** ** The changelogs *)

(** [_ = appendToFile(clPath, text)] for the changelog of [rel]: the
    error is dropped. *)
Definition appendToFile (ft : Faults) (rel text : string) : Prog unit :=
  if failAppend ft rel then ret tt else perform (AppendLog rel text).

(** ["\n## v%.1f – %s\n"] *)
Definition entryHead (ver : float) (ts : string) : string :=
  nl +:+ "## v" +:+ fmt1 ver +:+ " – " +:+ ts +:+ nl.

Definition logNew (ft : Faults) (ver : float) (ts rel : string) : Prog unit :=
  appendToFile ft rel (entryHead ver ts +:+ "📄 New file added." +:+ nl).

(** [unifiedDiff(oldP, newP)]: either file that cannot be read counts as
    empty. *)
Definition unifiedDiff (s : Store) (rel : string) : string :=
  unifiedDiffString (default "" (snapshot s ≫= (.!! rel)))
                    (default "" (openFile (workDir s) rel)).

Definition logChanged (ft : Faults) (ver : float) (ts rel : string) : Prog unit :=
  s <- look ;;
  match snapshot s ≫= (.!! rel) with
  | Some _ =>
      let diffText := unifiedDiff s rel in
      if bool_decide (diffText ≠ "")
      then appendToFile ft rel (entryHead ver ts +:+ formatDiffAsMarkdown diffText)
      else appendToFile ft rel (entryHead ver ts +:+ noReadableDiff)
  | None =>
      appendToFile ft rel
        (entryHead ver ts +:+ "📄 File changed (encoding issues, diff skipped)" +:+ nl)
  end.

Definition logDeleted (ft : Faults) (ver : float) (ts rel : string) : Prog unit :=
  appendToFile ft rel (entryHead ver ts +:+ "🔻 File was deleted." +:+ nl) ;;
  s <- look ;;
  match snapshot s ≫= (.!! rel) with
  | Some c =>
      (if failCopyDeleted ft rel then ret tt else perform (PutDeleted rel c)) ;;
      (if failRemove ft rel then ret tt else perform (RemoveFromSnapshot rel))
  | None => ret tt
  end.

(** ** The snapshot rebuild *)

(** The loop [for _, file := range files] that fills the temporary
    directory; the result is [allOk]. *)
Fixpoint copyAll (ft : Faults) (files : list string) : Prog bool :=
  match files with
  | [] => ret true
  | file :: rest =>
      if failTempMkdir ft file then ret false
      else
        s <- look ;;
        match openFile (workDir s) file with
        | None => ret false
        | Some c =>
            if failTempCopy ft file then ret false
            else perform (PutTemp file c) ;; copyAll ft rest
        end
  end.

(** The branch of [updateGitnot] taken when [os.Stat(snapshotDir)]
    succeeds. *)
Definition rebuildSnapshot (ft : Faults) (files : list string) : Prog unit :=
  if failTempDir ft then perform (Print MsgWarnTempDir)
  else
    perform MakeTemp ;;
    allOk <- copyAll ft files ;;
    if allOk : bool then
      match failRemoveAll ft with
      | Some kept =>
          perform (RemoveSnapshot (Some kept)) ;; perform (Print MsgWarnRemoveOld)
      | None =>
          perform (RemoveSnapshot None) ;;
          if failRename ft then perform (Print MsgWarnMoveNew)
          else perform RenameTemp
      end
    else
      perform (Print MsgWarnSnapshot) ;; perform RemoveTemp.

(** Whether the copy of [f] into the temporary directory succeeds. *)
Definition copyOk (ft : Faults) (root : list entry) (f : string) : bool :=
  negb (failTempMkdir ft f) &&
  bool_decide (is_Some (openFile root f)) &&
  negb (failTempCopy ft f).

(** The content of a full copy of the files [files] of the working
    directory. *)
Definition mirror (root : list entry) (files : list string) : gmap string string :=
  foldl (λ m f, <[f := default "" (openFile root f)]> m) ∅ files.

Definition isLogEffect (e : Effect) : bool :=
  match e with
  | AppendLog _ _ | PutDeleted _ _ | RemoveFromSnapshot _ => true
  | _ => false
  end.

Definition isRebuildEffect (e : Effect) : bool :=
  match e with
  | Print MsgWarnTempDir | Print MsgWarnRemoveOld | Print MsgWarnMoveNew
  | Print MsgWarnSnapshot
  | MakeTemp | PutTemp _ _ | RemoveTemp | RemoveSnapshot _ | RenameTemp => true
  | _ => false
  end.

(** [emits Q p]: every effect of [p], wherever it is started, is a [Q]. *)
Definition emits {A} (Q : Effect → Prop) (p : Prog A) : Prop :=
  ∀ s, Forall Q (effects p s).

(** ** [updateGitnot] *)

Definition loadHashes (ft : Faults) (s : Store) : gmap string string :=
  if failLoadHashes ft then ∅ else default ∅ (hashesFile s).

Definition trackedFiles (s : Store) : list string :=
  getAllTextFiles (loadConfig (configFile s)) (workDir s).

(** The three loops over the new, the changed and the deleted files. *)
Definition logAll (ft : Faults) (ver : float) (ts : string)
    (new changed gone : list string) : Prog unit :=
  forEach new (logNew ft ver ts) ;;
  forEach changed (logChanged ft ver ts) ;;
  forEach gone (logDeleted ft ver ts).

(** [// save hashes] and the two closing lines of output. *)
Definition saveAndReport (ft : Faults) (current : gmap string string)
    (ver : float) (files : list string) : Prog (option Error) :=
  if failSaveHashes ft then ret (Some ErrSaveHashes)
  else
    perform (WriteHashes current) ;;
    perform (Print (MsgBumped (fmt1 ver))) ;;
    perform (Print (MsgTracked (length files))) ;;
    ret None.

Definition updateGitnot (ft : Faults) (ts : string) : Prog (option Error) :=
  s <- look ;;
  if negb (gitnotDir s) then ret (Some ErrNotInitialized)
  else
    let oldHashes := loadHashes ft s in
    let files := trackedFiles s in
    let current := currentHashes (workDir s) files in
    let new := newFiles oldHashes current in
    let changed := changedFiles oldHashes current in
    let gone := deletedFiles oldHashes current in
    if (length new + length changed + length gone =? 0)%nat
    then perform (Print MsgNoChanges) ;; ret None
    else
      r <- bumpVersion ft ;;
      match r with
      | inl e => ret (Some e)
      | inr ver =>
          logAll ft ver ts new changed gone ;;
          s' <- look ;;
          match snapshot s' with   (* os.Stat(snapshotDir) *)
          | None => perform (Print MsgSnapshotMissing) ;; ret None
          | Some _ =>
              rebuildSnapshot ft files ;;
              saveAndReport ft current ver files
          end
      end.

(** The fingerprints of the tracked files of [s], and whether
    [updateGitnot] finds a new, a changed or a deleted file in [s]. *)
Definition currentOf (s : Store) : gmap string string :=
  currentHashes (workDir s) (trackedFiles s).

Definition detects (ft : Faults) (s : Store) : bool :=
  negb (length (newFiles (loadHashes ft s) (currentOf s)) +
        length (changedFiles (loadHashes ft s) (currentOf s)) +
        length (deletedFiles (loadHashes ft s) (currentOf s)) =? 0)%nat.

(** What [updateGitnot] does once the version is bumped to [ver]. *)
Definition afterBump (ft : Faults) (ts : string) (s : Store) (ver : float)
  : Prog (option Error) :=
  logAll ft ver ts (newFiles (loadHashes ft s) (currentOf s))
         (changedFiles (loadHashes ft s) (currentOf s))
         (deletedFiles (loadHashes ft s) (currentOf s)) ;;
  s' <- look ;;
  match snapshot s' with
  | None => perform (Print MsgSnapshotMissing) ;; ret None
  | Some _ =>
      rebuildSnapshot ft (trackedFiles s) ;;
      saveAndReport ft (currentOf s) ver (trackedFiles s)
  end.

(** The three lines that end a completed run. *)
Definition closing (s : Store) (ver : float) : list Effect :=
  [WriteHashes (currentOf s); Print (MsgBumped (fmt1 ver));
   Print (MsgTracked (length (trackedFiles s)))].

(** Whether [bumpVersion] gets through: the version file can be read
    and written. *)
Definition bumpOk (ft : Faults) (s : Store) : bool :=
  match readVersion ft s with
  | inr _ => negb (failWriteVersion ft)
  | inl _ => false
  end.


(** What [readVersion] returns when it returns a version. *)
Definition versionOf (s : Store) : float :=
  match versionFile s with
  | VNumber v => v
  | _ => 0%float
  end.



(** ** [initGitnot] *)

(** Whether the copy of [f] into the snapshot succeeds. *)
Definition snapOk (ft : Faults) (root : list entry) (f : string) : bool :=
  negb (failSnapCopy ft f) && bool_decide (is_Some (openFile root f)).

Fixpoint makeDirs (ft : Faults) (ds : list StateDir) : Prog (option Error) :=
  match ds with
  | [] => ret None
  | d :: rest =>
      if failMkdirAll ft d then ret (Some ErrMkdirAll)
      else perform (MakeDir d) ;; makeDirs ft rest
  end.

(** The loop [for _, f := range files] of [initGitnot]; a file whose copy
    fails is passed over by [continue]. *)
Fixpoint initFiles (ft : Faults) (files : list string) (hashes : gmap string string)
  : Prog (Error + gmap string string) :=
  match files with
  | [] => ret (inr hashes)
  | f :: rest =>
      if failSnapMkdir ft f then ret (inl ErrSnapMkdir)
      else
        s <- look ;;
        match (if failSnapCopy ft f then None else openFile (workDir s) f) with
        | None => initFiles ft rest hashes
        | Some c =>
            perform (PutSnapshot f c) ;;
            appendToFile ft f ("# " +:+ f +:+ " — original v0.0" +:+ nl) ;;
            initFiles ft rest (<[f := hashFile (workDir s) f]> hashes)
        end
  end.

(** The fingerprints [initFiles] collects: those of the files whose copy
    into the snapshot succeeds. *)
Definition initHashes (ft : Faults) (root : list entry) (files : list string)
    (hashes : gmap string string) : gmap string string :=
  foldl (λ m f, if snapOk ft root f then <[f := hashFile root f]> m else m) hashes files.

(** The effects of [initFiles] concern files whose copy succeeds. *)
Definition initEffectFor (ft : Faults) (root : list entry) (e : Effect) : bool :=
  match e with
  | PutSnapshot f _ | AppendLog f _ => snapOk ft root f
  | _ => false
  end.

(** [// Save default config if missing] *)
Definition ensureConfig (ft : Faults) : Prog (option Error) :=
  s <- look ;;
  match configFile s with
  | CMissing =>
      if failSaveConfig ft then ret (Some ErrSaveConfig)
      else perform (WriteConfig defaultConfig) ;; ret None
  | _ => ret None
  end.

(** [initGitnot] from [files, err := getAllTextFiles(".")] on. *)
Definition initTracked (ft : Faults) : Prog (option Error) :=
  s <- look ;;
  r <- initFiles ft (trackedFiles s) ∅ ;;
  match r with
  | inl e => ret (Some e)
  | inr hashes =>
      if failSaveHashes ft then ret (Some ErrSaveHashes)
      else
        perform (WriteHashes hashes) ;;
        e <- writeVersion ft 0%float ;;
        match e with
        | Some e => ret (Some e)
        | None =>
            perform (Print MsgInitialized) ;;
            perform (Print (MsgTracking (size hashes))) ;;
            ret None
        end
  end.

Definition initGitnot (ft : Faults) : Prog (option Error) :=
  e <- makeDirs ft [SnapshotDir; ChangelogDir; DeletedDir] ;;
  match e with
  | Some e => ret (Some e)
  | None =>
      e <- ensureConfig ft ;;
      match e with
      | Some e => ret (Some e)
      | None => initTracked ft
      end
  end.

(** ** Sample states *)

Definition treeA : list entry := [File "a.txt" (Readable "x")].

(** One readable and one unreadable tracked file, and a directory whose
    name begins like the state directory's. *)
Definition treeU : list entry :=
  [File "a.txt" (Readable "x"); File "b.txt" Unreadable;
   Dir ".gitnothing" [File "notes.md" (Readable "n")]].

Definition storeFresh (root : list entry) : Store :=
  mkStore false CMissing root None VMissing ∅ None ∅ None.

(** The state directory after [gitnot --init] in a directory that holds
    [a.txt] with the content [x]; the working directory is [root]. *)
Definition storeA (root : list entry) : Store :=
  mkStore true (CParsed defaultConfig) root
          (Some {[ "a.txt" := hashFile treeA "a.txt" ]})
          (VNumber 0)
          {[ "a.txt" := "# a.txt — original v0.0" +:+ nl ]}
          (Some {[ "a.txt" := "x" ]}) ∅ None.

Definition treeY : list entry := [File "a.txt" (Readable "y")].

Definition failingRename : Faults :=
  mkFaults false false false (λ _, false) (λ _, false) (λ _, false) false
           (λ _, false) (λ _, false) None true false (λ _, false) false
           (λ _, false) (λ _, false).

Definition failingVersionWrite : Faults :=
  mkFaults false false true (λ _, false) (λ _, false) (λ _, false) false
           (λ _, false) (λ _, false) None false false (λ _, false) false
           (λ _, false) (λ _, false).



(** ** Further operations: [showStatus], [showVersion], [preview] *)

(** The lines [showStatus] and [showVersion] print. *)
Inductive Line :=
  | LineNoChanges                          (* No changes detected *)
  | LineNew (n : nat) (names : string)     (* New files (n): names *)
  | LineModified (n : nat) (names : string)  (* Modified (n): names *)
  | LineDeleted (n : nat) (names : string) (* Deleted (n): names *)
  | LineMore (k : nat)                     (* ... and k more *)
  | LineVersion (v : string)               (* Current version: v *)
  | LineLoadWarning                        (* Could not load tracked files *)
  | LineNoTracked                          (* No files are currently being tracked *)
  | LineTrackedCount (n : nat)             (* Tracked files (n): *)
  | LineFile (name : string).              (* one tracked file *)

(** [preview(ss, n)]: [ss] itself when it is short, else [ss[:n]]. *)
Definition preview (ss : list string) (n : nat) : list string :=
  if (length ss <=? n)%nat then ss else take n ss.

(** [strings.Join(ss, sep)]. *)
Fixpoint Join (ss : list string) (sep : string) : string :=
  match ss with
  | [] => ""
  | [x] => x
  | x :: rest => x +:+ sep +:+ Join rest sep
  end.

(** The lines of [showStatus] for one class of files. *)
Definition statusLines (mk : nat → string → Line) (fs : list string) : list Line :=
  match fs with
  | [] => []
  | _ =>
      mk (length fs) (Join (preview fs 3) ", ") ::
      (if (3 <? length fs)%nat then [LineMore (length fs - 3)] else [])
  end.

(** The map [showStatus] compares with: it drops the error of
    [loadJSON], so when [json.Unmarshal] rejects [hashes.json] the
    entries decoded before the error stay in the map.  [leftover] holds
    them; it is empty when the file is missing or is not JSON at all.
    A file that cannot be read leaves the map empty. *)
Definition laxHashes (ft : Faults) (leftover : gmap string string) (s : Store)
  : gmap string string :=
  if failLoadHashes ft then ∅
  else match hashesFile s with
       | Some m => m
       | None => leftover
       end.

(** [showStatus]: it writes nothing, so its run is the error it returns
    and the lines it prints.  It words the error of a missing state
    directory differently from [updateGitnot]; [ErrNotInitialized]
    stands for both. *)
Definition showStatus (ft : Faults) (leftover : gmap string string) (s : Store)
  : option Error * list Line :=
  if negb (gitnotDir s) then (Some ErrNotInitialized, [])
  else
    let oldHashes := laxHashes ft leftover s in
    let current := currentOf s in
    let new := newFiles oldHashes current in
    let changed := changedFiles oldHashes current in
    let gone := deletedFiles oldHashes current in
    if (length new + length changed + length gone =? 0)%nat
    then (None, [LineNoChanges])
    else (None, statusLines LineNew new ++ statusLines LineModified changed ++
                statusLines LineDeleted gone).

(** [showVersion]. *)
Definition showVersion (ft : Faults) (s : Store) : option Error * list Line :=
  match readVersion ft s with
  | inl e => (Some e, [])
  | inr v =>
      (None,
       LineVersion (fmt1 v) ::
       match (if failLoadHashes ft then None else hashesFile s) with
       | None => [LineLoadWarning]
       | Some hashes =>
           if (size hashes =? 0)%nat then [LineNoTracked]
           else LineTrackedCount (size hashes) ::
                (LineFile <$> sortStrings (map_to_list hashes).*1)
       end)
  end.

(** ** Bookkeeping for the properties of the update *)

(** The texts that the effects [es] append to the changelog of [rel], in
    order. *)
Fixpoint appended (rel : string) (es : list Effect) : list string :=
  match es with
  | [] => []
  | AppendLog r text :: rest =>
      if bool_decide (r = rel) then text :: appended rel rest else appended rel rest
  | _ :: rest => appended rel rest
  end.

(** The body of the changelog entry of a changed file, from the store
    the run starts in. *)
Definition changedBody (s : Store) (rel : string) : string :=
  match snapshot s ≫= (.!! rel) with
  | Some _ =>
      if bool_decide (unifiedDiff s rel ≠ "") then formatDiffAsMarkdown (unifiedDiff s rel)
      else noReadableDiff
  | None => "📄 File changed (encoding issues, diff skipped)" +:+ nl
  end.

(** The body of the entry that an update appends for [rel], if any. *)
Definition entryBody (ft : Faults) (s : Store) (rel : string) : option string :=
  let old := loadHashes ft s in
  let cur := currentOf s in
  if bool_decide (rel ∈ newFiles old cur) then Some ("📄 New file added." +:+ nl)
  else if bool_decide (rel ∈ changedFiles old cur) then Some (changedBody s rel)
  else if bool_decide (rel ∈ deletedFiles old cur) then Some ("🔻 File was deleted." +:+ nl)
  else None.

Definition putsDeleted (e : Effect) : bool :=
  match e with PutDeleted _ _ => true | _ => false end.

(** [e] is the rendering of a line of [lines] that begins with the sign
    [sign] and not with three of them. *)
Definition rendersLine (sign : string) (lines : list string) (e : string) : Prop :=
  ∃ k line, line ∈ lines ∧ HasPrefix line sign = true ∧
            HasPrefix line (sign +:+ sign +:+ sign) = false ∧ e = annotate k line.


(** The first line of the changelog of a file: ["# %s — original v0.0\n"]. *)
Definition originalLine (rel : string) : string :=
  "# " +:+ rel +:+ " — original v0.0" +:+ nl.

(** The two forms of a range in a hunk header: the start alone, or the
    start and the length. *)
Definition rangeText (start : Z) (len : option Z) : string :=
  match len with
  | None => Itoa start
  | Some l => Itoa start +:+ "," +:+ Itoa l
  end.

(** The header [@@ -a,b +c,d @@] of a hunk. *)
Definition hunkLine (a : Z) (la : option Z) (c : Z) (lc : option Z) : string :=
  "@@ -" +:+ rangeText a la +:+ " +" +:+ rangeText c lc +:+ " @@".

Definition isDigit (c : ascii) : bool :=
  match digitOf c with Some _ => true | None => false end.

Fixpoint digitsOnly (s : string) : bool :=
  match s with
  | EmptyString => true
  | String c r => isDigit c && digitsOnly r
  end.

Fixpoint noSpace (s : string) : bool :=
  match s with
  | EmptyString => true
  | String c r => negb (isSpace c) && noSpace r
  end.

Fixpoint noSlash (s : string) : bool :=
  match s with
  | EmptyString => true
  | String c r => negb (bool_decide (c = "/"%char)) && noSlash r
  end.

(** ** Further sample states *)

(** The state directory of [storeA] without its snapshot directory. *)
Definition storeNoSnapshot : Store :=
  mkStore true (CParsed defaultConfig) treeY
          (Some {[ "a.txt" := hashFile treeA "a.txt" ]})
          (VNumber 0) ∅ None ∅ None.

(** A configuration that ignores a directory and a file name. *)
Definition cfgIgnore : Config := mkConfig [".txt"] ["build/*"; "secret.txt"].

Definition treeBuild : list entry :=
  [Dir "build" [File "out.txt" (Readable "o")];
   Dir "docs" [File "secret.txt" (Readable "s"); File "a.txt" (Readable "x")]].

Definition failingSaveHashes : Faults :=
  mkFaults false false false (λ _, false) (λ _, false) (λ _, false) false
           (λ _, false) (λ _, false) None false true (λ _, false) false
           (λ _, false) (λ _, false).

(** The state directory of [storeA] with a fingerprint file that does
    not decode. *)
Definition storeLostHashes : Store :=
  mkStore true (CParsed defaultConfig) treeA None (VNumber 0)
          {[ "a.txt" := "# a.txt — original v0.0" +:+ nl ]}
          (Some {[ "a.txt" := "x" ]}) ∅ None.

(* ===================================================================== *)
(** * Part II.  Properties                                               *)
(* ===================================================================== *)

(** ** Change detection is a partition *)

Section Classification.

Context (old cur : gmap string string).

Lemma elem_of_newFiles p :
  p ∈ newFiles old cur ↔ is_Some (cur !! p) ∧ old !! p = None.
Proof.
  unfold newFiles. rewrite list_elem_of_fmap. split.
  - intros [[k h] [-> [Hn Hin]%list_elem_of_filter]].
    apply elem_of_map_to_list in Hin. unfold isNew in Hn. simpl in *.
    apply bool_decide_unpack in Hn. eauto.
  - intros [[h Hh] Ho]. exists (p, h). split; [done|].
    apply list_elem_of_filter. split.
    + unfold isNew. simpl. by apply bool_decide_pack.
    + by apply elem_of_map_to_list.
Qed.

Lemma elem_of_changedFiles p :
  p ∈ changedFiles old cur ↔
  ∃ h oh, cur !! p = Some h ∧ old !! p = Some oh ∧ oh ≠ h.
Proof.
  unfold changedFiles. rewrite list_elem_of_fmap. split.
  - intros [[k h] [-> [Hc Hin]%list_elem_of_filter]].
    apply elem_of_map_to_list in Hin. unfold isChanged in Hc. simpl in *.
    destruct (old !! k) as [oh|] eqn:Ho; [|done].
    apply bool_decide_unpack in Hc. eauto.
  - intros (h & oh & Hh & Ho & Hne). exists (p, h). split; [done|].
    apply list_elem_of_filter. split.
    + unfold isChanged. simpl. rewrite Ho. by apply bool_decide_pack.
    + by apply elem_of_map_to_list.
Qed.

Lemma elem_of_deletedFiles p :
  p ∈ deletedFiles old cur ↔ is_Some (old !! p) ∧ cur !! p = None.
Proof.
  unfold deletedFiles. rewrite list_elem_of_fmap. split.
  - intros [[k h] [-> [Hn Hin]%list_elem_of_filter]].
    apply elem_of_map_to_list in Hin. unfold isNew in Hn. simpl in *.
    apply bool_decide_unpack in Hn. eauto.
  - intros [[h Hh] Ho]. exists (p, h). split; [done|].
    apply list_elem_of_filter. split.
    + unfold isNew. simpl. by apply bool_decide_pack.
    + by apply elem_of_map_to_list.
Qed.

Lemma elem_of_unchangedFiles p :
  p ∈ unchangedFiles old cur ↔ ∃ h, cur !! p = Some h ∧ old !! p = Some h.
Proof.
  unfold unchangedFiles. rewrite list_elem_of_fmap. split.
  - intros [[k h] [-> [Hu Hin]%list_elem_of_filter]].
    apply elem_of_map_to_list in Hin. simpl in *.
    apply bool_decide_unpack in Hu. eauto.
  - intros (h & Hh & Ho). exists (p, h). split; [done|].
    apply list_elem_of_filter. split.
    + simpl. by apply bool_decide_pack.
    + by apply elem_of_map_to_list.
Qed.

Lemma NoDup_keys_filter (P : string * string → Prop) `{!∀ x, Decision (P x)}
    (m : gmap string string) :
  NoDup (filter P (map_to_list m)).*1.
Proof.
  eapply sublist_NoDup; [apply (NoDup_fst_map_to_list m)|].
  apply fmap_sublist, sublist_filter.
Qed.

End Classification.

(** C3.  For every prior and every current fingerprint map, a path is new
    when present only now, changed when present in both with differing
    fingerprints, deleted when present only before, unchanged when
    present in both with equal fingerprints; no path occurs twice among
    the four lists, which are pairwise disjoint, and together they hold
    exactly the paths of the two maps. *)
Theorem classification_partition (old cur : gmap string string) :
  let N := newFiles old cur in
  let C := changedFiles old cur in
  let D := deletedFiles old cur in
  let U := unchangedFiles old cur in
  (∀ p, (p ∈ N ↔ is_Some (cur !! p) ∧ old !! p = None) ∧
        (p ∈ C ↔ ∃ h oh, cur !! p = Some h ∧ old !! p = Some oh ∧ oh ≠ h) ∧
        (p ∈ D ↔ is_Some (old !! p) ∧ cur !! p = None) ∧
        (p ∈ U ↔ ∃ h, cur !! p = Some h ∧ old !! p = Some h)) ∧
  NoDup (N ++ C ++ D ++ U) ∧
  (N ## C ∧ N ## D ∧ N ## U ∧ C ## D ∧ C ## U ∧ D ## U) ∧
  (∀ p, p ∈ N ++ C ++ D ++ U ↔ p ∈ dom old ∪ dom cur).
Proof.
  intros N C D U.
  assert (HN := elem_of_newFiles old cur).
  assert (HC := elem_of_changedFiles old cur).
  assert (HD := elem_of_deletedFiles old cur).
  assert (HU := elem_of_unchangedFiles old cur).
  fold N in HN. fold C in HC. fold D in HD. fold U in HU.
  assert (Hdisj : N ## C ∧ N ## D ∧ N ## U ∧ C ## D ∧ C ## U ∧ D ## U).
  { repeat split; intros p H1 H2;
      repeat match goal with
             | H : p ∈ N |- _ => apply HN in H; destruct H as [[? ?] ?]
             | H : p ∈ C |- _ => apply HC in H; destruct H as (? & ? & ? & ? & ?)
             | H : p ∈ D |- _ => apply HD in H; destruct H as [[? ?] ?]
             | H : p ∈ U |- _ => apply HU in H; destruct H as (? & ? & ?)
             end; congruence. }
  split; [intros p; auto|]. split; [|split; [exact Hdisj|]].
  - destruct Hdisj as (NC & ND & NU & CD & CU & DU).
    rewrite !NoDup_app. repeat split;
      try (apply NoDup_keys_filter; apply _).
    + intros p Hp H. rewrite !elem_of_app in H.
      destruct H as [H|[H|H]]; [by eapply NC|by eapply ND|by eapply NU].
    + intros p Hp [H|H]%elem_of_app; [by eapply CD|by eapply CU].
    + intros p Hp H; by eapply DU.
  - intros p. rewrite !elem_of_app, elem_of_union, !elem_of_dom, HN, HC, HD, HU.
    split.
    + intros [[? ?]|[(h & oh & ? & ? & ?)|[[? ?]|(h & ? & ?)]]]; eauto.
    + intros Hp.
      destruct (cur !! p) as [h|] eqn:Hc, (old !! p) as [oh|] eqn:Ho.
      * destruct (decide (oh = h)) as [->|Hne]; [right; right; right; eauto|].
        right; left. eauto.
      * left. eauto.
      * right; right; left. eauto.
      * destruct Hp as [[? ?]|[? ?]]; congruence.
Qed.

(** ** Fingerprints *)

Lemma append_nil (b : string) : "" +:+ b = b.
Proof. reflexivity. Qed.

Lemma append_cons c (a b : string) : String c a +:+ b = String c (a +:+ b).
Proof. reflexivity. Qed.

Lemma take_drop_bytes n s : takeBytes n s +:+ dropBytes n s = s.
Proof.
  revert s. induction n as [|n IH]; intros [|c r]; simpl; try done.
  by rewrite append_cons, IH.
Qed.

Lemma takeBytes_empty n s : (0 < n)%nat → takeBytes n s = "" → s = "".
Proof. destruct n; [lia|]. by destruct s. Qed.

Lemma dropBytes_length n s :
  (0 < n)%nat → s ≠ "" → (String.length (dropBytes n s) < String.length s)%nat.
Proof.
  intros Hn Hs. destruct n as [|n]; [lia|]. destruct s as [|c r]; [done|].
  simpl. clear. revert r. induction n as [|n IH]; intros r; simpl; [lia|].
  destruct r as [|c' r]; simpl; [lia|]. specialize (IH r). lia.
Qed.

Lemma append_assoc (a b c : string) : (a +:+ b) +:+ c = a +:+ (b +:+ c).
Proof. induction a as [|x a IH]; [done|]. by rewrite !append_cons, IH. Qed.

Lemma append_empty_r (a : string) : a +:+ "" = a.
Proof. induction a as [|x a IH]; [done|]. by rewrite append_cons, IH. Qed.

(** The read loop hands every byte of the file to the hash, whatever the
    size of the buffer. *)
Lemma readLoop_all buf fuel rest h :
  (0 < buf)%nat → (String.length rest < fuel)%nat →
  readLoop buf fuel rest h = h +:+ rest.
Proof.
  intros Hbuf. revert rest h. induction fuel as [|fuel IH]; intros rest h Hlen; [lia|].
  simpl. destruct (takeBytes buf rest) as [|c chunk] eqn:Hchunk.
  - apply takeBytes_empty in Hchunk; [|done]. subst. by rewrite append_empty_r.
  - assert (rest ≠ "") as Hne by (intros ->; by destruct buf).
    rewrite IH.
    + by rewrite append_assoc, <- Hchunk, take_drop_bytes.
    + pose proof (dropBytes_length buf rest Hbuf Hne). lia.
Qed.

Lemma hashFile_readable root p c :
  openFile root p = Some c → hashFile root p = hexString (sha1Sum c).
Proof.
  intros H. unfold hashFile. rewrite H.
  rewrite readLoop_all; [done| |lia].
  unfold bufSize. lia.
Qed.



Lemma hexDigit_hex d : 0 ≤ d < 16 → isHexChar (hexDigit d) = true.
Proof.
  intros Hd.
  assert (d = 0 ∨ d = 1 ∨ d = 2 ∨ d = 3 ∨ d = 4 ∨ d = 5 ∨ d = 6 ∨ d = 7 ∨
          d = 8 ∨ d = 9 ∨ d = 10 ∨ d = 11 ∨ d = 12 ∨ d = 13 ∨ d = 14 ∨ d = 15)
    as H by lia.
  repeat (destruct H as [->|H]; [reflexivity|]). by subst.
Qed.

Lemma hexString_hex bytes :
  Forall (λ b, 0 ≤ b < 256) bytes → allHex (hexString bytes) = true.
Proof.
  induction 1 as [|b bs Hb _ IH]; simpl; [done|].
  rewrite !hexDigit_hex, IH; [done| |].
  - apply Z.mod_pos_bound. lia.
  - split; [apply Z.div_pos; lia|]. apply Z.div_lt_upper_bound; lia.
Qed.

Lemma beBytes_range k w : Forall (λ b, 0 ≤ b < 256) (beBytes k w).
Proof.
  induction k as [|k IH]; simpl; constructor; [|done].
  apply Z.mod_pos_bound. lia.
Qed.

Lemma sha1Sum_range s : Forall (λ b, 0 ≤ b < 256) (sha1Sum s).
Proof.
  unfold sha1Sum.
  destruct (sha1Blocks _ _ _) as [[[[h0 h1] h2] h3] h4].
  rewrite !Forall_app. repeat split; apply beBytes_range.
Qed.

Lemma currentHashes_lookup_aux root files (m : gmap string string) p :
  foldl (λ m f, <[f := hashFile root f]> m) m files !! p =
  if decide (p ∈ files) then Some (hashFile root p) else m !! p.
Proof.
  revert m. induction files as [|f files IH]; intros m.
  - destruct (decide (p ∈ [])) as [H|_]; [|done]. by apply not_elem_of_nil in H.
  - cbn [foldl]. rewrite IH.
    destruct (decide (p ∈ files)) as [Hin|Hnin], (decide (p ∈ f :: files)) as [Hin'|Hnin'];
      try done.
    + exfalso. apply Hnin'. by apply elem_of_cons; right.
    + apply elem_of_cons in Hin' as [->|?]; [|done]. by rewrite lookup_insert_eq.
    + rewrite lookup_insert_ne; [done|]. intros ->. apply Hnin'. by apply elem_of_cons; left.
Qed.

Lemma currentHashes_lookup root files p :
  currentHashes root files !! p =
  if decide (p ∈ files) then Some (hashFile root p) else None.
Proof.
  unfold currentHashes. rewrite currentHashes_lookup_aux.
  by destruct (decide (p ∈ files)).
Qed.


(** ** The file walk *)

Lemma walk_root cfg root :
  walk cfg "." (Dir "." root) =
  concat (map (λ k, walk cfg (entryName k) k) root).
Proof. reflexivity. Qed.

Lemma walk_skipped cfg p name kids :
  HasPrefix p gitnotName = true → walk cfg p (Dir name kids) = [].
Proof. intros H. simpl. unfold isUnderGitnot. by rewrite H. Qed.

(** C8.  The test for the state directory is a prefix test on the path
    string: a directory at the top of the tree whose name merely begins
    with [.gitnot] is skipped with everything below it, so the tracked
    files are those of the tree without that directory. *)
Theorem gitnot_prefix_skips_subtree cfg (name : string) (kids pre post : list entry) :
  HasPrefix name gitnotName = true →
  isUnderGitnot name = true ∧
  walk cfg name (Dir name kids) = [] ∧
  getAllTextFiles cfg (pre ++ Dir name kids :: post) = getAllTextFiles cfg (pre ++ post).
Proof.
  intros H. split; [exact H|]. split; [by apply walk_skipped|].
  unfold getAllTextFiles. rewrite !walk_root.
  rewrite !map_app, !concat_app. cbn [map concat entryName].
  by rewrite (walk_skipped cfg name name kids H).
Qed.

(** ** Programs and their effects *)

Lemma run_app es1 es2 s : run (es1 ++ es2) s = run es2 (run es1 s).
Proof. apply foldl_app. Qed.

Lemma effects_bind {A B} (m : Prog A) (k : A → Prog B) s :
  effects (bind m k) s =
  effects m s ++ effects (k (result m s)) (run (effects m s) s).
Proof. reflexivity. Qed.

Lemma result_bind {A B} (m : Prog A) (k : A → Prog B) s :
  result (bind m k) s = result (k (result m s)) (run (effects m s) s).
Proof. reflexivity. Qed.

(** A field that an effect leaves alone unless the effect is of the
    kind [touch] is the same after a run without such effects. *)
Lemma run_frame {A} (proj : Store → A) (touch : Effect → bool) :
  (∀ e s, touch e = false → proj (exec e s) = proj s) →
  ∀ es s, Forall (λ e, touch e = false) es → proj (run es s) = proj s.
Proof.
  intros Hexec es. induction es as [|e es IH]; intros s Hall; [done|].
  apply Forall_cons in Hall as [He Hes]. cbn [run foldl].
  change (proj (run es (exec e s)) = proj s). rewrite IH by done. by apply Hexec.
Qed.

Lemma exec_workDir e s : workDir (exec e s) = workDir s.
Proof. by destruct e as [| | | | | | | |[?|]| | |[]| |]. Qed.

Lemma run_workDir es s : workDir (run es s) = workDir s.
Proof.
  revert s. induction es as [|e es IH]; intros s; [done|].
  cbn [run foldl]. change (workDir (run es (exec e s)) = workDir s).
  by rewrite IH, exec_workDir.
Qed.

Lemma run_hashesFile es s :
  Forall (λ e, writesHashes e = false) es → hashesFile (run es s) = hashesFile s.
Proof.
  apply (run_frame hashesFile). by intros [| | | | | | | |[?|]| | |[]| |] ?.
Qed.

Lemma run_versionFile es s :
  Forall (λ e, writesVersion e = false) es → versionFile (run es s) = versionFile s.
Proof.
  apply (run_frame versionFile). by intros [| | | | | | | |[?|]| | |[]| |] ?.
Qed.

Lemma run_configFile es s :
  Forall (λ e, writesConfig e = false) es → configFile (run es s) = configFile s.
Proof.
  apply (run_frame configFile). by intros [| | | | | | | |[?|]| | |[]| |] ?.
Qed.

Lemma run_snapshot es s :
  Forall (λ e, touchesSnapshot e = false) es → snapshot (run es s) = snapshot s.
Proof.
  apply (run_frame snapshot). by intros [| | | | | | | |[?|]| | |[]| |] ?.
Qed.

Lemma run_changelog rel es s :
  Forall (λ e, writesLog rel e = false) es →
  changelogs (run es s) !! rel = changelogs s !! rel.
Proof.
  apply (run_frame (λ s, changelogs s !! rel)).
  intros [| |r t| | | | | |[?|]| | |[]| |] s' H; try done.
  cbn in *. apply bool_decide_eq_false in H. by rewrite lookup_insert_ne.
Qed.


Lemma run_snapshot_is_Some es s :
  Forall (λ e, isLogEffect e = true) es →
  is_Some (snapshot (run es s)) ↔ is_Some (snapshot s).
Proof.
  revert s. induction es as [|e es IH]; intros s Hall; [done|].
  apply Forall_cons in Hall as [He Hes]. cbn [run foldl].
  change (is_Some (snapshot (run es (exec e s))) ↔ is_Some (snapshot s)).
  rewrite IH by done. destruct e; try done. cbn. apply fmap_is_Some.
Qed.

Lemma emits_ret {A} Q (a : A) : emits Q (ret a).
Proof. intros s. constructor. Qed.

Lemma emits_look Q : emits Q look.
Proof. intros s. constructor. Qed.

Lemma emits_perform (Q : Effect → Prop) e : Q e → emits Q (perform e).
Proof. intros H s. by repeat constructor. Qed.

Lemma emits_bind {A B} Q (m : Prog A) (k : A → Prog B) :
  emits Q m → (∀ a, emits Q (k a)) → emits Q (bind m k).
Proof.
  intros Hm Hk s. rewrite effects_bind. apply Forall_app. split; [apply Hm|apply Hk].
Qed.

Lemma emits_forEach {A} Q (l : list A) (body : A → Prog unit) :
  (∀ x, emits Q (body x)) → emits Q (forEach l body).
Proof.
  intros H. induction l as [|x l IH]; [apply emits_ret|].
  cbn [forEach]. apply emits_bind; [apply H|]. intros _. apply IH.
Qed.

Lemma emits_weaken {A} (Q Q' : Effect → Prop) (p : Prog A) :
  (∀ e, Q e → Q' e) → emits Q p → emits Q' p.
Proof. intros H Hp s. eapply Forall_impl; [apply Hp|]. exact H. Qed.

Ltac emits_step :=
  lazymatch goal with
  | |- emits _ (bind _ _) => apply emits_bind; [|intros ?]
  | |- emits _ (if ?b then _ else _) => destruct b
  | |- emits _ (match ?x with _ => _ end) => destruct x
  | |- emits _ (ret _) => apply emits_ret
  | |- emits _ look => apply emits_look
  | |- emits _ (perform _) => apply emits_perform; try reflexivity
  | |- emits _ (forEach _ _) => apply emits_forEach; intros ?
  end.

Lemma emits_appendToFile ft rel text : emits (λ e, isLogEffect e = true) (appendToFile ft rel text).
Proof. unfold appendToFile. repeat emits_step. Qed.

Lemma emits_logAll ft ver ts new changed gone :
  emits (λ e, isLogEffect e = true) (logAll ft ver ts new changed gone).
Proof.
  unfold logAll, logNew, logChanged, logDeleted.
  repeat first [apply emits_appendToFile | emits_step].
Qed.

Lemma emits_copyAll ft files :
  emits (λ e, isRebuildEffect e = true ∧ touchesSnapshot e = false) (copyAll ft files).
Proof.
  induction files as [|f files IH]; cbn [copyAll]; repeat first [apply IH | emits_step]; done.
Qed.

Lemma emits_rebuildSnapshot ft files :
  emits (λ e, isRebuildEffect e = true) (rebuildSnapshot ft files).
Proof.
  unfold rebuildSnapshot.
  repeat first
    [ eapply emits_weaken; [|apply emits_copyAll]; by intros ? [? ?]
    | emits_step ].
Qed.

(** ** The snapshot rebuild *)

Lemma copyAll_spec ft files s :
  result (copyAll ft files) s = forallb (copyOk ft (workDir s)) files ∧
  (forallb (copyOk ft (workDir s)) files = true →
   effects (copyAll ft files) s =
   (λ f, PutTemp f (default "" (openFile (workDir s) f))) <$> files).
Proof.
  revert s. induction files as [|f files IH]; intros s; [done|].
  cbn [copyAll forallb fmap list_fmap]. unfold copyOk at 1 3.
  destruct (failTempMkdir ft f); [done|].
  rewrite result_bind, effects_bind.
  change (effects look s) with (@nil Effect). change (result look s) with s.
  change (run [] s) with s. cbn [app negb andb].
  destruct (openFile (workDir s) f) as [c|] eqn:Hc.
  2:{ rewrite bool_decide_eq_false_2; [done|]. by intros [? ?]. }
  rewrite bool_decide_eq_true_2 by eauto.
  destruct (failTempCopy ft f); [done|]. cbn [negb andb default].
  rewrite result_bind, effects_bind.
  change (effects (perform (PutTemp f c)) s) with [PutTemp f c].
  destruct (IH (run [PutTemp f c] s)) as [Hres Heff].
  rewrite run_workDir in Hres, Heff. split; [exact Hres|].
  intros Hall. by rewrite Heff.
Qed.

Lemma run_PutTemp (g : string → string) files (m : gmap string string) s :
  tempDir s = Some m →
  tempDir (run ((λ f, PutTemp f (g f)) <$> files) s) =
  Some (foldl (λ m f, <[f := g f]> m) m files).
Proof.
  revert m s. induction files as [|f files IH]; intros m s Hm; [done|].
  cbn [fmap list_fmap run foldl].
  change (tempDir (run ((λ f, PutTemp f (g f)) <$> files) (exec (PutTemp f (g f)) s)) =
          Some (foldl (λ m f, <[f := g f]> m) (<[f := g f]> m) files)).
  apply IH. cbn. by rewrite Hm.
Qed.

(** C4.  The rebuild touches the snapshot only when every file of the
    list was copied into the temporary directory: if the temporary
    directory cannot be made or one copy fails, no effect of the rebuild
    touches the snapshot, which stays as it was, and a failed copy is
    reported; if all copies and the removal of the old snapshot succeed
    but the rename fails, no snapshot is left and the warning about the
    move is printed; if the rename succeeds too, the snapshot is the full
    copy of the listed files. *)
Theorem snapshot_rebuild_fail_closed ft (files : list string) (s : Store) :
  let es := effects (rebuildSnapshot ft files) s in
  let allCopied := negb (failTempDir ft) && forallb (copyOk ft (workDir s)) files in
  (allCopied = false →
     Forall (λ e, touchesSnapshot e = false) es ∧
     snapshot (run es s) = snapshot s ∧
     (failTempDir ft = false → Print MsgWarnSnapshot ∈ es)) ∧
  (allCopied = true → failRemoveAll ft = None → failRename ft = true →
     snapshot (run es s) = None ∧ Print MsgWarnMoveNew ∈ es) ∧
  (allCopied = true → failRemoveAll ft = None → failRename ft = false →
     snapshot (run es s) = Some (mirror (workDir s) files)).
Proof.
  intros es allCopied. subst es allCopied. unfold rebuildSnapshot.
  destruct (failTempDir ft) eqn:Htd; cbn [negb andb].
  { repeat split; try done. repeat constructor. }
  rewrite effects_bind.
  change (effects (perform MakeTemp) s) with [MakeTemp].
  rewrite effects_bind.
  set (s1 := run [MakeTemp] s).
  destruct (copyAll_spec ft files s1) as [Hres Heff].
  assert (workDir s1 = workDir s) as Hw by apply run_workDir.
  rewrite Hw in Hres, Heff. rewrite Hres.
  pose proof (emits_copyAll ft files s1) as Hcopy.
  destruct (forallb (copyOk ft (workDir s)) files) eqn:Hall.
  - specialize (Heff eq_refl).
    split; [done|]. split; intros _ Hra Hrn; rewrite Hra, Hrn.
    + rewrite !effects_bind.
      change (effects (perform (RemoveSnapshot None)) ?x) with [RemoveSnapshot None].
      change (effects (perform (Print MsgWarnMoveNew)) ?x) with [Print MsgWarnMoveNew].
      split.
      * rewrite !run_app. reflexivity.
      * rewrite !elem_of_app. right. right. right. by apply list_elem_of_singleton.
    + rewrite !effects_bind.
      change (effects (perform (RemoveSnapshot None)) ?x) with [RemoveSnapshot None].
      change (effects (perform RenameTemp) ?x) with [RenameTemp].
      rewrite !run_app. cbn [run foldl exec setTemp setSnapshot snapshot tempDir].
      rewrite Heff. fold (run ((λ f, PutTemp f (default "" (openFile (workDir s) f))) <$> files) s1).
      by rewrite (run_PutTemp _ files ∅ s1).
  - split; [|split; done]. intros _.
    rewrite effects_bind.
    change (effects (perform (Print MsgWarnSnapshot)) ?x) with [Print MsgWarnSnapshot].
    change (effects (perform RemoveTemp) ?x) with [RemoveTemp].
    assert (Forall (λ e, touchesSnapshot e = false)
              ([MakeTemp] ++ effects (copyAll ft files) s1 ++ [Print MsgWarnSnapshot] ++ [RemoveTemp]))
      as Hquiet.
    { rewrite !Forall_app. repeat split; try (by repeat constructor).
      eapply Forall_impl; [exact Hcopy|]. by intros ? [? ?]. }
    split; [exact Hquiet|]. split; [by apply run_snapshot|].
    intros _. rewrite !elem_of_app. right. right. left. by apply list_elem_of_singleton.
Qed.

(** ** The shape of an update run *)

Lemma updateGitnot_unfold ft ts s :
  updateGitnot ft ts s =
  if negb (gitnotDir s) then (Some ErrNotInitialized, [])
  else if detects ft s then
    bind (bumpVersion ft)
         (λ r, match r with
               | inl e => ret (Some e)
               | inr ver => afterBump ft ts s ver
               end) s
  else (None, [Print MsgNoChanges]).
Proof.
  unfold updateGitnot, detects, currentOf, afterBump.
  unfold bind at 1. cbn [look fst snd run foldl app].
  destruct (gitnotDir s); [|done]. cbn [negb].
  destruct (_ =? _)%nat; reflexivity.
Qed.

Lemma bumpVersion_unfold ft s :
  bumpVersion ft s =
  match readVersion ft s with
  | inl e => (inl e, [])
  | inr v =>
      if failWriteVersion ft then (inl ErrWriteVersion, [])
      else (inr (bumped v), [WriteVersion (bumped v)])
  end.
Proof.
  unfold bumpVersion, writeVersion. unfold bind at 1. cbn [look fst snd run foldl app].
  destruct (readVersion ft s); [done|]. by destruct (failWriteVersion ft).
Qed.

Lemma prog_eq {A} (p : Prog A) s r es :
  result p s = r → effects p s = es → p s = (r, es).
Proof. unfold result, effects. destruct (p s). simpl. congruence. Qed.

Lemma result_look_bind {B} (k : Store → Prog B) s :
  result (bind look k) s = result (k s) s.
Proof. reflexivity. Qed.

Lemma effects_look_bind {B} (k : Store → Prog B) s :
  effects (bind look k) s = effects (k s) s.
Proof. reflexivity. Qed.

Lemma afterBump_unfold ft ts s ver s1 :
  is_Some (snapshot s1) ↔ is_Some (snapshot s) →
  let logs := effects (logAll ft ver ts (newFiles (loadHashes ft s) (currentOf s))
                         (changedFiles (loadHashes ft s) (currentOf s))
                         (deletedFiles (loadHashes ft s) (currentOf s))) s1 in
  afterBump ft ts s ver s1 =
  match snapshot s with
  | None => (None, logs ++ [Print MsgSnapshotMissing])
  | Some _ =>
      (if failSaveHashes ft then Some ErrSaveHashes else None,
       logs ++ effects (rebuildSnapshot ft (trackedFiles s)) (run logs s1) ++
       if failSaveHashes ft then [] else closing s ver)
  end.
Proof.
  intros Hsnap logs. unfold afterBump.
  set (la := logAll _ _ _ _ _ _) in *.
  pose proof (run_snapshot_is_Some logs s1 (emits_logAll _ _ _ _ _ _ s1)) as Hs.
  rewrite Hsnap in Hs.
  destruct (snapshot s) as [sn|] eqn:Hsn.
  - destruct (snapshot (run logs s1)) as [sn'|] eqn:Hsn'.
    2:{ exfalso. destruct Hs as [_ Hs]. destruct Hs; [eauto|done]. }
    apply prog_eq.
    + rewrite result_bind, result_look_bind. fold logs. rewrite Hsn'.
      rewrite result_bind. unfold saveAndReport.
      by destruct (failSaveHashes ft).
    + rewrite effects_bind, effects_look_bind. fold logs. rewrite Hsn'.
      rewrite effects_bind. unfold saveAndReport, closing.
      by destruct (failSaveHashes ft).
  - destruct (snapshot (run logs s1)) as [sn'|] eqn:Hsn'.
    { exfalso. destruct Hs as [Hs _]. destruct Hs; [eauto|done]. }
    apply prog_eq.
    + rewrite result_bind, result_look_bind. fold logs. by rewrite Hsn'.
    + rewrite effects_bind, effects_look_bind. fold logs. by rewrite Hsn'.
Qed.

(** The effects and the result of a run that finds a change and bumps
    the version. *)
Lemma update_run ft ts s v :
  gitnotDir s = true → detects ft s = true →
  readVersion ft s = inr v → failWriteVersion ft = false →
  let ver := bumped v in
  let s1 := run [WriteVersion ver] s in
  let logs := effects (logAll ft ver ts (newFiles (loadHashes ft s) (currentOf s))
                         (changedFiles (loadHashes ft s) (currentOf s))
                         (deletedFiles (loadHashes ft s) (currentOf s))) s1 in
  updateGitnot ft ts s =
  match snapshot s with
  | None => (None, [WriteVersion ver] ++ logs ++ [Print MsgSnapshotMissing])
  | Some _ =>
      (if failSaveHashes ft then Some ErrSaveHashes else None,
       [WriteVersion ver] ++ logs ++
       effects (rebuildSnapshot ft (trackedFiles s)) (run logs s1) ++
       if failSaveHashes ft then [] else closing s ver)
  end.
Proof.
  intros Hinit Hdet Hread Hwrite ver s1 logs.
  rewrite updateGitnot_unfold, Hinit, Hdet. cbn [negb].
  unfold bind at 1. rewrite bumpVersion_unfold, Hread, Hwrite. cbn [fst snd].
  fold ver. fold s1.
  rewrite (afterBump_unfold ft ts s ver s1) by done. fold logs.
  by destruct (snapshot s).
Qed.

(** ** Runs without a change *)


Lemma list_empty_if_no_elem {A} (l : list A) : (∀ x, x ∉ l) → l = [].
Proof. destruct l as [|x l]; [done|]. intros H. exfalso. apply (H x). by left. Qed.


Lemma update_no_changes ft ts s :
  gitnotDir s = true → detects ft s = false →
  updateGitnot ft ts s = (None, [Print MsgNoChanges]).
Proof. intros Hi Hd. by rewrite updateGitnot_unfold, Hi, Hd. Qed.

Lemma closing_quiet s ver :
  Forall (λ e, writesVersion e = false ∧ writesConfig e = false ∧
               touchesSnapshot e = false) (closing s ver).
Proof. by repeat constructor. Qed.

Lemma log_effect_quiet e :
  isLogEffect e = true →
  writesHashes e = false ∧ writesVersion e = false ∧ writesConfig e = false.
Proof. by destruct e. Qed.

Lemma rebuild_effect_quiet e :
  isRebuildEffect e = true →
  writesHashes e = false ∧ writesVersion e = false ∧ writesConfig e = false.
Proof. destruct e as [[]| | | | | | | | | | | | |]; done. Qed.

(** The part of a run that precedes the closing lines writes neither
    the fingerprints, nor the version, nor the configuration. *)
Lemma update_body_quiet ft ts s ver s1 :
  let logs := effects (logAll ft ver ts (newFiles (loadHashes ft s) (currentOf s))
                         (changedFiles (loadHashes ft s) (currentOf s))
                         (deletedFiles (loadHashes ft s) (currentOf s))) s1 in
  Forall (λ e, writesHashes e = false ∧ writesVersion e = false ∧ writesConfig e = false)
         (logs ++ effects (rebuildSnapshot ft (trackedFiles s)) (run logs s1)).
Proof.
  intros logs. apply Forall_app. split.
  - eapply Forall_impl; [apply emits_logAll|]. apply log_effect_quiet.
  - eapply Forall_impl; [apply emits_rebuildSnapshot|]. apply rebuild_effect_quiet.
Qed.



(** ** When the fingerprints are written *)

Lemma update_bump_fails ft ts s :
  gitnotDir s = true → detects ft s = true → bumpOk ft s = false →
  effects (updateGitnot ft ts) s = [] ∧ is_Some (result (updateGitnot ft ts) s).
Proof.
  intros Hi Hd Hb. unfold effects, result, bumpOk in *.
  rewrite updateGitnot_unfold, Hi, Hd. cbn [negb].
  unfold bind. rewrite bumpVersion_unfold.
  destruct (readVersion ft s); [by eauto|].
  destruct (failWriteVersion ft); [by eauto|done].
Qed.

(** C1, as the program has it.  The fingerprint file is written exactly
    when the run finds a change, the version bump gets through, the
    snapshot directory exists and the write itself does not fail; the
    outcome of the changelog appends and of the snapshot rebuild plays no
    part.  When it is written, it is written once, with the fingerprints
    of the working directory, after every other write of the run: only
    the two closing lines of output follow.  When it is not written, the
    run leaves the fingerprint file as it was. *)
Theorem hashes_written_last ft ts (s : Store) :
  let es := effects (updateGitnot ft ts) s in
  let persists :=
    gitnotDir s && detects ft s && bumpOk ft s &&
    bool_decide (is_Some (snapshot s)) && negb (failSaveHashes ft) in
  (persists = true →
     ∃ pre ver, es = pre ++ closing s ver ∧
                Forall (λ e, writesHashes e = false) pre ∧
                hashesFile (run es s) = Some (currentOf s)) ∧
  (persists = false →
     Forall (λ e, writesHashes e = false) es ∧
     hashesFile (run es s) = hashesFile s).
Proof.
  intros es persists. subst persists.
  assert (es = (updateGitnot ft ts s).2) as Hes by reflexivity. clearbody es.
  assert (∀ es', Forall (λ e, writesHashes e = false) es' →
                 Forall (λ e, writesHashes e = false) es' ∧
                 hashesFile (run es' s) = hashesFile s) as Hquiet.
  { intros es' H. split; [done|]. by apply run_hashesFile. }
  destruct (gitnotDir s) eqn:Hinit; cbn [andb].
  2:{ split; [done|]. intros _.
      rewrite updateGitnot_unfold, Hinit in Hes. subst es. by apply Hquiet. }
  destruct (detects ft s) eqn:Hdet; cbn [andb].
  2:{ split; [done|]. intros _.
      rewrite update_no_changes in Hes by done. subst es.
      apply Hquiet. by repeat constructor. }
  destruct (bumpOk ft s) eqn:Hbump; cbn [andb].
  2:{ split; [done|]. intros _.
      destruct (update_bump_fails ft ts s Hinit Hdet Hbump) as [Hnil _].
      unfold effects in Hnil. rewrite Hnil in Hes. subst es. by apply Hquiet. }
  unfold bumpOk in Hbump.
  destruct (readVersion ft s) as [|v] eqn:Hread; [done|].
  apply negb_true_iff in Hbump.
  pose proof (update_run ft ts s v Hinit Hdet Hread Hbump) as Hrun. cbn zeta in Hrun.
  pose proof (update_body_quiet ft ts s (bumped v) (run [WriteVersion (bumped v)] s)) as Hbody.
  cbn zeta in Hbody.
  set (logs := effects (logAll _ _ _ _ _ _) _) in *.
  set (reb := effects (rebuildSnapshot _ _) _) in *.
  rewrite Hrun in Hes. clear Hrun.
  destruct (snapshot s) as [sn|] eqn:Hsn.
  - rewrite bool_decide_eq_true_2 by eauto. cbn [andb snd] in *.
    assert (Forall (λ e, writesHashes e = false) ([WriteVersion (bumped v)] ++ logs ++ reb))
      as Hpre.
    { apply Forall_app. split; [by repeat constructor|].
      eapply Forall_impl; [exact Hbody|]. by intros ? (? & ? & ?). }
    destruct (failSaveHashes ft); cbn [negb].
    + split; [done|]. intros _. rewrite app_nil_r in Hes. subst es. by apply Hquiet.
    + split; [|done]. intros _.
      exists ([WriteVersion (bumped v)] ++ logs ++ reb), (bumped v). subst es.
      split; [by rewrite <- !app_assoc|]. split; [exact Hpre|].
      rewrite !app_assoc, run_app. reflexivity.
  - rewrite bool_decide_eq_false_2 by (by intros [? ?]). cbn [andb snd] in *.
    split; [done|]. intros _. subst es. apply Hquiet.
    apply Forall_app. split; [by repeat constructor|].
    apply Forall_app. split; [|by repeat constructor].
    apply Forall_app in Hbody as [Hlogs _].
    eapply Forall_impl; [exact Hlogs|]. by intros ? (? & ? & ?).
Qed.

(** ** The version is bumped first *)

Lemma detects_frame ft ft' s s' :
  failLoadHashes ft' = failLoadHashes ft →
  hashesFile s' = hashesFile s → workDir s' = workDir s →
  configFile s' = configFile s →
  detects ft' s' = detects ft s.
Proof.
  intros Hl Hh Hw Hc. unfold detects, loadHashes, currentOf, trackedFiles.
  by rewrite Hl, Hh, Hw, Hc.
Qed.

Lemma update_effects_head ft ts s v :
  gitnotDir s = true → detects ft s = true →
  readVersion ft s = inr v → failWriteVersion ft = false →
  ∃ rest, effects (updateGitnot ft ts) s = WriteVersion (bumped v) :: rest ∧
          Forall (λ e, writesVersion e = false ∧ writesConfig e = false) rest.
Proof.
  intros Hinit Hdet Hread Hwrite.
  pose proof (update_run ft ts s v Hinit Hdet Hread Hwrite) as Hrun. cbn zeta in Hrun.
  pose proof (update_body_quiet ft ts s (bumped v) (run [WriteVersion (bumped v)] s)) as Hbody.
  cbn zeta in Hbody. apply Forall_app in Hbody as [Hlogs Hreb].
  unfold effects at 1. rewrite Hrun.
  destruct (snapshot s); cbn [snd app]; eexists; (split; [reflexivity|]).
  - rewrite !Forall_app. repeat split.
    + eapply Forall_impl; [exact Hlogs|]. by intros ? (? & ? & ?).
    + eapply Forall_impl; [exact Hreb|]. by intros ? (? & ? & ?).
    + destruct (failSaveHashes ft); [constructor|].
      eapply Forall_impl; [apply closing_quiet|]. by intros ? (? & ? & ?).
  - rewrite !Forall_app. split; [|by repeat constructor].
    eapply Forall_impl; [exact Hlogs|]. by intros ? (? & ? & ?).
Qed.

Lemma readVersion_versionOf ft s v : readVersion ft s = inr v → v = versionOf s.
Proof.
  unfold readVersion, versionOf.
  destruct (versionFile s), (failReadVersion ft); congruence.
Qed.

Lemma bumpOk_read ft s : bumpOk ft s = true →
  readVersion ft s = inr (versionOf s) ∧ failWriteVersion ft = false.
Proof.
  unfold bumpOk. destruct (readVersion ft s) as [|v] eqn:H; [done|].
  intros ?%negb_true_iff. by rewrite (readVersion_versionOf ft s v H).
Qed.


(** ** The version counter *)





(** The version file after an update: bumped if the run found a change
    and the bump got through, as before otherwise. *)
Lemma update_version ft ts s :
  let s' := run (effects (updateGitnot ft ts) s) s in
  if gitnotDir s && detects ft s && bumpOk ft s
  then versionFile s' = VNumber (reparse (bumped (versionOf s)))
  else versionFile s' = versionFile s.
Proof.
  intros s'. subst s'.
  destruct (gitnotDir s) eqn:Hinit; cbn [andb].
  2:{ unfold effects. by rewrite updateGitnot_unfold, Hinit. }
  destruct (detects ft s) eqn:Hdet; cbn [andb].
  2:{ unfold effects. by rewrite update_no_changes. }
  destruct (bumpOk ft s) eqn:Hbump.
  2:{ by destruct (update_bump_fails ft ts s Hinit Hdet Hbump) as [-> _]. }
  apply bumpOk_read in Hbump as [Hread Hwrite].
  destruct (update_effects_head ft ts s _ Hinit Hdet Hread Hwrite) as (rest & -> & Hrest).
  cbn [run foldl].
  change (versionFile (run rest (exec (WriteVersion (bumped (versionOf s))) s)) =
          VNumber (reparse (bumped (versionOf s)))).
  rewrite run_versionFile; [done|].
  eapply Forall_impl; [exact Hrest|]. by intros ? [? ?].
Qed.




(** ** Initialization *)

Lemma initHashes_cons ft root f files (hashes : gmap string string) :
  initHashes ft root (f :: files) hashes =
  initHashes ft root files
    (if snapOk ft root f then <[f := hashFile root f]> hashes else hashes).
Proof. reflexivity. Qed.

Lemma initFiles_spec ft files : ∀ s hashes,
  (∀ f, failSnapMkdir ft f = false) →
  result (initFiles ft files hashes) s = inr (initHashes ft (workDir s) files hashes) ∧
  Forall (λ e, initEffectFor ft (workDir s) e = true) (effects (initFiles ft files hashes) s).
Proof.
  induction files as [|f files IH]; intros s hashes Hmk; [by split|].
  cbn [initFiles]. rewrite Hmk.
  rewrite result_look_bind, effects_look_bind, initHashes_cons.
  destruct (if failSnapCopy ft f then None else openFile (workDir s) f) as [c|] eqn:Hc.
  2:{ assert (snapOk ft (workDir s) f = false) as ->; [|apply IH, Hmk].
      unfold snapOk. destruct (failSnapCopy ft f); [done|]. by rewrite Hc. }
  assert (snapOk ft (workDir s) f = true) as Hok.
  { unfold snapOk. destruct (failSnapCopy ft f); [done|]. by rewrite Hc. }
  rewrite Hok.
  rewrite result_bind, effects_bind.
  change (effects (perform (PutSnapshot f c)) s) with [PutSnapshot f c].
  set (s1 := run [PutSnapshot f c] s).
  rewrite result_bind, effects_bind.
  set (lg := effects (appendToFile ft f _) s1).
  assert (Forall (λ e, initEffectFor ft (workDir s) e = true) lg) as Hlg.
  { subst lg. unfold appendToFile. destruct (failAppend ft f); repeat constructor. exact Hok. }
  destruct (IH (run lg s1) (<[f := hashFile (workDir s) f]> hashes) Hmk) as [Hres Heff].
  assert (workDir (run lg s1) = workDir s) as Hw.
  { rewrite run_workDir. apply run_workDir. }
  rewrite Hw in Hres, Heff. split; [exact Hres|].
  apply Forall_cons. split; [exact Hok|]. apply Forall_app. by split.
Qed.

Lemma initHashes_skip ft root files (hashes : gmap string string) p :
  snapOk ft root p = false → initHashes ft root files hashes !! p = hashes !! p.
Proof.
  intros Hp. revert hashes.
  induction files as [|f files IH]; intros hashes; [done|].
  rewrite initHashes_cons, IH. destruct (snapOk ft root f) eqn:Hf; [|done].
  rewrite lookup_insert_ne; [done|]. intros ->. congruence.
Qed.

Lemma initHashes_dom ft root files (hashes : gmap string string) p :
  is_Some (initHashes ft root files hashes !! p) → p ∈ files ∨ is_Some (hashes !! p).
Proof.
  revert hashes.
  induction files as [|f files IH]; intros hashes; [by right|].
  rewrite initHashes_cons. intros [H|H]%IH; [left; by right|].
  destruct (snapOk ft root f); [|by right].
  destruct (decide (f = p)) as [->|Hne]; [left; by left|].
  rewrite lookup_insert_ne in H by done. by right.
Qed.

Lemma makeDirs_ok ft ds s :
  (∀ d, failMkdirAll ft d = false) →
  makeDirs ft ds s = (None, MakeDir <$> ds).
Proof.
  intros H. revert s. induction ds as [|d ds IH]; intros s; [done|].
  cbn [makeDirs]. rewrite H. apply prog_eq.
  - rewrite result_bind. unfold result. by rewrite IH.
  - rewrite effects_bind. unfold effects at 2. by rewrite IH.
Qed.

Lemma bind_eq {A B} (m : Prog A) (k : A → Prog B) s a es :
  m s = (a, es) →
  bind m k s = (result (k a) (run es s), es ++ effects (k a) (run es s)).
Proof. intros H. unfold bind, result, effects. by rewrite H. Qed.

Lemma ensureConfig_ok ft s :
  failSaveConfig ft = false →
  ensureConfig ft s =
  (None, match configFile s with CMissing => [WriteConfig defaultConfig] | _ => [] end).
Proof.
  intros H. unfold ensureConfig. apply prog_eq.
  - rewrite result_look_bind, H. by destruct (configFile s).
  - rewrite effects_look_bind, H. by destruct (configFile s).
Qed.

Lemma initTracked_ok ft s :
  (∀ f, failSnapMkdir ft f = false) → failSaveHashes ft = false →
  failWriteVersion ft = false →
  let h := initHashes ft (workDir s) (trackedFiles s) ∅ in
  initTracked ft s =
  (None, effects (initFiles ft (trackedFiles s) ∅) s ++
         [WriteHashes h; WriteVersion 0; Print MsgInitialized; Print (MsgTracking (size h))]).
Proof.
  intros Hsm Hsave Hwrite h.
  destruct (initFiles_spec ft (trackedFiles s) s ∅ Hsm) as [Hres _]. fold h in Hres.
  unfold initTracked, writeVersion. apply prog_eq.
  - by rewrite result_look_bind, result_bind, Hres, Hsave, Hwrite.
  - by rewrite effects_look_bind, effects_bind, Hres, Hsave, Hwrite.
Qed.

(** The run of [initGitnot] when nothing fails but copies of files. *)
Lemma initGitnot_run ft s :
  (∀ d, failMkdirAll ft d = false) → failSaveConfig ft = false →
  (∀ f, failSnapMkdir ft f = false) → failSaveHashes ft = false →
  failWriteVersion ft = false →
  let setup := [MakeDir SnapshotDir; MakeDir ChangelogDir; MakeDir DeletedDir] ++
               match configFile s with
               | CMissing => [WriteConfig defaultConfig]
               | _ => []
               end in
  let s1 := run setup s in
  let h := initHashes ft (workDir s) (trackedFiles s) ∅ in
  initGitnot ft s =
  (None, setup ++ effects (initFiles ft (trackedFiles s) ∅) s1 ++
         [WriteHashes h; WriteVersion 0; Print MsgInitialized; Print (MsgTracking (size h))]).
Proof.
  intros Hmk Hcfg Hsm Hsave Hwrite setup s1 h.
  unfold initGitnot.
  rewrite (bind_eq _ _ _ _ _ (makeDirs_ok ft _ s Hmk)).
  set (s0 := run (MakeDir <$> [SnapshotDir; ChangelogDir; DeletedDir]) s).
  unfold result, effects at 1.
  rewrite (bind_eq _ _ _ _ _ (ensureConfig_ok ft s0 Hcfg)).
  change (configFile s0) with (configFile s).
  set (cw := match configFile s with CMissing => [WriteConfig defaultConfig] | _ => [] end).
  assert (run cw s0 = s1) as Hs1.
  { subst s1 setup s0. by rewrite run_app. }
  assert (workDir s1 = workDir s) as Hw by apply run_workDir.
  assert (trackedFiles s1 = trackedFiles s) as Htr.
  { unfold trackedFiles. rewrite Hw. f_equal. subst s1 setup.
    rewrite run_app. destruct (configFile s) eqn:Hc; cbn; by rewrite ?Hc. }
  pose proof (initTracked_ok ft s1 Hsm Hsave Hwrite) as Hit. cbn zeta in Hit.
  rewrite Hw, Htr in Hit. fold h in Hit.
  rewrite Hs1. unfold result, effects. rewrite Hit. cbn [fst snd].
  subst setup. by rewrite <- !app_assoc.
Qed.

(** C10.  When nothing fails but copies into the snapshot, [initGitnot]
    returns without error and prints that it initialized, whatever
    copies fail.  A tracked file whose copy fails gets no fingerprint and
    no effect of the run touches its changelog, so the fingerprint file
    names tracked files only and not this one; whatever the next update
    loads, it classifies the file as new. *)
Theorem init_skips_failed_copies ft (s : Store) (rel : string) :
  (∀ d, failMkdirAll ft d = false) → failSaveConfig ft = false →
  (∀ f, failSnapMkdir ft f = false) → failSaveHashes ft = false →
  failWriteVersion ft = false →
  rel ∈ trackedFiles s →
  failSnapCopy ft rel = true ∨ openFile (workDir s) rel = None →
  let es := effects (initGitnot ft) s in
  let s' := run es s in
  result (initGitnot ft) s = None ∧
  Print MsgInitialized ∈ es ∧
  Forall (λ e, writesLog rel e = false) es ∧
  changelogs s' !! rel = changelogs s !! rel ∧
  (∃ m, hashesFile s' = Some m ∧ m !! rel = None ∧
        ∀ p, is_Some (m !! p) → p ∈ trackedFiles s) ∧
  (∀ ft', rel ∈ newFiles (loadHashes ft' s') (currentOf s')).
Proof.
  intros Hmk Hcfg Hsm Hsave Hwrite Hin Hfail es s'.
  pose proof (initGitnot_run ft s Hmk Hcfg Hsm Hsave Hwrite) as Hrun. cbn zeta in Hrun.
  set (setup := _ ++ match configFile s with CMissing => _ | _ => _ end) in Hrun.
  set (h := initHashes ft (workDir s) (trackedFiles s) ∅) in Hrun.
  set (fe := effects (initFiles ft (trackedFiles s) ∅) (run setup s)) in Hrun.
  assert (es = setup ++ fe ++
               [WriteHashes h; WriteVersion 0; Print MsgInitialized; Print (MsgTracking (size h))])
    as Hes by (subst es; unfold effects; by rewrite Hrun).
  clearbody es.
  assert (snapOk ft (workDir s) rel = false) as Hbad.
  { unfold snapOk. destruct Hfail as [H|H]; rewrite H; [done|]. by rewrite andb_false_r. }
  assert (Forall (λ e, writesLog rel e = false) es) as Hlog.
  { rewrite Hes, !Forall_app. repeat split.
    - subst setup. destruct (configFile s); by repeat constructor.
    - destruct (initFiles_spec ft (trackedFiles s) (run setup s) ∅ Hsm) as [_ Hfe].
      fold fe in Hfe. rewrite run_workDir in Hfe.
      eapply Forall_impl; [exact Hfe|]. intros [] He; try done.
      cbn in *. apply bool_decide_eq_false_2. intros ->. congruence.
    - by repeat constructor. }
  assert (hashesFile s' = Some h) as Hh.
  { subst s'. rewrite Hes, !app_assoc, run_app. reflexivity. }
  assert (h !! rel = None) as Hrel.
  { subst h. by rewrite initHashes_skip. }
  assert (workDir s' = workDir s) as Hw by apply run_workDir.
  assert (loadConfig (configFile s') = loadConfig (configFile s)) as Hc.
  { subst s'. rewrite Hes, !run_app.
    rewrite (run_configFile [_; _; _; _]) by (by repeat constructor).
    rewrite (run_configFile fe).
    2:{ destruct (initFiles_spec ft (trackedFiles s) (run setup s) ∅ Hsm) as [_ Hfe].
        fold fe in Hfe. eapply Forall_impl; [exact Hfe|]. by intros []. }
    subst setup. rewrite run_app. destruct (configFile s) eqn:Hcf; cbn; by rewrite ?Hcf. }
  split; [unfold result; by rewrite Hrun|].
  split.
  { rewrite Hes, !elem_of_app. right. right.
    do 2 apply list_elem_of_further. apply list_elem_of_here. }
  split; [exact Hlog|]. split; [by apply run_changelog|]. split.
  - exists h. split; [exact Hh|]. split; [exact Hrel|].
    intros p Hp. apply initHashes_dom in Hp as [Hp|Hp]; [done|].
    rewrite lookup_empty in Hp. by destruct Hp.
  - intros ft'. apply elem_of_newFiles. split.
    + unfold currentOf, trackedFiles. rewrite Hw, Hc.
      rewrite currentHashes_lookup. fold (trackedFiles s).
      destruct (decide (rel ∈ trackedFiles s)); [eauto|done].
    + unfold loadHashes. destruct (failLoadHashes ft'); [done|]. by rewrite Hh.
Qed.

(** ** The changelog renderer *)

Lemma renderLoop_hunk line rest r :
  HasPrefix line "@@" = true →
  renderLoop (line :: rest) r = renderLoop rest (hunkHeader line r).
Proof. intros H. cbn [renderLoop]. by rewrite H. Qed.

Lemma renderLoop_churn line next rest r :
  HasPrefix line "@@" = false → churnPair line next = true →
  renderLoop (line :: next :: rest) r =
  renderLoop rest (mkRender (incr (oldLn r)) (incr (newLn r)) (added r) (removed r)).
Proof. intros H1 H2. cbn [renderLoop]. by rewrite H1, H2. Qed.

Lemma renderLoop_plain line rest r :
  HasPrefix line "@@" = false →
  match rest with next :: _ => churnPair line next = false | [] => True end →
  renderLoop (line :: rest) r = renderLoop rest (plainLine line r).
Proof.
  intros H1 H2. cbn [renderLoop]. rewrite H1. destruct rest; [done|]. by rewrite H2.
Qed.

Lemma plainLine_removed line r :
  HasPrefix line "-" = true → HasPrefix line "---" = false →
  plainLine line r =
  mkRender (incr (oldLn r)) (newLn r) (added r) (removed r ++ [annotate (oldLn r) line]).
Proof. intros H1 H2. unfold plainLine. by rewrite H1, H2. Qed.

Lemma prefix_head c pre line :
  HasPrefix line (String c pre) = true → ∃ rest, line = String c rest.
Proof.
  unfold HasPrefix. destruct line as [|c' rest]; [done|]. cbn.
  destruct (ascii_dec c c') as [<-|]; [eauto|done].
Qed.

Lemma plainLine_added line r :
  HasPrefix line "+" = true → HasPrefix line "+++" = false →
  plainLine line r =
  mkRender (oldLn r) (incr (newLn r)) (added r ++ [annotate (newLn r) line]) (removed r).
Proof.
  intros H1 H2. unfold plainLine. rewrite H1, H2.
  by destruct (prefix_head _ _ _ H1) as [rest ->].
Qed.

Lemma plainLine_marker line r :
  HasPrefix line "\" = true → plainLine line r = r.
Proof.
  intros H. unfold plainLine. rewrite H.
  by destruct (prefix_head _ _ _ H) as [rest ->].
Qed.

Lemma plainLine_context line r :
  HasPrefix line "-" = false → HasPrefix line "+" = false →
  HasPrefix line "\" = false →
  plainLine line r = mkRender (incr (oldLn r)) (incr (newLn r)) (added r) (removed r).
Proof. intros H1 H2 H3. unfold plainLine. by rewrite H1, H2, H3. Qed.

Lemma plainLine_dashes line r :
  HasPrefix line "---" = true →
  plainLine line r = mkRender (incr (oldLn r)) (incr (newLn r)) (added r) (removed r).
Proof.
  intros H. unfold plainLine. rewrite H. cbn [negb]. rewrite andb_false_r.
  by destruct (prefix_head _ _ _ H) as [rest ->].
Qed.

(** C6, at the input where the program departs from it.  A removed line
    whose text begins with two dashes reaches the renderer as a line of
    three dashes, which the renderer takes for the file header: it emits
    nothing for it and advances both counters, as for a context line.
    For the removal of [-- x] the summary is empty and the new-side
    counter ends one too high, while the removal of [x] in its place is
    listed as [L1: x]. *)
Theorem render_drops_dashed_removal :
  formatDiffAsMarkdown dashedDiff = "" ∧
  formatDiffAsMarkdown plainDiff = "### ➖ Removed" +:+ nl +:+ "L1: x" +:+ nl +:+ nl ∧
  renderLoop (Split dashedDiff (Ascii.ascii_of_nat 10)) (mkRender 0 0 [] []) =
    mkRender 4 4 [] [] ∧
  renderLoop (Split plainDiff (Ascii.ascii_of_nat 10)) (mkRender 0 0 [] []) =
    mkRender 4 3 [] ["L1: x"].
Proof. repeat split; vm_compute; reflexivity. Qed.

(* ===================================================================== *)
(** * Part II, continued.  Further properties                            *)
(* ===================================================================== *)

Lemma run_cons e es s : run (e :: es) s = run es (exec e s).
Proof. reflexivity. Qed.

(** ** The changelog entries of an update *)

Lemma appended_app rel es1 es2 :
  appended rel (es1 ++ es2) = appended rel es1 ++ appended rel es2.
Proof.
  induction es1 as [|e es1 IH]; [done|].
  destruct e; cbn [app appended]; try done.
  case_bool_decide; [|done]. by rewrite IH.
Qed.

Lemma appended_quiet rel es :
  Forall (λ e, writesLog rel e = false) es → appended rel es = [].
Proof.
  induction 1 as [|e es He _ IH]; [done|].
  destruct e; cbn [appended]; try done.
  cbn in He. by rewrite He.
Qed.

Lemma run_appended rel es : ∀ s,
  changelogs (run es s) !! rel =
  match appended rel es with
  | [] => changelogs s !! rel
  | texts => Some (foldl String.app (default "" (changelogs s !! rel)) texts)
  end.
Proof.
  induction es as [|e es IH]; intros s; [done|].
  rewrite run_cons, IH.
  destruct e as [| |r text| | | | | |[?|]| | |[]| |]; try done.
  cbn [appended]. case_bool_decide as Hr.
  - subst r. cbn [exec setChangelogs changelogs foldl]. rewrite lookup_insert_eq.
    cbn [default]. by destruct (appended rel es).
  - cbn [exec setChangelogs changelogs]. by rewrite lookup_insert_ne.
Qed.

Lemma appended_forEach (Inv : Store → Prop) (body : string → Prog unit)
    (text : string → list string) rel l : ∀ s,
  NoDup l → Inv s →
  (∀ x s', Inv s' → Inv (run (effects (body x) s') s')) →
  (∀ x s', Inv s' →
     appended rel (effects (body x) s') = if bool_decide (x = rel) then text x else []) →
  appended rel (effects (forEach l body) s) =
  if bool_decide (rel ∈ l) then text rel else [].
Proof.
  intros s Hnd Hs Hpres Hone. revert s Hs.
  induction Hnd as [|x l Hx Hnd IH]; intros s Hs.
  { rewrite bool_decide_eq_false_2; [done|]. apply not_elem_of_nil. }
  cbn [forEach]. rewrite effects_bind, appended_app, (Hone x s Hs), IH by auto.
  destruct (decide (x = rel)) as [->|Hxr].
  - rewrite (bool_decide_eq_true_2 (rel = rel)) by done.
    rewrite (bool_decide_eq_false_2 (rel ∈ l)) by done.
    rewrite (bool_decide_eq_true_2 (rel ∈ rel :: l)) by apply list_elem_of_here.
    apply app_nil_r.
  - rewrite (bool_decide_eq_false_2 (x = rel)) by done.
    cbn [app]. rewrite (bool_decide_ext (rel ∈ x :: l) (rel ∈ l)); [done|].
    rewrite elem_of_cons. split; [intros [->|?]; done|by right].
Qed.

Lemma effects_appendToFile ft rel text s :
  effects (appendToFile ft rel text) s =
  if failAppend ft rel then [] else [AppendLog rel text].
Proof. unfold appendToFile. by destruct (failAppend ft rel). Qed.

Lemma appended_appendToFile ft x text rel s :
  appended rel (effects (appendToFile ft x text) s) =
  if bool_decide (x = rel) then (if failAppend ft x then [] else [text]) else [].
Proof.
  rewrite effects_appendToFile. destruct (failAppend ft x); cbn [appended].
  - by case_bool_decide.
  - by case_bool_decide.
Qed.

Lemma effects_logChanged ft ver ts rel s :
  effects (logChanged ft ver ts rel) s =
  if failAppend ft rel then []
  else [AppendLog rel (entryHead ver ts +:+ changedBody s rel)].
Proof.
  unfold logChanged, changedBody. rewrite effects_look_bind.
  destruct (snapshot s ≫= (.!! rel)); [case_bool_decide|];
    rewrite effects_appendToFile; by destruct (failAppend ft rel).
Qed.

Lemma appended_logDeleted ft ver ts x rel s :
  appended rel (effects (logDeleted ft ver ts x) s) =
  if bool_decide (x = rel)
  then (if failAppend ft x then []
        else [entryHead ver ts +:+ "🔻 File was deleted." +:+ nl])
  else [].
Proof.
  unfold logDeleted. rewrite effects_bind, appended_app, appended_appendToFile.
  rewrite effects_look_bind.
  match goal with |- _ ++ appended rel ?es = _ => assert (appended rel es = []) as -> end.
  { destruct (snapshot _ ≫= _); [|done].
    rewrite effects_bind. destruct (failCopyDeleted ft x), (failRemove ft x); done. }
  apply app_nil_r.
Qed.

Lemma changedBody_frame s s' rel :
  snapshot s' = snapshot s → workDir s' = workDir s →
  changedBody s' rel = changedBody s rel.
Proof. intros Hs Hw. unfold changedBody, unifiedDiff. by rewrite Hs, Hw. Qed.

Lemma appended_logAll ft ver ts s s1 new changed gone rel :
  NoDup new → NoDup changed → NoDup gone →
  (∀ x, x ∈ new → (x ∉ changed) ∧ (x ∉ gone)) →
  (∀ x, x ∈ changed → x ∉ gone) →
  snapshot s1 = snapshot s → workDir s1 = workDir s →
  appended rel (effects (logAll ft ver ts new changed gone) s1) =
  if failAppend ft rel then []
  else if bool_decide (rel ∈ new) then [entryHead ver ts +:+ "📄 New file added." +:+ nl]
  else if bool_decide (rel ∈ changed) then [entryHead ver ts +:+ changedBody s rel]
  else if bool_decide (rel ∈ gone) then [entryHead ver ts +:+ "🔻 File was deleted." +:+ nl]
  else [].
Proof.
  intros Hn Hc Hg Hnc Hcg Hsnap Hwd. unfold logAll.
  rewrite !effects_bind, !appended_app.
  rewrite (appended_forEach (λ _, True) (logNew ft ver ts)
             (λ x, if failAppend ft x then []
                   else [entryHead ver ts +:+ "📄 New file added." +:+ nl]));
    [|done|done|done|intros; apply appended_appendToFile].
  rewrite (appended_forEach (λ s', snapshot s' = snapshot s ∧ workDir s' = workDir s)
             (logChanged ft ver ts)
             (λ x, if failAppend ft x then []
                   else [entryHead ver ts +:+ changedBody s x])); [|done| | |].
  - rewrite (appended_forEach (λ _, True) (logDeleted ft ver ts)
               (λ x, if failAppend ft x then []
                     else [entryHead ver ts +:+ "🔻 File was deleted." +:+ nl]));
      [|done|done|done|intros; apply appended_logDeleted].
    destruct (failAppend ft rel); [by repeat case_bool_decide|].
    case_bool_decide as H1.
    { destruct (Hnc _ H1). by rewrite !bool_decide_eq_false_2. }
    case_bool_decide as H2.
    { pose proof (Hcg _ H2). by rewrite !bool_decide_eq_false_2. }
    done.
  - split; [rewrite run_snapshot|rewrite run_workDir]; [done| |done].
    eapply Forall_impl; [apply (emits_forEach (λ e, ∃ r t, e = AppendLog r t))|].
    + intros x s'. unfold logNew. rewrite effects_appendToFile.
      destruct (failAppend ft x); repeat constructor; eauto.
    + by intros ? (? & ? & ->).
  - intros x s' [Hs' Hw']. rewrite effects_logChanged.
    split; [rewrite run_snapshot|rewrite run_workDir]; [done| |done].
    destruct (failAppend ft x); by repeat constructor.
  - intros x s' [Hs' Hw']. rewrite effects_logChanged.
    rewrite (changedBody_frame s s') by done.
    destruct (failAppend ft x); cbn [appended]; by case_bool_decide.
Qed.

Lemma classes_disjoint (old cur : gmap string string) :
  (∀ x, x ∈ newFiles old cur →
        (x ∉ changedFiles old cur) ∧ (x ∉ deletedFiles old cur)) ∧
  (∀ x, x ∈ changedFiles old cur → x ∉ deletedFiles old cur).
Proof.
  split.
  - intros x [[h Hh] Ho]%elem_of_newFiles. split.
    + intros (? & ? & ? & ? & ?)%elem_of_changedFiles. congruence.
    + intros [? ?]%elem_of_deletedFiles. congruence.
  - intros x (? & ? & ? & ? & ?)%elem_of_changedFiles [? ?]%elem_of_deletedFiles.
    congruence.
Qed.

(** X1.  A run of the update that finds a change and bumps the version gives
    each new, changed or deleted file exactly one changelog entry, added
    at the end of what the changelog held; the entry has the heading of
    the bumped version and of the time stamp of the run, followed by the
    body of the file's class.  The entry is missing only if the append
    for that file fails, and the changelog of every other file is left as
    it was. *)
Theorem update_changelog_entry ft ts (s : Store) (rel : string) :
  gitnotDir s = true → detects ft s = true → bumpOk ft s = true →
  changelogs (run (effects (updateGitnot ft ts) s) s) !! rel =
  match entryBody ft s rel with
  | Some body =>
      if failAppend ft rel then changelogs s !! rel
      else Some (default "" (changelogs s !! rel) +:+
                 entryHead (bumped (versionOf s)) ts +:+ body)
  | None => changelogs s !! rel
  end.
Proof.
  intros Hinit Hdet [Hread Hwrite]%bumpOk_read.
  pose proof (update_run ft ts s _ Hinit Hdet Hread Hwrite) as Hrun. cbn zeta in Hrun.
  pose proof (update_body_quiet ft ts s (bumped (versionOf s))
                (run [WriteVersion (bumped (versionOf s))] s)) as Hq. cbn zeta in Hq.
  set (s1 := run [WriteVersion (bumped (versionOf s))] s) in *.
  set (old := loadHashes ft s) in *. set (cur := currentOf s) in *.
  set (logs := effects (logAll _ _ _ _ _ _) s1) in *.
  set (reb := effects (rebuildSnapshot _ _) _) in *.
  assert (appended rel reb = []) as Hreb.
  { apply appended_quiet. eapply Forall_impl; [apply emits_rebuildSnapshot|].
    by intros [[]| | | | | | | | | | | | |]. }
  destruct (classes_disjoint old cur) as [Hnc Hcg].
  assert (appended rel logs =
          match entryBody ft s rel with
          | Some body =>
              if failAppend ft rel then []
              else [entryHead (bumped (versionOf s)) ts +:+ body]
          | None => []
          end) as Hlogs.
  { unfold logs. rewrite (appended_logAll ft _ ts s s1); try done;
      try apply NoDup_keys_filter.
    unfold entryBody. fold old cur.
    destruct (failAppend ft rel); repeat case_bool_decide; done. }
  assert (appended rel (effects (updateGitnot ft ts) s) = appended rel logs) as Happ.
  { unfold effects at 1. rewrite Hrun. destruct (snapshot s); cbn [snd].
    - rewrite !appended_app, Hreb. cbn [appended app].
      destruct (failSaveHashes ft); cbn; by rewrite app_nil_r.
    - rewrite !appended_app. cbn. by rewrite app_nil_r. }
  rewrite run_appended, Happ, Hlogs.
  destruct (entryBody ft s rel) as [body|]; [|done].
  destruct (failAppend ft rel); [done|]. done.
Qed.

(** ** The store of deleted files *)

Lemma run_deleted es s :
  Forall (λ e, putsDeleted e = false) es → deleted (run es s) = deleted s.
Proof.
  apply (run_frame deleted). by intros [| | | | | | | |[?|]| | |[]| |] ?.
Qed.

Lemma emits_logNew ft ver ts l :
  emits (λ e, ∃ r t, e = AppendLog r t) (forEach l (logNew ft ver ts)).
Proof.
  apply emits_forEach. intros x s'. unfold logNew. rewrite effects_appendToFile.
  destruct (failAppend ft x); repeat constructor; eauto.
Qed.

Lemma emits_logChanged ft ver ts l :
  emits (λ e, ∃ r t, e = AppendLog r t) (forEach l (logChanged ft ver ts)).
Proof.
  apply emits_forEach. intros x s'. rewrite effects_logChanged.
  destruct (failAppend ft x); repeat constructor; eauto.
Qed.

Lemma appends_frame es s :
  Forall (λ e, ∃ r t, e = AppendLog r t) es →
  snapshot (run es s) = snapshot s ∧ deleted (run es s) = deleted s.
Proof.
  intros H. split; [apply run_snapshot|apply run_deleted];
    (eapply Forall_impl; [exact H|]); by intros ? (? & ? & ->).
Qed.

Lemma effects_logDeleted ft ver ts x s :
  effects (logDeleted ft ver ts x) s =
  (if failAppend ft x then []
   else [AppendLog x (entryHead ver ts +:+ "🔻 File was deleted." +:+ nl)]) ++
  match snapshot s ≫= (.!! x) with
  | Some c =>
      (if failCopyDeleted ft x then [] else [PutDeleted x c]) ++
      (if failRemove ft x then [] else [RemoveFromSnapshot x])
  | None => []
  end.
Proof.
  unfold logDeleted. rewrite effects_bind, effects_appendToFile, effects_look_bind.
  f_equal.
  assert (snapshot (run (if failAppend ft x then []
                         else [AppendLog x (entryHead ver ts +:+ "🔻 File was deleted." +:+ nl)]) s)
          = snapshot s) as -> by by destruct (failAppend ft x).
  destruct (snapshot s ≫= (.!! x)); [|done].
  rewrite effects_bind. by destruct (failCopyDeleted ft x), (failRemove ft x).
Qed.

(** What one pass of the loop over the deleted files does to the entry
    of [p] in the store of deleted files and in the snapshot. *)
Lemma logDeleted_run ft ver ts x p s :
  let s' := run (effects (logDeleted ft ver ts x) s) s in
  deleted s' !! p =
    (if bool_decide (x = p) then
       match snapshot s ≫= (.!! p) with
       | Some c => if failCopyDeleted ft p then deleted s !! p else Some c
       | None => deleted s !! p
       end
     else deleted s !! p) ∧
  (x ≠ p → snapshot s' ≫= (.!! p) = snapshot s ≫= (.!! p)).
Proof.
  intros s'. subst s'. rewrite effects_logDeleted, run_app.
  set (s0 := run (if failAppend ft x then [] else _) s).
  assert (snapshot s0 = snapshot s ∧ deleted s0 = deleted s) as [Hs0 Hd0].
  { subst s0. by destruct (failAppend ft x). }
  destruct (snapshot s) as [snap|] eqn:Hsnap; cbn [mbind option_bind].
  2:{ cbn [run foldl]. rewrite Hd0, Hs0. split; [by case_bool_decide|done]. }
  destruct (snap !! x) as [c|] eqn:Hx.
  2:{ cbn [run foldl]. rewrite Hd0, Hs0. cbn. split; [|done].
      case_bool_decide as Hxp; [|done]. subst x. by rewrite Hx. }
  destruct (failCopyDeleted ft x) eqn:Hcp, (failRemove ft x) eqn:Hrm;
    cbn [app run foldl exec setDeleted setSnapshot deleted snapshot];
    rewrite ?Hd0, ?Hs0; cbn [fmap option_fmap option_map mbind option_bind]; split;
    try (intros Hne; by rewrite ?lookup_delete_ne);
    (case_bool_decide as Hxp;
     [subst x; rewrite ?Hx, ?Hcp, ?lookup_insert_eq; done
     |rewrite ?lookup_insert_ne by done; done]).
Qed.

Lemma deleted_forEach ft ver ts p l : ∀ s,
  NoDup l →
  deleted (run (effects (forEach l (logDeleted ft ver ts)) s) s) !! p =
  if bool_decide (p ∈ l) then
    match snapshot s ≫= (.!! p) with
    | Some c => if failCopyDeleted ft p then deleted s !! p else Some c
    | None => deleted s !! p
    end
  else deleted s !! p.
Proof.
  intros s Hnd. revert s. induction Hnd as [|x l Hx Hnd IH]; intros s.
  { rewrite bool_decide_eq_false_2; [done|]. apply not_elem_of_nil. }
  cbn [forEach]. rewrite effects_bind, run_app, IH.
  destruct (logDeleted_run ft ver ts x p s) as [Hdel Hsnap]. cbn zeta in Hdel, Hsnap.
  destruct (decide (x = p)) as [->|Hne].
  - rewrite bool_decide_eq_true_2 in Hdel by done.
    rewrite (bool_decide_eq_false_2 (p ∈ l)) by done.
    rewrite (bool_decide_eq_true_2 (p ∈ p :: l)) by apply list_elem_of_here.
    exact Hdel.
  - rewrite bool_decide_eq_false_2 in Hdel by done.
    rewrite Hdel, (Hsnap Hne).
    rewrite (bool_decide_ext (p ∈ x :: l) (p ∈ l)); [done|].
    rewrite elem_of_cons. split; [intros [->|?]; done|by right].
Qed.

(** X2.  A run of the update that finds a change and bumps the version
    changes the store of deleted files at the deleted files only: the
    entry of a deleted file that the snapshot holds becomes the copy the
    snapshot holds, unless that copy fails, which is taken to write
    nothing; every other entry, and the entry of a deleted file that the
    snapshot does not hold, stays as it was. *)
Theorem update_deleted_store ft ts (s : Store) (p : string) :
  gitnotDir s = true → detects ft s = true → bumpOk ft s = true →
  deleted (run (effects (updateGitnot ft ts) s) s) !! p =
  if bool_decide (p ∈ deletedFiles (loadHashes ft s) (currentOf s)) then
    match snapshot s ≫= (.!! p) with
    | Some c => if failCopyDeleted ft p then deleted s !! p else Some c
    | None => deleted s !! p
    end
  else deleted s !! p.
Proof.
  intros Hinit Hdet [Hread Hwrite]%bumpOk_read.
  pose proof (update_run ft ts s _ Hinit Hdet Hread Hwrite) as Hrun. cbn zeta in Hrun.
  set (ver := bumped (versionOf s)) in *.
  set (s1 := run [WriteVersion ver] s) in *.
  set (old := loadHashes ft s) in *. set (cur := currentOf s) in *.
  set (logs := effects (logAll _ _ _ _ _ _) s1) in *.
  set (reb := effects (rebuildSnapshot _ _) _) in *.
  assert (Forall (λ e, putsDeleted e = false) reb) as Hreb.
  { eapply Forall_impl; [apply emits_rebuildSnapshot|].
    by intros [[]| | | | | | | | | | | | |]. }
  assert (deleted (run (effects (updateGitnot ft ts) s) s) = deleted (run logs s1)) as ->.
  { unfold effects at 1. rewrite Hrun. fold s1.
    destruct (snapshot s); cbn [snd]; rewrite !run_app; fold s1.
    - rewrite run_deleted; [by rewrite run_deleted|].
      destruct (failSaveHashes ft); by repeat constructor.
    - done. }
  unfold logs, logAll. rewrite !effects_bind, !run_app.
  set (s2 := run (effects (forEach (newFiles old cur) _) s1) s1).
  set (s3 := run (effects (forEach (changedFiles old cur) _) s2) s2).
  destruct (appends_frame _ s1 (emits_logNew ft ver ts (newFiles old cur) s1)) as [Hs2 Hd2].
  destruct (appends_frame _ s2 (emits_logChanged ft ver ts (changedFiles old cur) s2))
    as [Hs3 Hd3].
  fold s2 in Hs2, Hd2. fold s3 in Hs3, Hd3.
  rewrite deleted_forEach by apply NoDup_keys_filter.
  rewrite Hs3, Hd3, Hs2, Hd2. done.
Qed.

(** ** The snapshot and the temporary directory after the rebuild *)



(** The rebuild, once the temporary directory exists and every copy
    succeeds. *)
Lemma rebuild_all_copied ft files s :
  failTempDir ft = false → forallb (copyOk ft (workDir s)) files = true →
  let s' := run (effects (rebuildSnapshot ft files) s) s in
  match failRemoveAll ft with
  | Some kept =>
      snapshot s' = filter (λ kv, kv.1 ∈ kept) <$> snapshot s ∧
      tempDir s' = Some (mirror (workDir s) files)
  | None =>
      if failRename ft
      then snapshot s' = None ∧ tempDir s' = Some (mirror (workDir s) files)
      else snapshot s' = Some (mirror (workDir s) files) ∧ tempDir s' = None
  end.
Proof.
  intros Htd Hall s'. subst s'. unfold rebuildSnapshot. rewrite Htd.
  rewrite effects_bind. change (effects (perform MakeTemp) s) with [MakeTemp].
  rewrite effects_bind. set (s1 := run [MakeTemp] s).
  destruct (copyAll_spec ft files s1) as [Hres Heff].
  assert (workDir s1 = workDir s) as Hw by apply run_workDir.
  rewrite Hw in Hres, Heff. rewrite Hres, Hall. specialize (Heff Hall).
  set (puts := (λ f, PutTemp f (default "" (openFile (workDir s) f))) <$> files) in *.
  set (s2 := run (effects (copyAll ft files) s1) s1).
  assert (tempDir s2 = Some (mirror (workDir s) files)) as Ht2.
  { subst s2. rewrite Heff. by apply (run_PutTemp _ files ∅ s1). }
  assert (snapshot s2 = snapshot s) as Hs2.
  { subst s2. rewrite run_snapshot.
    - done.
    - eapply Forall_impl; [apply emits_copyAll|]. by intros ? [? ?]. }
  rewrite !run_app. fold s1 s2.
  destruct (failRemoveAll ft) as [kept|].
  - rewrite effects_bind.
    change (effects (perform (RemoveSnapshot (Some kept))) ?x) with [RemoveSnapshot (Some kept)].
    change (effects (perform (Print MsgWarnRemoveOld)) ?x) with [Print MsgWarnRemoveOld].
    rewrite run_app. cbn [run foldl exec setSnapshot snapshot tempDir].
    by rewrite Hs2, Ht2.
  - rewrite effects_bind.
    change (effects (perform (RemoveSnapshot None)) ?x) with [RemoveSnapshot None].
    destruct (failRename ft).
    + change (effects (perform (Print MsgWarnMoveNew)) ?x) with [Print MsgWarnMoveNew].
      rewrite run_app. cbn [run foldl exec setSnapshot snapshot tempDir]. by rewrite Ht2.
    + change (effects (perform RenameTemp) ?x) with [RenameTemp].
      rewrite run_app. cbn [run foldl exec setSnapshot setTemp snapshot tempDir].
      by rewrite Ht2.
Qed.

(** X3.  When every copy into the temporary directory of the rebuild
    succeeded, that directory is gone at the end only if the old
    snapshot was removed and the rename succeeded, in which case it
    became the snapshot.  If the old snapshot could not be removed, or
    the rename failed, the temporary directory is left behind with the
    full copy of the listed files. *)
Theorem rebuild_temp_dir ft (files : list string) (s : Store) :
  failTempDir ft = false →
  forallb (copyOk ft (workDir s)) files = true →
  let s' := run (effects (rebuildSnapshot ft files) s) s in
  tempDir s' =
  if bool_decide (failRemoveAll ft = None) && negb (failRename ft)
  then None else Some (mirror (workDir s) files).
Proof.
  intros Htd Hall s'.
  pose proof (rebuild_all_copied ft files s Htd Hall) as H. cbn zeta in H. fold s' in H.
  destruct (failRemoveAll ft); [by destruct H|].
  destruct (failRename ft); by destruct H.
Qed.


(** ** The state after [initGitnot] *)


Lemma snapOk_open ft root f :
  snapOk ft root f = true → failSnapCopy ft f = false ∧ is_Some (openFile root f).
Proof.
  unfold snapOk. destruct (failSnapCopy ft f); [done|]. cbn [negb andb].
  intros H%bool_decide_eq_true. done.
Qed.





(** ** [showStatus] and [showVersion] *)

Lemma statusLines_not_quiet mk fs rest :
  (∀ n names, mk n names ≠ LineNoChanges) →
  fs ≠ [] → statusLines mk fs ++ rest ≠ [LineNoChanges].
Proof.
  intros Hmk Hfs. destruct fs as [|f fs]; [done|].
  cbn [statusLines app]. intros [= H _]. by apply Hmk in H.
Qed.

(** X7.  When the fingerprint file loads, or leaves nothing behind when it
    does not, the status and the update see the same changes: the status
    prints that nothing changed exactly when the update would print the
    same and write nothing.  Without the state directory both return an
    error and do nothing. *)
Theorem status_agrees_with_update ft (leftover : gmap string string)
    (ts : string) (s : Store) :
  (hashesFile s = None → leftover = ∅) →
  (gitnotDir s = false →
     showStatus ft leftover s = (Some ErrNotInitialized, []) ∧
     updateGitnot ft ts s = (Some ErrNotInitialized, [])) ∧
  (showStatus ft leftover s = (None, [LineNoChanges]) ↔
   updateGitnot ft ts s = (None, [Print MsgNoChanges])).
Proof.
  intros Hleft.
  assert (laxHashes ft leftover s = loadHashes ft s) as Hlax.
  { unfold laxHashes, loadHashes. destruct (failLoadHashes ft); [done|].
    destruct (hashesFile s); [done|]. by rewrite Hleft. }
  split.
  { intros Hdir. unfold showStatus. by rewrite updateGitnot_unfold, Hdir. }
  unfold showStatus. rewrite updateGitnot_unfold, Hlax.
  destruct (gitnotDir s); cbn [negb]; [|done].
  destruct (detects ft s) eqn:Hdet.
  - unfold detects in Hdet. apply negb_true_iff in Hdet. rewrite Hdet.
    split.
    + intros [= H]. exfalso. revert H.
      destruct (newFiles _ _) as [|f1 l1] eqn:H1.
      2:{ by apply statusLines_not_quiet. }
      change (statusLines LineNew []) with (@nil Line). cbn [app].
      destruct (changedFiles _ _) as [|f2 l2] eqn:H2.
      2:{ by apply statusLines_not_quiet. }
      change (statusLines LineModified []) with (@nil Line). cbn [app].
      destruct (deletedFiles _ _) as [|f3 l3] eqn:H3; [done|].
      rewrite <- (app_nil_r (statusLines _ _)). by apply statusLines_not_quiet.
    + unfold bind. rewrite bumpVersion_unfold.
      destruct (readVersion ft s); [done|].
      destruct (failWriteVersion ft); done.
  - unfold detects in Hdet. apply negb_false_iff in Hdet. by rewrite Hdet.
Qed.

Lemma sortStrings_spec l :
  Sorted String.le (sortStrings l) ∧ sortStrings l ≡ₚ l.
Proof.
  split; [apply (Sorted_merge_sort String.le)|apply merge_sort_Permutation].
Qed.

(** X8.  [showVersion] prints the version that [readVersion] returns and,
    when the fingerprint file loads, the names it holds: each name once,
    in ascending byte order, under a count that is their number; an empty
    file gives the line that nothing is tracked.  It never fails for a
    fingerprint file that does not load: it prints the warning. *)
Theorem showVersion_lists_tracked ft (s : Store) (v : float) :
  readVersion ft s = inr v →
  ∃ lines, showVersion ft s = (None, LineVersion (fmt1 v) :: lines) ∧
    match (if failLoadHashes ft then None else hashesFile s) with
    | None => lines = [LineLoadWarning]
    | Some hashes =>
        if bool_decide (hashes = ∅) then lines = [LineNoTracked]
        else ∃ names, lines = LineTrackedCount (length names) :: (LineFile <$> names) ∧
               Sorted String.le names ∧ NoDup names ∧
               ∀ p, p ∈ names ↔ is_Some (hashes !! p)
    end.
Proof.
  intros Hv. unfold showVersion. rewrite Hv. eexists. split; [reflexivity|].
  destruct (if failLoadHashes ft then None else hashesFile s) as [hashes|]; [|done].
  case_bool_decide as Hempty.
  - subst hashes. by rewrite map_size_empty.
  - destruct (Nat.eqb_spec (size hashes) 0) as [H0|H0].
    { by apply map_size_empty_iff in H0. }
    destruct (sortStrings_spec (map_to_list hashes).*1) as [Hsorted Hperm].
    exists (sortStrings (map_to_list hashes).*1). repeat split.
    + do 2 f_equal. by rewrite Hperm, length_fmap, length_map_to_list.
    + exact Hsorted.
    + rewrite Hperm. apply NoDup_fst_map_to_list.
    + rewrite Hperm. intros [[k x] [-> Hin]]%list_elem_of_fmap.
      apply elem_of_map_to_list in Hin. eauto.
    + rewrite Hperm. intros [x Hx]. apply list_elem_of_fmap.
      exists (p, x). split; [done|]. by apply elem_of_map_to_list.
Qed.

(** ** Which files are tracked *)

Lemma prefix_nil (s : string) : String.prefix "" s = true.
Proof. by destruct s. Qed.

Lemma prefix_app (a b : string) : String.prefix a (a +:+ b) = true.
Proof.
  induction a as [|c a IH]; [apply prefix_nil|]. rewrite append_cons. cbn.
  by destruct (ascii_dec c c).
Qed.

Lemma prefix_app_r (a s t : string) :
  String.prefix a s = true → String.prefix a (s +:+ t) = true.
Proof.
  revert s. induction a as [|c a IH]; intros s H; [apply prefix_nil|].
  destruct s as [|c' s]; [done|]. rewrite append_cons. cbn in *.
  destruct (ascii_dec c c'); [by apply IH|done].
Qed.

Lemma list_ascii_app (a b : string) :
  String.list_ascii_of_string (a +:+ b) =
  String.list_ascii_of_string a ++ String.list_ascii_of_string b.
Proof. induction a as [|c a IH]; [done|]. rewrite append_cons. cbn. by rewrite IH. Qed.

Lemma string_of_list_app (l1 l2 : list ascii) :
  String.string_of_list_ascii (l1 ++ l2) =
  String.string_of_list_ascii l1 +:+ String.string_of_list_ascii l2.
Proof. induction l1 as [|c l1 IH]; [done|]. cbn. by rewrite append_cons, IH. Qed.

Lemma revString_app (a b : string) : revString (a +:+ b) = revString b +:+ revString a.
Proof. unfold revString. by rewrite list_ascii_app, rev_app_distr, string_of_list_app. Qed.

Lemma revString_involutive (a : string) : revString (revString a) = a.
Proof.
  unfold revString.
  by rewrite String.list_ascii_of_string_of_list_ascii, rev_involutive,
    String.string_of_list_ascii_of_string.
Qed.

Lemma HasSuffix_app (x s : string) : HasSuffix (x +:+ s) s = true.
Proof. unfold HasSuffix. rewrite revString_app. apply prefix_app. Qed.

Lemma HasSuffix_app_l (x s suf : string) :
  HasSuffix s suf = true → HasSuffix (x +:+ s) suf = true.
Proof. unfold HasSuffix. rewrite revString_app. apply prefix_app_r. Qed.

Lemma ToLower_app (a b : string) : ToLower (a +:+ b) = ToLower a +:+ ToLower b.
Proof. induction a as [|c a IH]; [done|]. rewrite append_cons. cbn. by rewrite IH, append_cons. Qed.

Lemma Contains_prefix (s sub : string) : String.prefix sub s = true → Contains s sub = true.
Proof. intros H. destruct s; cbn [Contains]; by rewrite H. Qed.

Lemma Contains_app (pre x post : string) : Contains (pre +:+ x +:+ post) x = true.
Proof.
  induction pre as [|c pre IH].
  - rewrite append_nil. apply Contains_prefix, prefix_app.
  - rewrite append_cons. cbn [Contains]. rewrite IH. apply orb_true_r.
Qed.

Lemma hasAnySuffix_path (parent name : string) exts :
  hasAnySuffix name exts = true → hasAnySuffix (joinPath parent name) exts = true.
Proof.
  unfold hasAnySuffix, joinPath. case_bool_decide; [done|].
  rewrite !existsb_exists. intros (e & He & Hsuf). exists e. split; [done|].
  rewrite <- append_assoc, ToLower_app. by apply HasSuffix_app_l.
Qed.

Lemma entry_nested_ind (P : entry → Prop) :
  (∀ name d, P (File name d)) →
  (∀ name kids, Forall P kids → P (Dir name kids)) →
  ∀ e, P e.
Proof.
  intros Hfile Hdir. fix IH 1. intros [name d|name kids]; [apply Hfile|].
  apply Hdir. induction kids as [|k kids IHk]; constructor; [apply IH|apply IHk].
Qed.

(** What the walk lists below a directory. *)
Lemma walk_listed cfg : ∀ e q p,
  p ∈ walk cfg q e →
  shouldIgnore p (IgnorePatterns cfg) = false ∧
  match e with
  | File name _ => p = q ∧ hasAnySuffix name (Extensions cfg) = true
  | Dir _ _ => isUnderGitnot q = false ∧ ∃ parent name,
      p = joinPath parent name ∧ hasAnySuffix name (Extensions cfg) = true
  end.
Proof.
  induction e as [name d|name kids IH] using entry_nested_ind; intros q p.
  - cbn [walk]. destruct (hasAnySuffix name (Extensions cfg)) eqn:Hs; cbn [andb];
      [|by intros ?%not_elem_of_nil].
    destruct (shouldIgnore q (IgnorePatterns cfg)) eqn:Hi; cbn [negb];
      [by intros ?%not_elem_of_nil|].
    intros ->%list_elem_of_singleton. done.
  - cbn [walk]. destruct (isUnderGitnot q) eqn:Hq; [by intros ?%not_elem_of_nil|].
    intros Hin. apply list_elem_of_In, in_concat in Hin as (l & Hl & Hp).
    apply in_map_iff in Hl as (k & <- & Hk).
    apply list_elem_of_In in Hp, Hk.
    rewrite Forall_forall in IH. destruct (IH k Hk _ _ Hp) as [Hign Hshape].
    split; [done|]. split; [done|].
    destruct k as [kname kd|kname kkids].
    + destruct Hshape as [-> Hs]. by exists q, kname.
    + by destruct Hshape as [_ ?].
Qed.

Lemma tracked_listed cfg root p :
  p ∈ getAllTextFiles cfg root →
  hasAnySuffix p (Extensions cfg) = true ∧
  shouldIgnore p (IgnorePatterns cfg) = false.
Proof.
  unfold getAllTextFiles. destruct (sortStrings_spec (walk cfg "." (Dir "." root)))
    as [_ Hperm].
  rewrite Hperm. intros Hin.
  destruct (walk_listed cfg _ _ _ Hin) as (Hign & _ & parent & name & -> & Hs).
  split; [by apply hasAnySuffix_path|done].
Qed.

(** X9.  The tracked files are listed in ascending byte order; each of them
    ends, whatever the case of its letters, with one of the configured
    extensions, and none of them matches an ignore pattern. *)
Theorem tracked_files_sorted_and_filtered cfg (root : list entry) (p : string) :
  Sorted String.le (getAllTextFiles cfg root) ∧
  (p ∈ getAllTextFiles cfg root →
   hasAnySuffix p (Extensions cfg) = true ∧
   shouldIgnore p (IgnorePatterns cfg) = false).
Proof.
  split; [apply sortStrings_spec|apply tracked_listed].
Qed.

(** ** Directory patterns *)

Lemma directory_pattern (d : string) :
  HasSuffix (d +:+ "/*") "/*" = true ∧ TrimSuffix (d +:+ "/*") "/*" = d.
Proof.
  pose proof (HasSuffix_app d "/*") as H. split; [exact H|].
  unfold TrimSuffix. rewrite H, revString_app.
  change (revString "/*") with "*/". cbn [String.length].
  rewrite !append_cons, append_nil. cbn [dropBytes]. apply revString_involutive.
Qed.

(** X10.  A pattern [d/*] ignores the path [d] itself, every path below a
    directory [d] at the top, and every path that has [d] as a whole
    segment further down, whatever the glob matcher does.  So no tracked
    file lies in or below a directory named by such a pattern. *)
Theorem directory_pattern_ignores cfg (root : list entry) (d p : string) :
  d +:+ "/*" ∈ IgnorePatterns cfg →
  (p = d ∨ (∃ rest, p = d +:+ "/" +:+ rest) ∨
   (∃ pre, p = pre +:+ "/" +:+ d) ∨
   (∃ pre rest, p = pre +:+ "/" +:+ d +:+ "/" +:+ rest)) →
  shouldIgnore p (IgnorePatterns cfg) = true ∧ p ∉ getAllTextFiles cfg root.
Proof.
  intros Hpat Hp.
  assert (shouldIgnore p (IgnorePatterns cfg) = true) as Hign.
  { unfold shouldIgnore. apply existsb_exists. exists (d +:+ "/*").
    split; [by apply list_elem_of_In|].
    unfold ignoredBy. destruct (directory_pattern d) as [-> ->].
    destruct Hp as [->|[[rest ->]|[[pre ->]|(pre & rest & ->)]]].
    - pose proof (HasSuffix_app "" ("/" +:+ d)) as H. rewrite append_nil in H.
      rewrite H. apply orb_true_r.
    - unfold HasPrefix. rewrite <- (append_assoc d "/" rest), prefix_app.
      by rewrite orb_true_r.
    - replace ("/" +:+ pre +:+ "/" +:+ d) with (("/" +:+ pre) +:+ "/" +:+ d)
        by by rewrite append_assoc.
      rewrite (HasSuffix_app ("/" +:+ pre) ("/" +:+ d)). apply orb_true_r.
    - replace (pre +:+ "/" +:+ d +:+ "/" +:+ rest)
        with (pre +:+ ("/" +:+ d +:+ "/") +:+ rest) by by rewrite !append_assoc.
      by rewrite Contains_app. }
  split; [exact Hign|]. intros Hin.
  destruct (tracked_listed cfg root p Hin) as [_ Hno]. congruence.
Qed.

(** ** The entries of a rendered diff *)

Lemma rendersLine_further sign line lines e :
  rendersLine sign lines e → rendersLine sign (line :: lines) e.
Proof.
  intros (k & l & Hin & ?). exists k, l. split; [by apply list_elem_of_further|done].
Qed.

Lemma hunkHeader_lists line r :
  added (hunkHeader line r) = added r ∧ removed (hunkHeader line r) = removed r.
Proof.
  unfold hunkHeader. destruct (Fields line) as [|? [|? [|? ?]]]; done.
Qed.

Lemma plainLine_lists line r :
  (added (plainLine line r) = added r ∨
   ∃ k, added (plainLine line r) = added r ++ [annotate k line] ∧
        HasPrefix line "+" = true ∧ HasPrefix line "+++" = false) ∧
  (removed (plainLine line r) = removed r ∨
   ∃ k, removed (plainLine line r) = removed r ++ [annotate k line] ∧
        HasPrefix line "-" = true ∧ HasPrefix line "---" = false).
Proof.
  unfold plainLine.
  destruct (HasPrefix line "-") eqn:Hm, (HasPrefix line "---") eqn:Hmmm; cbn [andb negb];
    destruct (HasPrefix line "+") eqn:Hp, (HasPrefix line "+++") eqn:Hppp; cbn [andb negb];
    try destruct (HasPrefix line "\"); cbn [negb added removed];
    split; eauto.
Qed.

Lemma renderLoop_entries n : ∀ lines r, (length lines ≤ n)%nat →
  (∀ e, e ∈ added (renderLoop lines r) → e ∈ added r ∨ rendersLine "+" lines e) ∧
  (∀ e, e ∈ removed (renderLoop lines r) → e ∈ removed r ∨ rendersLine "-" lines e).
Proof.
  induction n as [|n IH]; intros lines r Hlen.
  { destruct lines; [|cbn in Hlen; lia]. cbn. split; intros e He; by left. }
  assert (∀ line rest,
    (∀ e, e ∈ added (renderLoop rest (plainLine line r)) →
          e ∈ added (plainLine line r) ∨ rendersLine "+" rest e) ∧
    (∀ e, e ∈ removed (renderLoop rest (plainLine line r)) →
          e ∈ removed (plainLine line r) ∨ rendersLine "-" rest e) →
    (∀ e, e ∈ added (renderLoop rest (plainLine line r)) →
          e ∈ added r ∨ rendersLine "+" (line :: rest) e) ∧
    (∀ e, e ∈ removed (renderLoop rest (plainLine line r)) →
          e ∈ removed r ∨ rendersLine "-" (line :: rest) e)) as Hplain.
  { intros line rest [Ha Hr]. destruct (plainLine_lists line r) as [Hpa Hpr].
    split; intros e He.
    - destruct (Ha e He) as [H|H]; [|right; by apply rendersLine_further].
      destruct Hpa as [Heq|(k & Heq & H1 & H3)]; rewrite Heq in H; [by left|].
      apply elem_of_app in H as [H| ->%list_elem_of_singleton]; [by left|].
      right. exists k, line. split; [apply list_elem_of_here|done].
    - destruct (Hr e He) as [H|H]; [|right; by apply rendersLine_further].
      destruct Hpr as [Heq|(k & Heq & H1 & H3)]; rewrite Heq in H; [by left|].
      apply elem_of_app in H as [H| ->%list_elem_of_singleton]; [by left|].
      right. exists k, line. split; [apply list_elem_of_here|done]. }
  destruct lines as [|line rest]; [cbn; split; intros e He; by left|].
  cbn [length] in Hlen. cbn [renderLoop].
  destruct (HasPrefix line "@@").
  { destruct (IH rest (hunkHeader line r)) as [Ha Hr]; [lia|].
    destruct (hunkHeader_lists line r) as [Hea Her]. rewrite Hea in Ha. rewrite Her in Hr.
    split; intros e He.
    - destruct (Ha e He); [by left|right; by apply rendersLine_further].
    - destruct (Hr e He); [by left|right; by apply rendersLine_further]. }
  destruct rest as [|next rest'].
  { apply Hplain, IH. cbn. lia. }
  destruct (churnPair line next).
  { destruct (IH rest' (mkRender (incr (oldLn r)) (incr (newLn r)) (added r) (removed r)))
      as [Ha Hr]; [cbn in Hlen; lia|].
    split; intros e He.
    - destruct (Ha e He); [by left|right; by do 2 apply rendersLine_further].
    - destruct (Hr e He); [by left|right; by do 2 apply rendersLine_further]. }
  apply Hplain, IH. lia.
Qed.

(** X11.  The changelog body of a diff is made of the two sections of the
    entries the loop collects, and the loop invents nothing: every entry
    under "Added" is the rendering of a line of the diff that begins
    with [+] and not with [+++], and every entry under "Removed" that of
    a line that begins with [-] and not with [---]. *)
Theorem render_entries_from_diff (diffText : string) :
  diffText ≠ "" →
  let lines := Split diffText (Ascii.ascii_of_nat 10) in
  let r := renderLoop lines (mkRender 0 0 [] []) in
  formatDiffAsMarkdown diffText =
    section "### ➕ Added" (added r) +:+ section "### ➖ Removed" (removed r) ∧
  (∀ e, e ∈ added r → rendersLine "+" lines e) ∧
  (∀ e, e ∈ removed r → rendersLine "-" lines e).
Proof.
  intros Hne lines r. split; [by destruct diffText|].
  destruct (renderLoop_entries (length lines) lines (mkRender 0 0 [] []) (le_n _))
    as [Ha Hr].
  fold r in Ha, Hr. split; intros e He.
  - destruct (Ha e He) as [H|H]; [by apply not_elem_of_nil in H|done].
  - destruct (Hr e He) as [H|H]; [by apply not_elem_of_nil in H|done].
Qed.

(** ** An update without the snapshot directory *)

(** X12.  When the snapshot directory is missing, a run that finds a change
    and bumps the version still appends the changelog entries, then
    prints the hint to initialize again and returns without error and
    without writing the fingerprints.  Nothing it did removes the cause:
    the snapshot is still missing and the fingerprint file is the old
    one, so the next run finds a change again. *)
Theorem update_without_snapshot ft ft' ts (s : Store) :
  gitnotDir s = true → detects ft s = true → bumpOk ft s = true →
  snapshot s = None → failLoadHashes ft' = failLoadHashes ft →
  let s' := run (effects (updateGitnot ft ts) s) s in
  result (updateGitnot ft ts) s = None ∧
  printed MsgSnapshotMissing (effects (updateGitnot ft ts) s) = true ∧
  versionFile s' = VNumber (reparse (bumped (versionOf s))) ∧
  hashesFile s' = hashesFile s ∧ snapshot s' = None ∧
  detects ft' s' = true.
Proof.
  intros Hinit Hdet Hbump Hsnap Hload s'.
  pose proof (update_version ft ts s) as Hver. cbn zeta in Hver.
  rewrite Hinit, Hdet, Hbump in Hver. cbn [andb] in Hver.
  apply bumpOk_read in Hbump as [Hread Hwrite].
  pose proof (update_run ft ts s _ Hinit Hdet Hread Hwrite) as Hrun. cbn zeta in Hrun.
  rewrite Hsnap in Hrun.
  set (ver := bumped (versionOf s)) in *.
  set (s1 := run [WriteVersion ver] s) in *.
  set (logs := effects (logAll _ _ _ _ _ _) s1) in *.
  assert (Forall (λ e, isLogEffect e = true) logs) as Hlogs by apply emits_logAll.
  assert (effects (updateGitnot ft ts) s =
          [WriteVersion ver] ++ logs ++ [Print MsgSnapshotMissing]) as Heff.
  { unfold effects at 1. by rewrite Hrun. }
  assert (hashesFile s' = hashesFile s) as Hh.
  { subst s'. rewrite Heff. apply run_hashesFile.
    rewrite !Forall_app. repeat split; [by repeat constructor| |by repeat constructor].
    eapply Forall_impl; [exact Hlogs|]. by intros []. }
  assert (snapshot s' = None) as Hs'.
  { subst s'. rewrite Heff, !run_app. fold s1.
    pose proof (run_snapshot_is_Some logs s1 Hlogs) as Hiff.
    change (snapshot s1) with (snapshot s) in Hiff. rewrite Hsnap in Hiff.
    cbn [run foldl exec]. destruct (snapshot (run logs s1)) eqn:Hl; [|done].
    destruct Hiff as [Hiff _]. by destruct Hiff. }
  split; [unfold result; by rewrite Hrun|].
  split.
  { rewrite Heff. unfold printed. rewrite !existsb_app. cbn.
    rewrite orb_true_r. reflexivity. }
  split; [exact Hver|]. split; [exact Hh|]. split; [exact Hs'|].
  rewrite <- Hdet. apply detects_frame; [done|exact Hh|apply run_workDir|].
  subst s'. rewrite Heff. apply run_configFile.
  rewrite !Forall_app. repeat split; [by repeat constructor| |by repeat constructor].
  eapply Forall_impl; [exact Hlogs|]. by intros [].
Qed.

(** ** The changelogs after [initGitnot] *)

Lemma appended_initFiles ft rel files : ∀ s hashes,
  (∀ f, failSnapMkdir ft f = false) → NoDup files →
  appended rel (effects (initFiles ft files hashes) s) =
  if bool_decide (rel ∈ files) && snapOk ft (workDir s) rel && negb (failAppend ft rel)
  then [originalLine rel] else [].
Proof.
  intros s hashes Hmk Hnd. revert s hashes.
  induction Hnd as [|f files Hf Hnd IH]; intros s hashes.
  { rewrite bool_decide_eq_false_2; [done|]. apply not_elem_of_nil. }
  cbn [initFiles]. rewrite Hmk, effects_look_bind.
  destruct (if failSnapCopy ft f then None else openFile (workDir s) f) as [c|] eqn:Hc.
  - assert (snapOk ft (workDir s) f = true) as Hok.
    { unfold snapOk. destruct (failSnapCopy ft f); [done|]. by rewrite Hc. }
    rewrite effects_bind. change (effects (perform (PutSnapshot f c)) s) with [PutSnapshot f c].
    rewrite effects_bind, !appended_app, appended_appendToFile, IH, !run_workDir.
    cbn [appended app].
    destruct (decide (f = rel)) as [->|Hne].
    + rewrite (bool_decide_eq_true_2 (rel = rel)) by done.
      rewrite (bool_decide_eq_false_2 (rel ∈ files)) by done.
      rewrite (bool_decide_eq_true_2 (rel ∈ rel :: files)) by apply list_elem_of_here.
      rewrite Hok. cbn [andb]. by destruct (failAppend ft rel).
    + rewrite (bool_decide_eq_false_2 (f = rel)) by done. cbn [app].
      rewrite (bool_decide_ext (rel ∈ f :: files) (rel ∈ files)); [done|].
      rewrite elem_of_cons. split; [intros [->|?]; done|by right].
  - assert (snapOk ft (workDir s) f = false) as Hno.
    { unfold snapOk. destruct (failSnapCopy ft f); [done|]. by rewrite Hc. }
    rewrite IH. destruct (decide (f = rel)) as [->|Hne].
    + rewrite (bool_decide_eq_false_2 (rel ∈ files)) by done.
      cbn [andb]. by rewrite Hno, andb_false_r.
    + rewrite (bool_decide_ext (rel ∈ f :: files) (rel ∈ files)); [done|].
      rewrite elem_of_cons. split; [intros [->|?]; done|by right].
Qed.

(** X13.  An initialization in which nothing fails but copies of files and
    appends adds one line, the line of the original version, at the end
    of the changelog of each tracked file that it copied, and leaves
    every other changelog as it was.  An earlier changelog is kept: a
    second initialization adds the line once more. *)
Theorem init_changelog_entry ft (s : Store) (rel : string) :
  (∀ d, failMkdirAll ft d = false) → failSaveConfig ft = false →
  (∀ f, failSnapMkdir ft f = false) → failSaveHashes ft = false →
  failWriteVersion ft = false →
  NoDup (trackedFiles s) →
  changelogs (run (effects (initGitnot ft) s) s) !! rel =
  if bool_decide (rel ∈ trackedFiles s) && snapOk ft (workDir s) rel &&
     negb (failAppend ft rel)
  then Some (default "" (changelogs s !! rel) +:+ originalLine rel)
  else changelogs s !! rel.
Proof.
  intros Hmk Hcfg Hsm Hsave Hwrite Hnd.
  pose proof (initGitnot_run ft s Hmk Hcfg Hsm Hsave Hwrite) as Hrun. cbn zeta in Hrun.
  set (setup := [MakeDir SnapshotDir; MakeDir ChangelogDir; MakeDir DeletedDir] ++ _) in *.
  set (s1 := run setup s) in *.
  assert (workDir s1 = workDir s) as Hw by apply run_workDir.
  assert (appended rel setup = []) as Hsetup.
  { subst setup. by destruct (configFile s). }
  rewrite run_appended. unfold effects at 1. rewrite Hrun. cbn [snd].
  rewrite !appended_app, Hsetup, (appended_initFiles ft rel _ s1 ∅ Hsm Hnd), Hw.
  cbn [app appended]. rewrite app_nil_r.
  by destruct (bool_decide (rel ∈ trackedFiles s) && snapOk ft (workDir s) rel &&
               negb (failAppend ft rel)).
Qed.

(** ** Extensions *)

Lemma lowerAscii_idemp c : lowerAscii (lowerAscii c) = lowerAscii c.
Proof. by destruct c as [[] [] [] [] [] [] [] []]. Qed.

Lemma ToLower_idemp s : ToLower (ToLower s) = ToLower s.
Proof. induction s as [|c s IH]; [done|]. cbn. by rewrite lowerAscii_idemp, IH. Qed.

(** X14.  The test of the extension does not look at the case of letters,
    neither in the name nor in the configured extensions, and a name
    that ends with a configured extension passes it; so an empty
    extension in the configuration lets every name pass. *)
Theorem extension_match_ignores_case (name : string) (exts : list string) :
  hasAnySuffix name exts = hasAnySuffix (ToLower name) (ToLower <$> exts) ∧
  (∀ stem e, e ∈ exts → hasAnySuffix (stem +:+ e) exts = true) ∧
  ("" ∈ exts → hasAnySuffix name exts = true).
Proof.
  assert (∀ stem e, e ∈ exts → hasAnySuffix (stem +:+ e) exts = true) as Hsuf.
  { intros stem e He. unfold hasAnySuffix. apply existsb_exists. exists e.
    split; [by apply list_elem_of_In|]. rewrite ToLower_app. apply HasSuffix_app. }
  split; [|split; [exact Hsuf|]].
  - unfold hasAnySuffix. rewrite ToLower_idemp. clear Hsuf.
    induction exts as [|e exts IH]; [done|].
    cbn [existsb fmap list_fmap]. by rewrite ToLower_idemp, IH.
  - intros He. rewrite <- (append_empty_r name). by apply Hsuf.
Qed.

(** ** Hunk headers *)

Lemma digitChar_digit d : 0 ≤ d < 10 → digitOf (digitChar d) = Some d.
Proof.
  intros H.
  assert (d = 0 ∨ d = 1 ∨ d = 2 ∨ d = 3 ∨ d = 4 ∨ d = 5 ∨ d = 6 ∨ d = 7 ∨ d = 8 ∨ d = 9)
    as Hd by lia.
  repeat destruct Hd as [->|Hd]; try subst d; reflexivity.
Qed.

Lemma natDigits_digitsOnly fuel : ∀ n acc,
  0 ≤ n → digitsOnly acc = true → digitsOnly (natDigits fuel n acc) = true.
Proof.
  induction fuel as [|fuel IH]; intros n acc Hn Hacc; [done|].
  cbn [natDigits].
  assert (digitsOnly (String (digitChar (n mod 10)) acc) = true) as Hd.
  { cbn [digitsOnly]. unfold isDigit. rewrite digitChar_digit, Hacc; [done|].
    apply Z.mod_pos_bound. lia. }
  destruct (n <? 10); [done|]. apply IH; [|done]. apply Z.div_pos; lia.
Qed.

Lemma digitsValue_natDigits fuel : ∀ n acc,
  0 ≤ n < 2 ^ Z.of_nat fuel →
  digitsValue (natDigits fuel n acc) 0 = digitsValue acc n.
Proof.
  induction fuel as [|fuel IH]; intros n acc Hn.
  { cbn in Hn. cbn. by replace n with 0 by lia. }
  cbn [natDigits]. destruct (Z.ltb_spec n 10) as [Hlt|Hge].
  - cbn [digitsValue]. rewrite digitChar_digit by (apply Z.mod_pos_bound; lia).
    f_equal. rewrite Z.mod_small; lia.
  - rewrite IH.
    + cbn [digitsValue]. rewrite digitChar_digit by (apply Z.mod_pos_bound; lia).
      f_equal. pose proof (Z.div_mod n 10). lia.
    + rewrite Nat2Z.inj_succ, Z.pow_succ_r in Hn by lia.
      split; [apply Z.div_pos; lia|].
      apply Z.div_lt_upper_bound; lia.
Qed.

Lemma Itoa_nonneg a :
  0 ≤ a → Itoa a = natDigits (S (Z.to_nat (Z.log2 a))) a "" ∧ 0 ≤ a < 2 ^ Z.of_nat (S (Z.to_nat (Z.log2 a))).
Proof.
  intros Ha. unfold Itoa. rewrite Z.abs_eq by done.
  destruct (Z.ltb_spec a 0); [lia|]. split; [done|].
  rewrite Nat2Z.inj_succ, Z2Nat.id by apply Z.log2_nonneg.
  destruct (decide (a = 0)) as [->|Hne]; [done|].
  pose proof (Z.log2_spec a). lia.
Qed.

Lemma natDigits_nonempty fuel : ∀ n acc, acc ≠ "" → natDigits fuel n acc ≠ "".
Proof.
  induction fuel as [|fuel IH]; intros n acc Hacc; [done|].
  cbn [natDigits]. destruct (n <? 10); [done|]. by apply IH.
Qed.

Lemma Itoa_digits a : 0 ≤ a → digitsOnly (Itoa a) = true ∧ Itoa a ≠ "".
Proof.
  intros Ha. destruct (Itoa_nonneg a Ha) as [-> _]. split.
  - by apply natDigits_digitsOnly.
  - cbn [natDigits]. destruct (a <? 10); [done|]. by apply natDigits_nonempty.
Qed.

Lemma Atoi_digitsOnly s :
  digitsOnly s = true → s ≠ "" →
  Atoi s = match digitsValue s 0 with
           | Some z => if (minInt <=? z) && (z <=? maxInt) then Some z else None
           | None => None
           end.
Proof.
  intros Hd Hne. destruct s as [|c r]; [done|].
  cbn [digitsOnly] in Hd. apply andb_true_iff in Hd as [Hc _].
  destruct c as [[] [] [] [] [] [] [] []]; try discriminate Hc; reflexivity.
Qed.

(** Reading back the decimal text of an [int] that is not negative. *)
Lemma Atoi_Itoa a : 0 ≤ a ≤ maxInt → Atoi (Itoa a) = Some a.
Proof.
  intros Ha. destruct (Itoa_digits a) as [Hd Hne]; [lia|].
  rewrite (Atoi_digitsOnly _ Hd Hne).
  destruct (Itoa_nonneg a) as [-> Hb]; [lia|].
  rewrite digitsValue_natDigits by done. cbn [digitsValue].
  assert (minInt ≤ 0) as Hmin by done.
  assert ((minInt <=? a) = true) as -> by (apply Z.leb_le; lia).
  assert ((a <=? maxInt) = true) as -> by (apply Z.leb_le; lia).
  done.
Qed.

Lemma digit_plain c :
  isDigit c = true → isSpace c = false ∧ c ≠ ","%char.
Proof. destruct c as [[] [] [] [] [] [] [] []]; try discriminate; done. Qed.

Lemma noSpace_app (a b : string) : noSpace (a +:+ b) = noSpace a && noSpace b.
Proof.
  induction a as [|c a IH]; [done|]. rewrite append_cons. cbn [noSpace].
  by rewrite IH, andb_assoc.
Qed.

Lemma digitsOnly_noSpace w : digitsOnly w = true → noSpace w = true.
Proof.
  induction w as [|c w IH]; [done|]. cbn [digitsOnly noSpace].
  intros [Hc Hw]%andb_true_iff. destruct (digit_plain c Hc) as [-> _]. by apply IH.
Qed.

Lemma fieldsAux_word w : ∀ rest cur,
  noSpace w = true →
  fieldsAux (w +:+ rest) cur = fieldsAux rest (rev (String.list_ascii_of_string w) ++ cur).
Proof.
  induction w as [|c w IH]; intros rest cur Hd; [done|].
  cbn [noSpace] in Hd. apply andb_true_iff in Hd as [Hc Hw].
  apply negb_true_iff in Hc.
  rewrite append_cons. cbn [fieldsAux]. rewrite Hc.
  rewrite IH by done. cbn [String.list_ascii_of_string rev].
  by rewrite <- app_assoc.
Qed.

(** A field that ends at a space. *)
Lemma fieldsAux_field w rest cur :
  noSpace w = true → w ≠ "" →
  fieldsAux (w +:+ String " " rest) cur =
  String.string_of_list_ascii (rev cur ++ String.list_ascii_of_string w) ::
  fieldsAux rest [].
Proof.
  intros Hw Hne. rewrite fieldsAux_word by done. cbn [fieldsAux].
  change (isSpace " ") with true. cbn iota.
  rewrite rev_app_distr, rev_involutive.
  destruct (rev (String.list_ascii_of_string w) ++ cur) eqn:Hnil; [|done].
  apply app_eq_nil in Hnil as [Hnil _]. apply (f_equal (@rev ascii)) in Hnil.
  rewrite rev_involutive in Hnil. destruct w; done.
Qed.

Lemma rangeText_word x l :
  0 ≤ x → (∀ y, l = Some y → 0 ≤ y) →
  noSpace (rangeText x l) = true ∧ rangeText x l ≠ "".
Proof.
  intros Hx Hl. destruct (Itoa_digits x Hx) as [Hd Hne].
  destruct l as [y|]; cbn [rangeText].
  - destruct (Itoa_digits y (Hl y eq_refl)) as [Hdy _]. split.
    + rewrite !noSpace_app, (digitsOnly_noSpace (Itoa x)), (digitsOnly_noSpace (Itoa y))
        by done.
      reflexivity.
    + destruct (Itoa x); done.
  - split; [by apply digitsOnly_noSpace|done].
Qed.

Lemma Split_nonempty s sep : Split s sep ≠ [].
Proof.
  induction s as [|c s IH]; [done|]. cbn [Split].
  case_bool_decide; [done|]. by destruct (Split s sep).
Qed.

Lemma Split_digits w : ∀ rest,
  digitsOnly w = true →
  Split (w +:+ rest) "," =
  match Split rest "," with
  | h :: t => (w +:+ h) :: t
  | [] => [w]
  end.
Proof.
  induction w as [|c w IH]; intros rest Hd.
  { rewrite append_nil. pose proof (Split_nonempty rest ",").
    by destruct (Split rest ","). }
  cbn [digitsOnly] in Hd. apply andb_true_iff in Hd as [Hc Hw].
  rewrite append_cons. cbn [Split]. destruct (digit_plain c Hc) as [_ Hcomma].
  rewrite bool_decide_eq_false_2 by done. rewrite IH by done.
  destruct (Split rest ","); by rewrite ?append_cons.
Qed.

Lemma hunkStart_range (sign : ascii) a len :
  0 ≤ a ≤ maxInt → sign ≠ ","%char →
  hunkStart (String sign (rangeText a len)) (String sign "") = Some a.
Proof.
  intros Ha Hsign. destruct (Itoa_digits a) as [Hd Hne]; [lia|].
  assert (∃ t, Split (String sign (rangeText a len)) "," = String sign (Itoa a) :: t)
    as [t Ht].
  { cbn [Split]. rewrite bool_decide_eq_false_2 by done.
    destruct len as [l|]; cbn [rangeText].
    - rewrite Split_digits by done. rewrite append_cons, append_nil. cbn [Split].
      rewrite bool_decide_eq_true_2 by done. rewrite append_empty_r. eauto.
    - pose proof (Split_digits (Itoa a) "" Hd) as Hs.
      rewrite append_empty_r in Hs. rewrite Hs. cbn [Split].
      rewrite append_empty_r. eauto. }
  unfold hunkStart. rewrite Ht. unfold TrimPrefix, HasPrefix. cbn [String.prefix].
  destruct (ascii_dec sign sign); [|done]. rewrite prefix_nil. cbn [String.length dropBytes].
  by apply Atoi_Itoa.
Qed.

Lemma hunkHeader_hunkLine (a c : Z) (la lc : option Z) (r : Render) :
  0 ≤ a ≤ maxInt → 0 ≤ c ≤ maxInt →
  (∀ l, la = Some l → 0 ≤ l) → (∀ l, lc = Some l → 0 ≤ l) →
  hunkHeader (hunkLine a la c lc) r = mkRender a c (added r) (removed r).
Proof.
  intros Ha Hc Hla Hlc.
  destruct (rangeText_word a la) as [Hwa Hnea]; [lia|done|].
  destruct (rangeText_word c lc) as [Hwc Hnec]; [lia|done|].
  unfold hunkHeader, hunkLine, Fields.
  rewrite !append_cons, !append_nil. cbn [fieldsAux].
  change (isSpace "@") with false. change (isSpace " ") with true.
  change (isSpace "-") with false. cbn iota.
  rewrite (fieldsAux_field (rangeText a la)) by done.
  cbn [fieldsAux].
  change (isSpace "+") with false. cbn iota.
  rewrite (fieldsAux_field (rangeText c lc)) by done.
  cbn [rev app String.string_of_list_ascii].
  rewrite !String.string_of_list_ascii_of_string.
  rewrite (hunkStart_range "-" a la), (hunkStart_range "+" c lc) by (lia || done).
  done.
Qed.

(** X15.  The header of a hunk, in either of the forms of its two ranges, sets
    the counter of the old side to the start of the old range and the
    counter of the new side to the start of the new range, and leaves
    the collected entries alone. *)
Theorem hunk_header_sets_counters (a c : Z) (la lc : option Z) (r : Render) :
  0 ≤ a ≤ maxInt → 0 ≤ c ≤ maxInt →
  (∀ l, la = Some l → 0 ≤ l) → (∀ l, lc = Some l → 0 ≤ l) →
  HasPrefix (hunkLine a la c lc) "@@" = true ∧
  hunkHeader (hunkLine a la c lc) r = mkRender a c (added r) (removed r).
Proof.
  intros Ha Hc Hla Hlc. split; [reflexivity|]. by apply hunkHeader_hunkLine.
Qed.

(** ** Hunk after hunk *)

Lemma renderLoop_single line r :
  HasPrefix line "@@" = false → renderLoop [line] r = plainLine line r.
Proof. intros H. cbn [renderLoop]. by rewrite H. Qed.

(** The loop reads a list of lines part by part, when the second part
    does not begin with an added line, which the look-ahead at the end of
    the first part could pair with a removed line. *)
Lemma renderLoop_app_aux n : ∀ l1 l2 r,
  (length l1 ≤ n)%nat →
  match l2 with b :: _ => HasPrefix b "+" = false | [] => True end →
  renderLoop (l1 ++ l2) r = renderLoop l2 (renderLoop l1 r).
Proof.
  induction n as [|n IH]; intros l1 l2 r Hlen Hb.
  { destruct l1; [done|cbn in Hlen; lia]. }
  destruct l1 as [|line rest1]; [done|]. cbn [length] in Hlen.
  cbn [app renderLoop]. destruct (HasPrefix line "@@") eqn:Hh.
  { apply IH; [lia|done]. }
  destruct rest1 as [|next rest1'].
  - cbn [app]. destruct l2 as [|b l2']; [done|].
    assert (churnPair line b = false) as ->.
    { unfold churnPair. by rewrite Hb, andb_false_r. }
    done.
  - cbn [app]. destruct (churnPair line next).
    + apply IH; [cbn in Hlen; lia|done].
    + apply (IH (next :: rest1')); [lia|done].
Qed.

(** X20.  A diff is rendered hunk after hunk: the lines before the header
    of a hunk pass on the entries they gave and nothing else, since the
    header sets both counters; so the entries of a hunk, their labels
    included, do not depend on the hunks before it. *)
Theorem render_hunk_by_hunk (l1 l2 : list string) (a c : Z) (la lc : option Z)
    (r : Render) :
  0 ≤ a ≤ maxInt → 0 ≤ c ≤ maxInt →
  (∀ l, la = Some l → 0 ≤ l) → (∀ l, lc = Some l → 0 ≤ l) →
  let r1 := renderLoop l1 r in
  renderLoop (l1 ++ hunkLine a la c lc :: l2) r =
  renderLoop l2 (mkRender a c (added r1) (removed r1)).
Proof.
  intros Ha Hc Hla Hlc r1.
  rewrite (renderLoop_app_aux (length l1)); [|done|reflexivity].
  rewrite renderLoop_hunk by reflexivity. fold r1.
  by rewrite hunkHeader_hunkLine.
Qed.

Lemma HasPrefix_cons c (x pre : string) :
  HasPrefix (String c x) (String c pre) = HasPrefix x pre.
Proof. unfold HasPrefix. cbn [String.prefix]. by destruct (ascii_dec c c). Qed.

Lemma incr_small n : 0 ≤ n < maxInt → incr n = n + 1.
Proof.
  unfold incr, wrapInt, maxInt. intros Hn. rewrite Z.mod_small; lia.
Qed.

Lemma renderLoop_context ctx : ∀ rest r,
  Forall (λ l, HasPrefix l " " = true) ctx →
  0 ≤ oldLn r → 0 ≤ newLn r →
  oldLn r + Z.of_nat (length ctx) ≤ maxInt →
  newLn r + Z.of_nat (length ctx) ≤ maxInt →
  renderLoop (ctx ++ rest) r =
  renderLoop rest (mkRender (oldLn r + Z.of_nat (length ctx))
                            (newLn r + Z.of_nat (length ctx)) (added r) (removed r)).
Proof.
  induction ctx as [|line ctx IH]; intros rest r Hctx Ho Hn Hob Hnb.
  { cbn [app length]. rewrite !Z.add_0_r. by destruct r. }
  apply Forall_cons in Hctx as [Hline Hctx].
  destruct (prefix_head _ _ _ Hline) as [text ->].
  cbn [length] in Hob, Hnb. rewrite Nat2Z.inj_succ in Hob, Hnb.
  cbn [app]. rewrite renderLoop_plain; [|reflexivity|by destruct (ctx ++ rest)].
  rewrite plainLine_context by reflexivity.
  rewrite !incr_small by lia.
  rewrite IH; cbn [oldLn newLn added removed]; try done; try lia.
  cbn [length]. rewrite Nat2Z.inj_succ. do 2 f_equal; lia.
Qed.

(** X21.  The first change of a hunk carries the number of its line: after
    the header of a hunk that starts at the old line [a] and the new
    line [c], and [k] lines of context, an added line is listed under
    the label of the new line [c + k] and a removed line under the label
    of the old line [a + k], each with its text trimmed, and the
    counters go on from there.  The added text must not begin with two
    plus signs, nor the removed text with two dashes, and the removed
    line must not be followed by an added line of the same trimmed
    text. *)
Theorem first_change_label (a c : Z) (la lc : option Z) (ctx : list string)
    (x : string) (rest : list string) (r : Render) :
  0 ≤ a → 0 ≤ c →
  a + Z.of_nat (length ctx) < maxInt → c + Z.of_nat (length ctx) < maxInt →
  (∀ l, la = Some l → 0 ≤ l) → (∀ l, lc = Some l → 0 ≤ l) →
  Forall (λ l, HasPrefix l " " = true) ctx →
  let k := Z.of_nat (length ctx) in
  (HasPrefix x "++" = false →
   renderLoop (hunkLine a la c lc :: ctx ++ ("+" +:+ x) :: rest) r =
   renderLoop rest
     (mkRender (a + k) (c + k + 1)
               (added r ++ ["L" +:+ Itoa (c + k) +:+ ": " +:+ TrimSpace x]) (removed r))) ∧
  (HasPrefix x "--" = false →
   match rest with
   | next :: _ => churnPair ("-" +:+ x) next = false
   | [] => True
   end →
   renderLoop (hunkLine a la c lc :: ctx ++ ("-" +:+ x) :: rest) r =
   renderLoop rest
     (mkRender (a + k + 1) (c + k) (added r)
               (removed r ++ ["L" +:+ Itoa (a + k) +:+ ": " +:+ TrimSpace x]))).
Proof.
  intros Ha Hc Hak Hck Hla Hlc Hctx k.
  assert (∀ tail,
    renderLoop (hunkLine a la c lc :: ctx ++ tail) r =
    renderLoop tail (mkRender (a + k) (c + k) (added r) (removed r))) as Hhead.
  { intros tail. rewrite renderLoop_hunk by reflexivity.
    rewrite hunkHeader_hunkLine by (lia || done).
    rewrite renderLoop_context; cbn [oldLn newLn added removed]; try done; lia. }
  split.
  - intros Hx. rewrite Hhead, append_cons, append_nil.
    rewrite renderLoop_plain; [|reflexivity|by destruct rest].
    rewrite plainLine_added;
      [|rewrite HasPrefix_cons; apply prefix_nil|by rewrite HasPrefix_cons].
    cbn [oldLn newLn added removed]. rewrite incr_small by lia.
    reflexivity.
  - intros Hx Hnext. rewrite Hhead, append_cons, append_nil.
    rewrite append_cons, append_nil in Hnext.
    rewrite renderLoop_plain; [|reflexivity|exact Hnext].
    rewrite plainLine_removed;
      [|rewrite HasPrefix_cons; apply prefix_nil|by rewrite HasPrefix_cons].
    cbn [oldLn newLn added removed]. rewrite incr_small by lia.
    reflexivity.
Qed.

(** ** Patterns that are plain names *)

Lemma noSlash_rev_aux (l : list ascii) :
  noSlash (String.string_of_list_ascii (rev l)) = noSlash (String.string_of_list_ascii l).
Proof.
  assert (∀ l1 l2, noSlash (String.string_of_list_ascii (l1 ++ l2)) =
                   noSlash (String.string_of_list_ascii l1) &&
                   noSlash (String.string_of_list_ascii l2)) as Happ.
  { intros l1 l2. induction l1 as [|c l1 IH]; [done|]. cbn. by rewrite IH, andb_assoc. }
  induction l as [|c l IH]; [done|].
  cbn [rev]. rewrite Happ, IH. cbn. rewrite andb_true_r. apply andb_comm.
Qed.

Lemma noSlash_revString s : noSlash (revString s) = noSlash s.
Proof.
  unfold revString. by rewrite noSlash_rev_aux, String.string_of_list_ascii_of_string.
Qed.

Lemma upToSlash_app (w rest : string) :
  noSlash w = true → upToSlash (w +:+ String "/" rest) = w.
Proof.
  induction w as [|c w IH]; [done|]. cbn [noSlash].
  intros [Hc Hw]%andb_true_iff. apply negb_true_iff, bool_decide_eq_false in Hc.
  rewrite append_cons. cbn [upToSlash]. rewrite IH by done.
  destruct c as [[] [] [] [] [] [] [] []]; done.
Qed.

Lemma dropSlashes_word (w : string) : noSlash w = true → dropSlashes w = w.
Proof.
  destruct w as [|c w]; [done|]. cbn [noSlash].
  intros [Hc _]%andb_true_iff. apply negb_true_iff, bool_decide_eq_false in Hc.
  destruct c as [[] [] [] [] [] [] [] []]; done.
Qed.

Lemma dropSlashes_app (w rest : string) :
  noSlash w = true → w ≠ "" → dropSlashes (w +:+ rest) = w +:+ rest.
Proof.
  destruct w as [|c w]; [done|]. cbn [noSlash].
  intros [Hc _]%andb_true_iff _. apply negb_true_iff, bool_decide_eq_false in Hc.
  rewrite append_cons. destruct c as [[] [] [] [] [] [] [] []]; done.
Qed.

Lemma revString_nonempty s : s ≠ "" → revString s ≠ "".
Proof.
  intros Hne Hrev. apply (f_equal revString) in Hrev.
  by rewrite revString_involutive in Hrev.
Qed.

(** [path.Base] of a file name below a directory. *)
Lemma Base_join (dir name : string) :
  noSlash name = true → name ≠ "" → Base (dir +:+ "/" +:+ name) = name.
Proof.
  intros Hns Hne. unfold Base.
  destruct (dir +:+ "/" +:+ name) eqn:Hp.
  { destruct dir; done. }
  rewrite <- Hp, !revString_app. change (revString "/") with "/".
  rewrite append_assoc, append_cons, append_nil.
  pose proof (revString_nonempty name Hne) as Hrne.
  rewrite dropSlashes_app by (by rewrite ?noSlash_revString).
  destruct (revString name +:+ String "/" (revString dir)) eqn:Hr.
  { destruct (revString name); done. }
  rewrite <- Hr, upToSlash_app by (by rewrite noSlash_revString).
  apply revString_involutive.
Qed.

Lemma Base_name (name : string) : noSlash name = true → name ≠ "" → Base name = name.
Proof.
  intros Hns Hne. unfold Base. destruct name as [|c0 n0]; [done|].
  set (name := String c0 n0) in *.
  pose proof (revString_nonempty name Hne) as Hrne.
  rewrite dropSlashes_word by (by rewrite noSlash_revString).
  destruct (revString name) as [|c' r'] eqn:Hr; [done|]. rewrite <- Hr.
  assert (upToSlash (revString name) = revString name) as ->.
  { assert (∀ w, noSlash w = true → upToSlash w = w) as H.
    { induction w as [|x w IH]; [done|]. cbn [noSlash].
      intros [Hx Hw]%andb_true_iff. apply negb_true_iff, bool_decide_eq_false in Hx.
      cbn [upToSlash]. rewrite IH by done. destruct x as [[] [] [] [] [] [] [] []]; done. }
    apply H. by rewrite noSlash_revString. }
  apply revString_involutive.
Qed.

Lemma noSlash_not_directory_pattern (name : string) :
  noSlash name = true → HasSuffix name "/*" = false.
Proof.
  intros Hns. unfold HasSuffix. change (revString "/*") with "*/".
  rewrite <- noSlash_revString in Hns.
  destruct (revString name) as [|c1 [|c2 r]]; [done| |].
  - cbn [String.prefix]. by destruct (ascii_dec "*" c1).
  - cbn [noSlash] in Hns. apply andb_true_iff in Hns as [_ [Hc2 _]%andb_true_iff].
    apply negb_true_iff, bool_decide_eq_false in Hc2.
    cbn [String.prefix]. destruct (ascii_dec "*" c1); [|done].
    destruct (ascii_dec "/" c2); [|done]. by subst.
Qed.

(** X16.  A pattern that is a plain file name, without wildcard and without
    slash, ignores the file of that name in the working directory and in
    every directory below it, whatever the glob matcher does; so no file
    of that name is tracked. *)
Theorem name_pattern_ignores cfg (root : list entry) (name p : string) :
  name ∈ IgnorePatterns cfg →
  name ≠ "" → noSlash name = true → ContainsGlobMeta name = false →
  (p = name ∨ ∃ dir, p = dir +:+ "/" +:+ name) →
  shouldIgnore p (IgnorePatterns cfg) = true ∧ p ∉ getAllTextFiles cfg root.
Proof.
  intros Hpat Hne Hns Hglob Hp.
  assert (Base p = name) as Hbase.
  { destruct Hp as [->|[dir ->]]; [by apply Base_name|by apply Base_join]. }
  assert (shouldIgnore p (IgnorePatterns cfg) = true) as Hign.
  { unfold shouldIgnore. apply existsb_exists. exists name.
    split; [by apply list_elem_of_In|].
    unfold ignoredBy. rewrite noSlash_not_directory_pattern, Hglob by done.
    by apply bool_decide_eq_true_2. }
  split; [exact Hign|]. intros Hin.
  destruct (tracked_listed cfg root p Hin) as [_ Hno]. congruence.
Qed.

(** ** Files that become unreadable *)

Lemma sentinel_not_digest (name : string) (c : string) :
  "unreadable-" +:+ name ≠ hexString (sha1Sum c).
Proof.
  intros H. pose proof (hexString_hex (sha1Sum c) (sha1Sum_range c)) as Hhex.
  rewrite <- H in Hhex. rewrite append_cons in Hhex. discriminate Hhex.
Qed.

(** X17.  The word that stands for the fingerprint of a file that does not
    open is never a SHA-1 in hexadecimal.  So a tracked file that could
    be read when its fingerprint was stored and can no longer be opened
    is classified as changed, and so is one that can be read again; a
    file that still cannot be opened is classified as unchanged. *)
Theorem readability_change_detected (old : gmap string string) (root : list entry)
    (files : list string) (p c : string) :
  p ∈ files →
  let cur := currentHashes root files in
  (old !! p = Some (hexString (sha1Sum c)) → openFile root p = None →
     p ∈ changedFiles old cur) ∧
  (old !! p = Some ("unreadable-" +:+ Base p) → openFile root p = Some c →
     p ∈ changedFiles old cur) ∧
  (old !! p = Some ("unreadable-" +:+ Base p) → openFile root p = None →
     p ∈ unchangedFiles old cur).
Proof.
  intros Hin cur.
  assert (cur !! p = Some (hashFile root p)) as Hcur.
  { unfold cur. rewrite currentHashes_lookup. by destruct (decide (p ∈ files)). }
  repeat split.
  - intros Hold Hopen. apply elem_of_changedFiles. eexists _, _.
    split; [exact Hcur|]. split; [exact Hold|].
    unfold hashFile. rewrite Hopen. intros Heq. by apply (sentinel_not_digest (Base p) c).
  - intros Hold Hopen. apply elem_of_changedFiles. eexists _, _.
    split; [exact Hcur|]. split; [exact Hold|].
    rewrite (hashFile_readable root p c Hopen). apply sentinel_not_digest.
  - intros Hold Hopen. apply elem_of_unchangedFiles. eexists.
    split; [exact Hcur|]. rewrite Hold. unfold hashFile. by rewrite Hopen.
Qed.

(** ** An update without the fingerprints *)

(** X18.  When the fingerprint file is missing or does not load, the
    update compares with the empty map: every tracked file is classified
    as new, whatever its changelog and the snapshot hold, no file is
    classified as changed or as deleted, and the entry that the run
    appends for a tracked file is that of a new file. *)
Theorem lost_fingerprints_all_new ft (s : Store) (p : string) :
  failLoadHashes ft = true ∨ hashesFile s = None →
  (p ∈ newFiles (loadHashes ft s) (currentOf s) ↔ p ∈ trackedFiles s) ∧
  changedFiles (loadHashes ft s) (currentOf s) = [] ∧
  deletedFiles (loadHashes ft s) (currentOf s) = [] ∧
  (p ∈ trackedFiles s → entryBody ft s p = Some ("📄 New file added." +:+ nl)).
Proof.
  intros Hlost.
  assert (loadHashes ft s = ∅) as Hold.
  { unfold loadHashes. destruct Hlost as [->| ->]; [done|]. by destruct (failLoadHashes ft). }
  assert (p ∈ newFiles (loadHashes ft s) (currentOf s) ↔ p ∈ trackedFiles s) as Hnew.
  { rewrite Hold, elem_of_newFiles, lookup_empty. unfold currentOf.
    rewrite currentHashes_lookup. split.
    - intros [[h Hh] _]. by destruct (decide (p ∈ trackedFiles s)).
    - intros Hin. split; [|done]. destruct (decide (p ∈ trackedFiles s)); [eauto|done]. }
  split; [exact Hnew|]. rewrite Hold. split; [|split].
  - apply list_empty_if_no_elem. intros q.
    rewrite elem_of_changedFiles. intros (? & ? & _ & H & _). by rewrite lookup_empty in H.
  - apply list_empty_if_no_elem. intros q.
    rewrite elem_of_deletedFiles. intros [[? H] _]. by rewrite lookup_empty in H.
  - intros Hin. unfold entryBody.
    by rewrite bool_decide_eq_true_2 by by apply Hnew.
Qed.

(** ** An initialization that fails *)

Lemma emits_makeDirs ft ds :
  emits (λ e, writesVersion e = false ∧ writesHashes e = false) (makeDirs ft ds).
Proof.
  induction ds as [|d ds IH]; cbn [makeDirs]; repeat first [apply IH | emits_step]; done.
Qed.

Lemma emits_ensureConfig ft :
  emits (λ e, writesVersion e = false ∧ writesHashes e = false) (ensureConfig ft).
Proof. unfold ensureConfig. repeat emits_step; done. Qed.

Lemma emits_initFiles ft files : ∀ hashes,
  emits (λ e, writesVersion e = false ∧ writesHashes e = false)
        (initFiles ft files hashes).
Proof.
  induction files as [|f files IH]; intros hashes; cbn [initFiles];
    unfold appendToFile; repeat first [apply IH | emits_step]; done.
Qed.

Lemma initTracked_failure ft s e :
  result (initTracked ft) s = Some e →
  Forall (λ ef, writesVersion ef = false ∧ (e ≠ ErrWriteVersion → writesHashes ef = false))
         (effects (initTracked ft) s).
Proof.
  unfold initTracked. rewrite result_look_bind, effects_look_bind, result_bind, effects_bind.
  pose proof (emits_initFiles ft (trackedFiles s) ∅ s) as Hfiles.
  assert (Forall (λ ef, writesVersion ef = false ∧
                        (e ≠ ErrWriteVersion → writesHashes ef = false))
                 (effects (initFiles ft (trackedFiles s) ∅) s)) as Hes.
  { eapply Forall_impl; [exact Hfiles|]. by intros ? [? ?]. }
  destruct (result (initFiles ft (trackedFiles s) ∅) s) as [e'|h].
  { intros _. apply Forall_app. split; [exact Hes|constructor]. }
  destruct (failSaveHashes ft).
  { intros _. apply Forall_app. split; [exact Hes|constructor]. }
  rewrite result_bind, effects_bind, result_bind, effects_bind.
  change (effects (perform (WriteHashes h)) ?x) with [WriteHashes h].
  unfold writeVersion. destruct (failWriteVersion ft).
  - intros [= <-]. rewrite !Forall_app. split; [exact Hes|].
    split; [|split; constructor]. apply Forall_cons. split; [|constructor].
    split; [done|]. intros Hne. by destruct Hne.
  - intros [=].
Qed.

(** X19.  An initialization that returns an error has not written the
    version file, and unless the error is that of the write of the
    version, it has not written the fingerprint file either: both are
    what they were, whatever was copied into the snapshot before the
    failure. *)
Theorem init_failure_keeps_version ft (s : Store) (e : Error) :
  result (initGitnot ft) s = Some e →
  let s' := run (effects (initGitnot ft) s) s in
  versionFile s' = versionFile s ∧
  (e ≠ ErrWriteVersion → hashesFile s' = hashesFile s).
Proof.
  intros Hres s'.
  assert (Forall (λ ef, writesVersion ef = false ∧
                        (e ≠ ErrWriteVersion → writesHashes ef = false))
                 (effects (initGitnot ft) s)) as Hall.
  { revert Hres. unfold initGitnot. rewrite result_bind, effects_bind.
    pose proof (emits_makeDirs ft [SnapshotDir; ChangelogDir; DeletedDir] s) as Hmd.
    set (es1 := effects (makeDirs ft [SnapshotDir; ChangelogDir; DeletedDir]) s) in *.
    assert (Forall (λ ef, writesVersion ef = false ∧
                          (e ≠ ErrWriteVersion → writesHashes ef = false)) es1) as H1.
    { eapply Forall_impl; [exact Hmd|]. by intros ? [? ?]. }
    destruct (result (makeDirs ft [SnapshotDir; ChangelogDir; DeletedDir]) s) as [e1|].
    { intros _. apply Forall_app. split; [exact H1|constructor]. }
    rewrite result_bind, effects_bind.
    pose proof (emits_ensureConfig ft (run es1 s)) as Hec.
    set (es2 := effects (ensureConfig ft) (run es1 s)) in *.
    assert (Forall (λ ef, writesVersion ef = false ∧
                          (e ≠ ErrWriteVersion → writesHashes ef = false)) es2) as H2.
    { eapply Forall_impl; [exact Hec|]. by intros ? [? ?]. }
    destruct (result (ensureConfig ft) (run es1 s)) as [e2|].
    { intros _. rewrite !Forall_app. split; [exact H1|]. split; [exact H2|constructor]. }
    intros Hres. rewrite !Forall_app. split; [exact H1|]. split; [exact H2|].
    by apply initTracked_failure. }
  split.
  - apply run_versionFile. eapply Forall_impl; [exact Hall|]. by intros ? [? ?].
  - intros Hne. apply run_hashesFile. eapply Forall_impl; [exact Hall|].
    intros ? [_ H]. by apply H.
Qed.

End Gitnot.

(* ===================================================================== *)
(** * Part III.  Worked instances                                        *)
(* ===================================================================== *)

(** The scenarios below run the program with [globMatch] for
    [path.Match] and [wholeFileDiff] for the differ. *)

(** Initialization of a directory that holds [a.txt] with the content
    [x]: version 0.0, one changelog entry, the file in the snapshot. *)
Example init_scenario :
  result (initGitnot globMatch noFaults) (storeFresh treeA) = None ∧
  run (effects (initGitnot globMatch noFaults) (storeFresh treeA)) (storeFresh treeA) =
  storeA treeA.
Proof. split; vm_compute; reflexivity. Qed.

(** After [a.txt] changed to [y]: version 0.1 and a changelog entry with
    the added and the removed line. *)
Example change_scenario :
  let s := storeA treeY in
  let s' := run (effects (updateGitnot globMatch wholeFileDiff noFaults "T") s) s in
  fmt1 (versionOf s') = "0.1" ∧
  snapshot s' = Some {[ "a.txt" := "y" ]} ∧
  changelogs s' !! "a.txt" =
  Some ("# a.txt — original v0.0" +:+ nl +:+ nl +:+ "## v0.1 – T" +:+ nl +:+
        "### ➕ Added" +:+ nl +:+ "L1: y" +:+ nl +:+ nl +:+
        "### ➖ Removed" +:+ nl +:+ "L1: x" +:+ nl +:+ nl).
Proof. repeat split; vm_compute; reflexivity. Qed.

(** After [a.txt] was deleted: version 0.1, the content kept among the
    deleted files, nothing left in the snapshot nor in the fingerprints. *)
Example delete_scenario :
  let s := storeA [] in
  let s' := run (effects (updateGitnot globMatch wholeFileDiff noFaults "T") s) s in
  fmt1 (versionOf s') = "0.1" ∧ deleted s' !! "a.txt" = Some "x" ∧
  snapshot s' = Some ∅ ∧ hashesFile s' = Some ∅.
Proof. repeat split; vm_compute; reflexivity. Qed.

(** C1, as stated, fails: with the rename of the new snapshot failing,
    and with a copy into the temporary directory failing, the run prints
    its warning and writes the fingerprints all the same. *)
Lemma hashes_written_after_failed_swap :
  let s := storeA treeY in
  let es := effects (updateGitnot globMatch wholeFileDiff failingRename "T") s in
  let u := storeA treeU in
  let eu := effects (updateGitnot globMatch wholeFileDiff noFaults "T") u in
  (printed MsgWarnMoveNew es = true ∧ snapshot (run es s) = None ∧
   hashesFile s = Some {[ "a.txt" := hashFile treeA "a.txt" ]} ∧
   hashesFile (run es s) = Some {[ "a.txt" := hashFile treeY "a.txt" ]} ∧
   hashFile treeA "a.txt" ≠ hashFile treeY "a.txt") ∧
  (printed MsgWarnSnapshot eu = true ∧ snapshot (run eu u) = snapshot u ∧
   (default ∅ (hashesFile u)) !! "b.txt" = None ∧
   (default ∅ (hashesFile (run eu u))) !! "b.txt" = Some "unreadable-b.txt").
Proof.
  cbv zeta. repeat split; try (vm_compute; reflexivity).
  vm_compute. discriminate.
Qed.

Lemma hashes_written_last_witness :
  let s := storeA treeY in
  let es := effects (updateGitnot globMatch wholeFileDiff failingRename "T") s in
  (∃ pre ver, es = pre ++ closing globMatch s ver ∧
              Forall (λ e, writesHashes e = false) pre ∧
              hashesFile (run es s) = Some (currentOf globMatch s)) ∧
  (Forall (λ e, writesHashes e = false)
          (effects (updateGitnot globMatch wholeFileDiff failingVersionWrite "T") s) ∧
   hashesFile (run (effects (updateGitnot globMatch wholeFileDiff failingVersionWrite "T") s) s)
   = hashesFile s).
Proof.
  cbv zeta. split.
  - apply (proj1 (hashes_written_last globMatch wholeFileDiff failingRename "T" (storeA treeY))).
    vm_compute. reflexivity.
  - apply (proj2 (hashes_written_last globMatch wholeFileDiff failingVersionWrite "T"
                    (storeA treeY))).
    vm_compute. reflexivity.
Defined.


Lemma snapshot_rebuild_fail_closed_witness :
  (let s := storeA treeU in
   let es := effects (rebuildSnapshot noFaults ["a.txt"; "b.txt"]) s in
   Forall (λ e, touchesSnapshot e = false) es ∧ snapshot (run es s) = snapshot s ∧
   (failTempDir noFaults = false → Print MsgWarnSnapshot ∈ es)) ∧
  (let s := storeA treeY in
   let es := effects (rebuildSnapshot failingRename ["a.txt"]) s in
   snapshot (run es s) = None ∧ Print MsgWarnMoveNew ∈ es) ∧
  (let s := storeA treeY in
   let es := effects (rebuildSnapshot noFaults ["a.txt"]) s in
   snapshot (run es s) = Some (mirror treeY ["a.txt"])).
Proof.
  cbv zeta. split; [|split].
  - apply (proj1 (snapshot_rebuild_fail_closed noFaults ["a.txt"; "b.txt"] (storeA treeU))).
    vm_compute. reflexivity.
  - apply (proj1 (proj2 (snapshot_rebuild_fail_closed failingRename ["a.txt"] (storeA treeY))));
      vm_compute; reflexivity.
  - apply (proj2 (proj2 (snapshot_rebuild_fail_closed noFaults ["a.txt"] (storeA treeY))));
      vm_compute; reflexivity.
Defined.




Lemma gitnot_prefix_skips_subtree_witness :
  isUnderGitnot ".gitnothing" = true ∧
  walk globMatch defaultConfig ".gitnothing"
       (Dir ".gitnothing" [File "notes.md" (Readable "n")]) = [] ∧
  getAllTextFiles globMatch defaultConfig
    ([File "a.txt" (Readable "x"); File "b.txt" Unreadable] ++
     Dir ".gitnothing" [File "notes.md" (Readable "n")] :: []) =
  getAllTextFiles globMatch defaultConfig
    ([File "a.txt" (Readable "x"); File "b.txt" Unreadable] ++ []).
Proof.
  apply (gitnot_prefix_skips_subtree globMatch defaultConfig ".gitnothing").
  reflexivity.
Defined.


Lemma init_skips_failed_copies_witness :
  let s := storeFresh treeU in
  let es := effects (initGitnot globMatch noFaults) s in
  let s' := run es s in
  "b.txt" ∈ trackedFiles globMatch s ∧ openFile (workDir s) "b.txt" = None ∧
  result (initGitnot globMatch noFaults) s = None ∧
  Print MsgInitialized ∈ es ∧
  Forall (λ e, writesLog "b.txt" e = false) es ∧
  changelogs s' !! "b.txt" = changelogs s !! "b.txt" ∧
  (∃ m, hashesFile s' = Some m ∧ m !! "b.txt" = None ∧
        ∀ p, is_Some (m !! p) → p ∈ trackedFiles globMatch s) ∧
  (∀ ft', "b.txt" ∈ newFiles (loadHashes ft' s') (currentOf globMatch s')).
Proof.
  cbv zeta.
  assert ("b.txt" ∈ trackedFiles globMatch (storeFresh treeU)) as Hin.
  { vm_compute. apply list_elem_of_further, list_elem_of_here. }
  split; [exact Hin|]. split; [reflexivity|].
  apply (init_skips_failed_copies globMatch noFaults (storeFresh treeU) "b.txt");
    try reflexivity; try exact Hin.
  by right.
Defined.

(** ** Instances of the further properties *)

Lemma update_changelog_entry_witness :
  let s := storeA treeY in
  changelogs (run (effects (updateGitnot globMatch wholeFileDiff noFaults "T") s) s)
    !! "a.txt" =
  match entryBody globMatch wholeFileDiff noFaults s "a.txt" with
  | Some body =>
      if failAppend noFaults "a.txt" then changelogs s !! "a.txt"
      else Some (default "" (changelogs s !! "a.txt") +:+
                 entryHead (bumped (versionOf s)) "T" +:+ body)
  | None => changelogs s !! "a.txt"
  end.
Proof.
  cbv zeta.
  apply (update_changelog_entry globMatch wholeFileDiff noFaults "T" (storeA treeY) "a.txt");
    vm_compute; reflexivity.
Defined.

Lemma update_deleted_store_witness :
  let s := storeA [] in
  deleted (run (effects (updateGitnot globMatch wholeFileDiff noFaults "T") s) s) !! "a.txt" =
  if bool_decide ("a.txt" ∈ deletedFiles (loadHashes noFaults s) (currentOf globMatch s)) then
    match snapshot s ≫= (.!! "a.txt") with
    | Some c => if failCopyDeleted noFaults "a.txt" then deleted s !! "a.txt" else Some c
    | None => deleted s !! "a.txt"
    end
  else deleted s !! "a.txt".
Proof.
  cbv zeta.
  apply (update_deleted_store globMatch wholeFileDiff noFaults "T" (storeA []) "a.txt");
    vm_compute; reflexivity.
Defined.

Lemma rebuild_temp_dir_witness :
  let s := storeA treeY in
  tempDir (run (effects (rebuildSnapshot failingRename ["a.txt"]) s) s) =
  if bool_decide (failRemoveAll failingRename = None) && negb (failRename failingRename)
  then None else Some (mirror (workDir s) ["a.txt"]).
Proof.
  cbv zeta. apply (rebuild_temp_dir failingRename ["a.txt"] (storeA treeY)); reflexivity.
Defined.




Lemma status_agrees_with_update_witness :
  let s := storeA treeA in
  (gitnotDir s = false →
     showStatus globMatch noFaults ∅ s = (Some ErrNotInitialized, []) ∧
     updateGitnot globMatch wholeFileDiff noFaults "T" s = (Some ErrNotInitialized, [])) ∧
  (showStatus globMatch noFaults ∅ s = (None, [LineNoChanges]) ↔
   updateGitnot globMatch wholeFileDiff noFaults "T" s = (None, [Print MsgNoChanges])).
Proof.
  cbv zeta.
  apply (status_agrees_with_update globMatch wholeFileDiff noFaults ∅ "T" (storeA treeA)).
  intros _. reflexivity.
Defined.

Lemma showVersion_lists_tracked_witness :
  let s := storeA treeA in
  ∃ lines, showVersion noFaults s = (None, LineVersion (fmt1 0) :: lines) ∧
    match (if failLoadHashes noFaults then None else hashesFile s) with
    | None => lines = [LineLoadWarning]
    | Some hashes =>
        if bool_decide (hashes = ∅) then lines = [LineNoTracked]
        else ∃ names, lines = LineTrackedCount (length names) :: (LineFile <$> names) ∧
               Sorted String.le names ∧ NoDup names ∧
               ∀ p, p ∈ names ↔ is_Some (hashes !! p)
    end.
Proof.
  cbv zeta. apply (showVersion_lists_tracked noFaults (storeA treeA) 0). reflexivity.
Defined.

Lemma directory_pattern_ignores_witness :
  shouldIgnore globMatch "build/out.txt" (IgnorePatterns cfgIgnore) = true ∧
  "build/out.txt" ∉ getAllTextFiles globMatch cfgIgnore treeBuild.
Proof.
  apply (directory_pattern_ignores globMatch cfgIgnore treeBuild "build" "build/out.txt").
  - apply list_elem_of_here.
  - right. left. exists "out.txt". reflexivity.
Defined.

Lemma render_entries_from_diff_witness :
  let diffText := "@@ -1 +1 @@" +:+ nl +:+ "-x" +:+ nl +:+ "+y" +:+ nl in
  let lines := Split diffText (Ascii.ascii_of_nat 10) in
  let r := renderLoop lines (mkRender 0 0 [] []) in
  formatDiffAsMarkdown diffText =
    section "### ➕ Added" (added r) +:+ section "### ➖ Removed" (removed r) ∧
  (∀ e, e ∈ added r → rendersLine "+" lines e) ∧
  (∀ e, e ∈ removed r → rendersLine "-" lines e).
Proof.
  cbv zeta.
  apply (render_entries_from_diff
           ("@@ -1 +1 @@" +:+ nl +:+ "-x" +:+ nl +:+ "+y" +:+ nl)).
  discriminate.
Defined.

Lemma update_without_snapshot_witness :
  let s := storeNoSnapshot in
  let s' := run (effects (updateGitnot globMatch wholeFileDiff noFaults "T") s) s in
  result (updateGitnot globMatch wholeFileDiff noFaults "T") s = None ∧
  printed MsgSnapshotMissing (effects (updateGitnot globMatch wholeFileDiff noFaults "T") s)
    = true ∧
  versionFile s' = VNumber (reparse (bumped (versionOf s))) ∧
  hashesFile s' = hashesFile s ∧ snapshot s' = None ∧
  detects globMatch noFaults s' = true.
Proof.
  cbv zeta.
  apply (update_without_snapshot globMatch wholeFileDiff noFaults noFaults "T" storeNoSnapshot);
    vm_compute; reflexivity.
Defined.

Lemma init_changelog_entry_witness :
  let s := storeA treeA in
  changelogs (run (effects (initGitnot globMatch noFaults) s) s) !! "a.txt" =
  if bool_decide ("a.txt" ∈ trackedFiles globMatch s) && snapOk noFaults (workDir s) "a.txt" &&
     negb (failAppend noFaults "a.txt")
  then Some (default "" (changelogs s !! "a.txt") +:+ originalLine "a.txt")
  else changelogs s !! "a.txt".
Proof.
  cbv zeta.
  apply (init_changelog_entry globMatch noFaults (storeA treeA) "a.txt");
    try (intros; reflexivity).
  assert (trackedFiles globMatch (storeA treeA) = ["a.txt"]) as E
    by (vm_compute; reflexivity).
  rewrite E. apply NoDup_singleton.
Defined.

Lemma hunk_header_sets_counters_witness :
  let r := mkRender 0 0 ["L1: old"] [] in
  HasPrefix (hunkLine 12 (Some 3) 14 None) "@@" = true ∧
  hunkHeader (hunkLine 12 (Some 3) 14 None) r = mkRender 12 14 (added r) (removed r).
Proof.
  cbv zeta.
  apply (hunk_header_sets_counters 12 14 (Some 3) None (mkRender 0 0 ["L1: old"] [])).
  - unfold maxInt. lia.
  - unfold maxInt. lia.
  - intros l [= <-]. lia.
  - intros l [=].
Defined.

Lemma name_pattern_ignores_witness :
  shouldIgnore globMatch "docs/secret.txt" (IgnorePatterns cfgIgnore) = true ∧
  "docs/secret.txt" ∉ getAllTextFiles globMatch cfgIgnore treeBuild.
Proof.
  apply (name_pattern_ignores globMatch cfgIgnore treeBuild "secret.txt" "docs/secret.txt").
  - apply list_elem_of_further, list_elem_of_here.
  - discriminate.
  - reflexivity.
  - reflexivity.
  - right. exists "docs". reflexivity.
Defined.

Lemma readability_change_detected_witness :
  let old : gmap string string := {[ "b.txt" := hexString (sha1Sum "x") ]} in
  let cur := currentHashes treeU ["a.txt"; "b.txt"] in
  (old !! "b.txt" = Some (hexString (sha1Sum "x")) → openFile treeU "b.txt" = None →
     "b.txt" ∈ changedFiles old cur) ∧
  (old !! "b.txt" = Some ("unreadable-" +:+ Base "b.txt") →
     openFile treeU "b.txt" = Some "x" → "b.txt" ∈ changedFiles old cur) ∧
  (old !! "b.txt" = Some ("unreadable-" +:+ Base "b.txt") → openFile treeU "b.txt" = None →
     "b.txt" ∈ unchangedFiles old cur).
Proof.
  cbv zeta.
  apply (readability_change_detected {[ "b.txt" := hexString (sha1Sum "x") ]} treeU
           ["a.txt"; "b.txt"] "b.txt" "x").
  apply list_elem_of_further, list_elem_of_here.
Defined.

Lemma lost_fingerprints_all_new_witness :
  let s := storeLostHashes in
  ("a.txt" ∈ newFiles (loadHashes noFaults s) (currentOf globMatch s) ↔
   "a.txt" ∈ trackedFiles globMatch s) ∧
  changedFiles (loadHashes noFaults s) (currentOf globMatch s) = [] ∧
  deletedFiles (loadHashes noFaults s) (currentOf globMatch s) = [] ∧
  ("a.txt" ∈ trackedFiles globMatch s →
   entryBody globMatch wholeFileDiff noFaults s "a.txt" = Some ("📄 New file added." +:+ nl)).
Proof.
  cbv zeta.
  apply (lost_fingerprints_all_new globMatch wholeFileDiff noFaults storeLostHashes "a.txt").
  right. reflexivity.
Defined.

Lemma init_failure_keeps_version_witness :
  let s := storeA treeY in
  let s' := run (effects (initGitnot globMatch failingSaveHashes) s) s in
  versionFile s' = versionFile s ∧
  (ErrSaveHashes ≠ ErrWriteVersion → hashesFile s' = hashesFile s).
Proof.
  cbv zeta.
  apply (init_failure_keeps_version globMatch failingSaveHashes (storeA treeY) ErrSaveHashes).
  vm_compute. reflexivity.
Defined.

Lemma render_hunk_by_hunk_witness :
  let l1 := ["--- before"; "+++ after"; "@@ -1 +1 @@"; "-x"; "+y"] in
  let l2 := [" keep"; "+new"] in
  let r := mkRender 0 0 [] [] in
  let r1 := renderLoop l1 r in
  renderLoop (l1 ++ hunkLine 7 (Some 1) 7 (Some 2) :: l2) r =
  renderLoop l2 (mkRender 7 7 (added r1) (removed r1)).
Proof.
  cbv zeta.
  apply (render_hunk_by_hunk ["--- before"; "+++ after"; "@@ -1 +1 @@"; "-x"; "+y"]
           [" keep"; "+new"] 7 7 (Some 1) (Some 2) (mkRender 0 0 [] [])).
  - unfold maxInt. lia.
  - unfold maxInt. lia.
  - intros l [= <-]. lia.
  - intros l [= <-]. lia.
Defined.

Lemma first_change_label_witness :
  let ctx := [" one"; " two"] in
  let r := mkRender 0 0 [] [] in
  let k := Z.of_nat (length ctx) in
  (HasPrefix "new" "++" = false →
   renderLoop (hunkLine 3 (Some 4) 3 (Some 5) :: ctx ++ ("+" +:+ "new") :: [" three"]) r =
   renderLoop [" three"]
     (mkRender (3 + k) (3 + k + 1)
               (added r ++ ["L" +:+ Itoa (3 + k) +:+ ": " +:+ TrimSpace "new"]) (removed r))) ∧
  (HasPrefix "new" "--" = false →
   churnPair ("-" +:+ "new") " three" = false →
   renderLoop (hunkLine 3 (Some 4) 3 (Some 5) :: ctx ++ ("-" +:+ "new") :: [" three"]) r =
   renderLoop [" three"]
     (mkRender (3 + k + 1) (3 + k) (added r)
               (removed r ++ ["L" +:+ Itoa (3 + k) +:+ ": " +:+ TrimSpace "new"]))).
Proof.
  cbv zeta.
  apply (first_change_label 3 3 (Some 4) (Some 5) [" one"; " two"] "new" [" three"]
           (mkRender 0 0 [] [])).
  - lia.
  - lia.
  - unfold maxInt. cbn [length]. lia.
  - unfold maxInt. cbn [length]. lia.
  - intros l [= <-]. lia.
  - intros l [= <-]. lia.
  - repeat constructor.
Defined.
